(** * utils/dataset.py: bucketed, cached, rank-sharded data loading

    A shallow embedding of [utils/dataset.py] and the properties its
    specification states about it.  Python objects that are mutated in
    place (lists, the generator behind [random], the cache directory, the
    logger) are threaded explicitly; a Python exception is an [Err].  *)

From Stdlib Require Import Ascii String ZArith QArith Qabs Lia.
From stdpp Require Import base option list gmap strings fin_maps numbers pretty.

Set Warnings "-register-all".

Local Open Scope string_scope.
Local Open Scope list_scope.
Local Open Scope nat_scope.

(* ===================================================================== *)
(** * Exceptions and results *)

Inductive exn :=
  | IndexError
  | KeyError
  | StopIteration
  | RuntimeError
  | ZeroDivisionError
  | TypeError
  | ValueError
  | AttributeError
  | AssertionError
  | OSError.

Inductive result (A : Type) :=
  | Ok (a : A)
  | Err (e : exn).
Arguments Ok {A} a.
Arguments Err {A} e.

Definition bind {A B} (r : result A) (k : A → result B) : result B :=
  match r with
  | Ok a => k a
  | Err e => Err e
  end.

Notation "x ←! r ;; k" := (bind r (fun x => k))
  (at level 100, r at next level, right associativity, only parsing).

Definition of_option {A} (o : option A) (e : exn) : result A :=
  match o with
  | Some a => Ok a
  | None => Err e
  end.

Definition is_ok {A} (r : result A) : bool :=
  match r with Ok _ => true | Err _ => false end.

Definition ok_or {A} (d : A) (r : result A) : A :=
  match r with Ok a => a | Err _ => d end.

(* ===================================================================== *)
(** * The [random] module, as far as the file uses it *)

(** The generator behind Python's module-level [random] functions.
    [seed_state a] is the state after [random.seed(a)] for an integer [a];
    [randbelow n s] is [_randbelow(n)]: a value below [n] and the next
    state.  [random.getstate()] and [random.setstate()] read and write the
    state as a whole. *)
Class Generator := {
  gen_state : Type;
  seed_state : Z → gen_state;
  randbelow : nat → gen_state → nat * gen_state;
  randbelow_lt : ∀ n s, 0 < n → (randbelow n s).1 < n
}.

Module random.
Section with_generator.
Context `{G : Generator}.

(** [random.seed(a)]: with [a = None] the generator is seeded from the
    operating system; [os] is the integer the system supplies. *)
Definition seed (a : option Z) (os : Z) : gen_state :=
  match a with
  | Some z => seed_state z
  | None => seed_state os
  end.

(** [x[i], x[j] = x[j], x[i]]; both indices are in range whenever
    [random.shuffle] reaches this line (0 <= j <= i < len(x)). *)
Definition swap {A} (x : list A) (i j : nat) : list A :=
  match x !! i, x !! j with
  | Some xi, Some xj => <[j := xi]> (<[i := xj]> x)
  | _, _ => x
  end.

(** [for i in reversed(range(1, n + 1)): j = randbelow(i + 1); swap] *)
Fixpoint shuffle_from {A} (i : nat) (x : list A) (s : gen_state)
  : list A * gen_state :=
  match i with
  | 0 => (x, s)
  | S i' =>
      let '(j, s') := randbelow (S i) s in
      shuffle_from i' (swap x i j) s'
  end.

(** [random.shuffle(x)]: shuffles [x] in place. *)
Definition shuffle {A} (x : list A) (s : gen_state) : list A * gen_state :=
  shuffle_from (length x - 1) x s.
End with_generator.
End random.

(** [shuffle_with_seed(l, seed=None)]: returns the new contents of [l] and
    the generator state after the call. *)
Definition shuffle_with_seed `{G : Generator} {A}
    (l : list A) (seed : option Z) (os : Z) (s : gen_state)
  : list A * gen_state :=
  let rng_state := s in                        (* random.getstate() *)
  let s1 := random.seed seed os in             (* random.seed(seed) *)
  let '(l', _) := random.shuffle l s1 in       (* random.shuffle(l) *)
  (l', rng_state).                             (* random.setstate(rng_state) *)

(* ===================================================================== *)
(** * Text: the [str] methods used on captions *)

(** [str.isspace] on ASCII text: tab .. carriage return, the four
    separators 28 .. 31, and the blank. *)
Definition isspace (c : ascii) : bool :=
  let n := nat_of_ascii c in
  ((9 <=? n) && (n <=? 13)) || ((28 <=? n) && (n <=? 32)).

Fixpoint lstrip (s : string) : string :=
  match s with
  | EmptyString => EmptyString
  | String c s' => if isspace c then lstrip s' else s
  end.

Definition strip (s : string) : string :=
  String.rev (lstrip (String.rev (lstrip s))).

(** [s.split(sep)] for a one-character separator: never empty. *)
Fixpoint split (sep : ascii) (s : string) : list string :=
  match s with
  | EmptyString => [EmptyString]
  | String c s' =>
      if Ascii.eqb c sep then EmptyString :: split sep s'
      else match split sep s' with
           | h :: t => String c h :: t
           | [] => [String c EmptyString]
           end
  end.

(** [sep.join(l)] *)
Fixpoint join (sep : string) (l : list string) : string :=
  match l with
  | [] => ""
  | [x] => x
  | x :: l' => x +:+ sep +:+ join sep l'
  end.

(** ** Paths: [pathlib] on the final component of a path *)

Fixpoint rfind_dot (s : string) : option nat :=
  match s with
  | EmptyString => None
  | String c s' =>
      match rfind_dot s' with
      | Some i => Some (S i)
      | None => if Ascii.eqb c "." then Some 0 else None
      end
  end.

(** [Path.suffix]: from the last dot on, unless the dot is the first or
    the last character. *)
Definition suffix (name : string) : string :=
  match rfind_dot name with
  | Some i =>
      if (0 <? i) && (i <? String.length name - 1)
      then substring i (String.length name - i) name
      else ""
  | None => ""
  end.

(** [Path.with_suffix(sfx)] *)
Definition with_suffix (name sfx : string) : string :=
  substring 0 (String.length name - String.length (suffix name)) name +:+ sfx.

(** An entry of a directory: its name and whether it is a regular file. *)
Record dir_entry := {
  entry_name : string;
  is_file : bool
}.

(** [files.sort()]: entries of one directory compare by name. *)
Fixpoint insert_sorted (e : dir_entry) (l : list dir_entry) : list dir_entry :=
  match l with
  | [] => [e]
  | e' :: l' =>
      if String.leb (entry_name e) (entry_name e') then e :: l else e' :: insert_sorted e l'
  end.

Definition sort_entries (l : list dir_entry) : list dir_entry :=
  foldr insert_sorted [] l.

(** [d[k].append(v)] on a [defaultdict(list)], which keeps its keys in
    the order of their first use. *)
Fixpoint dict_append {K V} `{EqDecision K} (k : K) (v : V) (d : list (K * list V))
  : list (K * list V) :=
  match d with
  | [] => [(k, [v])]
  | (k', vs) :: d' =>
      if decide (k = k') then (k', vs ++ [v]) :: d' else (k', vs) :: dict_append k v d'
  end.

(* ===================================================================== *)
(** * Tensors, examples and the logger *)

(** A tensor by its nesting: [Rows] along the leading dimension. *)
Inductive tensor :=
  | Scalar (v : Z)
  | Rows (rows : list tensor).

(** [t.size(0)]; a 0-dimensional tensor has no leading dimension. *)
Definition size0 (t : tensor) : result nat :=
  match t with
  | Scalar _ => Err IndexError
  | Rows rows => Ok (length rows)
  end.

Fixpoint shape (t : tensor) : list nat :=
  match t with
  | Scalar _ => []
  | Rows rows =>
      length rows :: match rows with
                     | [] => []
                     | r :: _ => shape r
                     end
  end.

Definition shape_eqb (a b : list nat) : bool := bool_decide (a = b).

(** [torch.stack(tensors, dim=0)]: the tensors become the rows of a new
    one; an empty list or tensors of different shapes are refused. *)
Definition torch_stack (tensors : list tensor) : result tensor :=
  match tensors with
  | [] => Err RuntimeError
  | t :: ts =>
      if forallb (fun u => shape_eqb (shape u) (shape t)) ts
      then Ok (Rows tensors)
      else Err RuntimeError
  end.

(** [x[start:stop]] on the leading dimension, clamped as Python slices are. *)
Definition tensor_slice (x : tensor) (start stop : nat) : result tensor :=
  match x with
  | Scalar _ => Err IndexError
  | Rows rows => Ok (Rows (take (stop - start) (drop start rows)))
  end.

(** A value stored in a column of a [datasets.Dataset]. *)
Inductive value :=
  | VStr (s : string)
  | VTensor (t : tensor).

(** One row of a dataset: a Python dict from column name to value. *)
Abbreviation example := (gmap string value).

Definition get_str (ex : example) (k : string) : result string :=
  match ex !! k with
  | None => Err KeyError
  | Some (VStr s) => Ok s
  | Some (VTensor _) => Err TypeError
  end.

Definition get_tensor (ex : example) (k : string) : result tensor :=
  match ex !! k with
  | None => Err KeyError
  | Some (VTensor t) => Ok t
  | Some (VStr _) => Err TypeError
  end.

Inductive level := INFO | WARNING.

Record log_record := { lvl : level; msg : string }.

Abbreviation log := (list log_record).

Definition logger_info (m : string) (l : log) : log := l ++ [{| lvl := INFO; msg := m |}].
Definition logger_warning (m : string) (l : log) : log := l ++ [{| lvl := WARNING; msg := m |}].

(* ===================================================================== *)
(** * Collaborators: PIL, the model, the [datasets] library *)

(** The part of PIL the file calls. *)
Class PIL := {
  pil_image : Type;
  img_size : pil_image → Z * Z;
  img_mode : pil_image → string;
  has_transparency : pil_image → bool;       (* 'transparency' in img.info *)
  convert : string → pil_image → pil_image;
  on_white_canvas : pil_image → pil_image;   (* Image.new + alpha_composite *)
  ImageOps_fit : pil_image → Z * Z → pil_image
}.

(** The model object handed to every dataset. *)
Class Model `{PIL} := {
  vae : Type;
  get_vae : vae;
  vae_encode : vae → pil_image → tensor;     (* pil_to_tensor, encode, sample, scale *)
  get_text_embedding : nat → string → tensor;
  num_text_encoders : nat;
  prepare_inputs : list tensor → list tensor
}.

(** An element of the list given to [Hasher.hash]. *)
Inductive fp_arg :=
  | ArgInt (i : Z)
  | ArgStr (s : string).

(** The [datasets] library's fingerprinting.  [Hasher_hash] is
    [Hasher.hash]; the other two are the fingerprints the library gives to
    [Dataset.from_dict] and to a [map] that is not told its fingerprint
    (there: of the caption transform, from the old fingerprint and the two
    values the transform closes over). *)
Class Datasets := {
  Hasher_hash : list fp_arg → string;
  from_dict_fingerprint : list example → string;
  map_fingerprint : string → bool → string → string
}.

Record HFDataset := {
  rows : list example;
  _fingerprint : string
}.

(** The rows [Dataset.map] produces: [fn] is applied to every row in
    order, threading the state it touches; an exception of [fn] goes
    through.
    Modelled from the spec: a row on which the transform gives up
    (returns [None]) is dropped from the resulting column. *)
Fixpoint map_rows {S} (fn : example → S → result (option example) * S)
    (rs : list example) (s : S) : result (list example) * S :=
  match rs with
  | [] => (Ok [], s)
  | r :: rs' =>
      match fn r s with
      | (Err e, s') => (Err e, s')
      | (Ok o, s') =>
          match map_rows fn rs' s' with
          | (Err e, s'') => (Err e, s'')
          | (Ok out, s'') =>
              (Ok (match o with Some r' => r' :: out | None => out end), s'')
          end
      end
  end.

(** [pathlib] globbing with the pattern [prefix*.arrow]. *)
Fixpoint strip_prefix (p s : string) : option string :=
  match p, s with
  | EmptyString, _ => Some s
  | String a p', String b s' => if Ascii.eqb a b then strip_prefix p' s' else None
  | String _ _, EmptyString => None
  end.

Fixpoint ends_with (suf s : string) : bool :=
  String.eqb s suf ||
  match s with
  | EmptyString => false
  | String _ s' => ends_with suf s'
  end.

Definition glob_match (prefix name : string) : bool :=
  match strip_prefix prefix name with
  | Some rest => ends_with ".arrow" rest
  | None => false
  end.

(** The cache directories on disk: directory, then file name, then the
    table stored in the file. *)
Abbreviation disk := (gmap string (gmap string (list example))).

Definition dir_files (d : disk) (dir : string) : gmap string (list example) :=
  default ∅ (d !! dir).

(** [os.makedirs(dir, exist_ok=True)] *)
Definition makedirs (dir : string) (d : disk) : disk :=
  match d !! dir with
  | Some _ => d
  | None => <[dir := ∅]> d
  end.

(** [for f in dir.glob(prefix*.arrow): f.unlink()] *)
Definition unlink_matching (dir prefix : string) (d : disk) : disk :=
  <[dir := filter (fun kv => glob_match prefix kv.1 = false) (dir_files d dir)]> d.

(* ===================================================================== *)
(** * The process and its surroundings *)

(** What the code reads but never writes: the directories by path (absent:
    no such directory) with their entries, caption files by path, what
    [Image.open] gives by path (absent: it raises), whether this is the
    main process, and the integer the system gives to an unseeded
    [random.seed]. *)
Record host `{PIL} := {
  directories : gmap string (list dir_entry);
  text_files : gmap string string;
  image_files : gmap string pil_image;
  is_main_process : bool;
  urandom : Z
}.

(** What the code writes: the state of the module-level generator, the
    list object that is the default value of [_map_and_cache]'s
    [new_fingerprint_args] (created once, when the function is defined),
    the cache directories, and the log. *)
Record process `{Generator} := {
  rng : gen_state;
  default_new_fingerprint_args : list fp_arg;
  cache : disk;
  logged : log
}.

Section process_ops.
Context `{G : Generator}.

Definition set_rng (s : gen_state) (p : process) : process :=
  {| rng := s; default_new_fingerprint_args := default_new_fingerprint_args p;
     cache := cache p; logged := logged p |}.

Definition set_default_new_fingerprint_args (l : list fp_arg) (p : process) : process :=
  {| rng := rng p; default_new_fingerprint_args := l;
     cache := cache p; logged := logged p |}.

Definition set_cache (d : disk) (p : process) : process :=
  {| rng := rng p; default_new_fingerprint_args := default_new_fingerprint_args p;
     cache := d; logged := logged p |}.

Definition info (m : string) (p : process) : process :=
  {| rng := rng p; default_new_fingerprint_args := default_new_fingerprint_args p;
     cache := cache p; logged := logger_info m (logged p) |}.

Definition warning (m : string) (p : process) : process :=
  {| rng := rng p; default_new_fingerprint_args := default_new_fingerprint_args p;
     cache := cache p; logged := logger_warning m (logged p) |}.

(** [dataset.map(fn, cache_file_name=..., new_fingerprint=...)]: a cache
    file of that name is loaded as it is; otherwise the rows are computed
    and written to it. *)
Definition map_cached (fn : example → process → result (option example) * process)
    (dataset : HFDataset) (dir name new_fingerprint : string) (p : process)
  : result HFDataset * process :=
  match dir_files (cache p) dir !! name with
  | Some table => (Ok {| rows := table; _fingerprint := new_fingerprint |}, p)
  | None =>
      match map_rows fn (rows dataset) p with
      | (Err e, p') => (Err e, p')
      | (Ok out, p') =>
          (Ok {| rows := out; _fingerprint := new_fingerprint |},
           set_cache (<[dir := <[name := out]> (dir_files (cache p') dir)]> (cache p')) p')
      end
  end.
End process_ops.

(* ===================================================================== *)
(** * Module-level functions of [utils/dataset.py] *)

Section functions.
Context `{G : Generator} `{P : PIL} `{M : @Model P} `{D : Datasets}.

Definition crop_and_resize (pil_img : pil_image) (size_bucket : Z * Z) : pil_image :=
  let pil_img :=
    if negb (bool_decide (img_mode pil_img = "RGB") || bool_decide (img_mode pil_img = "RGBA"))
       && has_transparency pil_img
    then convert "RGBA" pil_img else pil_img in
  let pil_img :=
    if bool_decide (img_mode pil_img = "RGBA")
    then convert "RGB" (on_white_canvas pil_img)
    else convert "RGB" pil_img in
  ImageOps_fit pil_img size_bucket.

Definition encode_pil_to_latents (pil_img : pil_image) (v : vae) : tensor :=
  vae_encode v pil_img.

(** [t.squeeze(0)] *)
Definition squeeze0 (t : tensor) : tensor :=
  match t with
  | Rows [r] => r
  | _ => t
  end.

(** [process_caption_fn(shuffle_tags, caption_prefix)] returns [fn];
    [fn(example)] reads the caption file and, when asked to, shuffles its
    tags with the module-level generator as it is. *)
Definition process_caption_fn (h : host) (shuffle_tags : bool) (caption_prefix : string)
    (ex : example) (p : process) : result (option example) * process :=
  match get_str ex "caption_file" with
  | Err e => (Err e, p)
  | Ok caption_file =>
      match text_files h !! caption_file with
      | None => (Err OSError, p)
      | Some text =>
          let caption := strip text in
          let '(caption, p) :=
            if shuffle_tags then
              let tags := map strip (split "," caption) in
              let '(tags, s) := random.shuffle tags (rng p) in
              (join ", " tags, set_rng s p)
            else (caption, p) in
          let caption := caption_prefix +:+ caption in
          (Ok (Some (<["caption" := VStr caption]> ex)), p)
      end
  end.

(** [process_image_fn(vae, size_bucket)] returns [fn]. *)
Definition process_image_fn (h : host) (v : vae) (size_bucket : Z * Z)
    (ex : example) (p : process) : result (option example) * process :=
  match get_str ex "image_file" with
  | Err e => (Err e, p)
  | Ok image_file =>
      match image_files h !! image_file with
      | None =>
          (Ok None,
           warning ("Image file " +:+ image_file +:+ " could not be opened. Skipping.") p)
      | Some pil_img =>
          let pil_img := crop_and_resize pil_img size_bucket in
          let latents := encode_pil_to_latents pil_img v in
          (Ok (Some (<["latents" := VTensor (squeeze0 latents)]> ex)), p)
      end
  end.
End functions.

(* ===================================================================== *)
(** * Generators *)

(** A Python generator, by what it does when it is resumed again and
    again: it yields, ends, or dies of an exception. *)
Inductive trace (A : Type) :=
  | Stop
  | Raise (e : exn)
  | Yield (a : A) (rest : trace A).
Arguments Stop {A}.
Arguments Raise {A} e.
Arguments Yield {A} a rest.

Fixpoint trace_of_results {A} (l : list (result A)) : trace A :=
  match l with
  | [] => Stop
  | Ok a :: l' => Yield a (trace_of_results l')
  | Err e :: _ => Raise e
  end.

Definition trace_of_list {A} (l : list A) : trace A :=
  trace_of_results (map Ok l).

(** [next(it)]: the item and the generator afterwards.  A generator that
    ended or died stays ended. *)
Definition next {A} (it : trace A) : result A * trace A :=
  match it with
  | Stop => (Err StopIteration, Stop)
  | Raise e => (Err e, Stop)
  | Yield a rest => (Ok a, rest)
  end.

(** [[next(it) for _ in range(n)]] *)
Fixpoint next_n {A} (n : nat) (it : trace A) : result (list A) * trace A :=
  match n with
  | 0 => (Ok [], it)
  | S n' =>
      match next it with
      | (Err e, it') => (Err e, it')
      | (Ok a, it') =>
          match next_n n' it' with
          | (Err e, it'') => (Err e, it'')
          | (Ok l, it'') => (Ok (a :: l), it'')
          end
      end
  end.

(** [[f(x) for x in l]] where [f] may raise. *)
Fixpoint for_each {A B} (f : A → result B) (l : list A) : result (list B) :=
  match l with
  | [] => Ok []
  | x :: l' =>
      y ←! f x;;
      ys ←! for_each f l';;
      Ok (y :: ys)
  end.

(* ===================================================================== *)
(** * class SizeBucketDataset *)

(** A [[directory]] entry of the dataset configuration; the two optional
    keys are filled in by [setdefault]. *)
Record directory_config := {
  path : string;
  cfg_shuffle_tags : option bool;
  cfg_caption_prefix : option string
}.

Definition setdefaults (c : directory_config) : directory_config :=
  {| path := path c;
     cfg_shuffle_tags := Some (default false (cfg_shuffle_tags c));
     cfg_caption_prefix := Some (default "" (cfg_caption_prefix c)) |}.

Module SizeBucketDataset.

Record t := {
  filepaths : list (string * string);
  config : directory_config;
  size_bucket : Z * Z;
  cache_dir : string;
  image_file_and_caption_dataset : HFDataset;
  latent_dataset : option HFDataset;        (* unset until _cache_latents *)
  text_embedding_datasets : list HFDataset
}.

Section methods.
Context `{G : Generator} `{P : PIL} `{M : @Model P} `{D : Datasets}.

Definition __init__ (h : host) (filepaths : list (string * string))
    (dataset_config : directory_config) (size_bucket : Z * Z) (p : process)
  : result t * process :=
  let p := info ("size_bucket: (" +:+ pretty size_bucket.1 +:+ ", " +:+ pretty size_bucket.2
                 +:+ "), num_images: " +:+ pretty (length filepaths)) p in
  let config := setdefaults dataset_config in
  let shuffle_tags := default false (cfg_shuffle_tags config) in
  let caption_prefix := default "" (cfg_caption_prefix config) in
  let cache_dir := path config +:+ "/cache/cache_" +:+ pretty size_bucket.1
                   +:+ "x" +:+ pretty size_bucket.2 in
  let p := set_cache (makedirs cache_dir (cache p)) p in
  (* This is the one place we shuffle the data. *)
  let '(image_and_caption_files, s) :=
    shuffle_with_seed filepaths (Some 0%Z) (urandom h) (rng p) in
  let p := set_rng s p in
  match image_and_caption_files with
  | [] => (Err ValueError, p)               (* unpacking the zip of no pairs fails *)
  | _ =>
      let ds := map (fun '(i, c) => ({[ "image_file" := VStr i; "caption_file" := VStr c ]} : example))
                    image_and_caption_files in
      match map_rows (process_caption_fn h shuffle_tags caption_prefix) ds p with
      | (Err e, p) => (Err e, p)
      | (Ok out, p) =>
          (Ok {| filepaths := image_and_caption_files;
                 config := config;
                 size_bucket := size_bucket;
                 cache_dir := cache_dir;
                 image_file_and_caption_dataset :=
                   {| rows := map (delete "caption_file") out;
                      _fingerprint := map_fingerprint (from_dict_fingerprint ds)
                                        shuffle_tags caption_prefix |};
                 latent_dataset := None;
                 text_embedding_datasets := [] |}, p)
      end
  end.

(** [new_fingerprint_args] is [None] when the caller leaves the argument
    out: the function then appends to its default list object, which every
    such call shares. *)
Definition _map_and_cache (self : t) (dataset : HFDataset)
    (map_fn : example → process → result (option example) * process)
    (cache_file_prefix : string) (new_fingerprint_args : option (list fp_arg))
    (p : process) : result HFDataset * process :=
  let '(new_fingerprint_args, p) :=
    match new_fingerprint_args with
    | Some l => (l ++ [ArgStr (_fingerprint dataset)], p)
    | None =>
        let l := default_new_fingerprint_args p ++ [ArgStr (_fingerprint dataset)] in
        (l, set_default_new_fingerprint_args l p)
    end in
  let new_fingerprint := Hasher_hash new_fingerprint_args in
  let cache_file := cache_file_prefix +:+ new_fingerprint +:+ ".arrow" in
  let p :=
    match dir_files (cache p) (cache_dir self) !! cache_file with
    | Some _ => info "Dataset fingerprint matched cache, loading from cache" p
    | None =>
        let p := info "Dataset fingerprint changed, removing existing cache file and regenerating" p in
        set_cache (unlink_matching (cache_dir self) cache_file_prefix (cache p)) p
    end in
  map_cached map_fn dataset (cache_dir self) cache_file new_fingerprint p.

Definition _get_text_embedding_map_fn (self : t) (i : nat)
    (ex : example) (p : process) : result (option example) * process :=
  match get_str ex "caption" with
  | Err e => (Err e, p)
  | Ok caption =>
      (Ok (Some (<["text_embedding" := VTensor (squeeze0 (get_text_embedding i caption))]> ex)), p)
  end.

Definition set_latent_dataset (ds : HFDataset) (self : t) : t :=
  {| filepaths := filepaths self; config := config self; size_bucket := size_bucket self;
     cache_dir := cache_dir self;
     image_file_and_caption_dataset := image_file_and_caption_dataset self;
     latent_dataset := Some ds;
     text_embedding_datasets := text_embedding_datasets self |}.

Definition append_text_embedding_dataset (ds : HFDataset) (self : t) : t :=
  {| filepaths := filepaths self; config := config self; size_bucket := size_bucket self;
     cache_dir := cache_dir self;
     image_file_and_caption_dataset := image_file_and_caption_dataset self;
     latent_dataset := latent_dataset self;
     text_embedding_datasets := text_embedding_datasets self ++ [ds] |}.

Definition _cache_latents (h : host) (self : t) (v : vae) (p : process)
  : result t * process :=
  match _map_and_cache self (image_file_and_caption_dataset self)
          (process_image_fn h v (size_bucket self)) "latent_" None p with
  | (Err e, p) => (Err e, p)
  | (Ok ds, p) => (Ok (set_latent_dataset ds self), p)
  end.

Definition _cache_text_embedding (self : t) (i : nat) (p : process)
  : result t * process :=
  match _map_and_cache self (image_file_and_caption_dataset self)
          (_get_text_embedding_map_fn self i)
          ("text_embedding_" +:+ pretty (i + 1) +:+ "_") (Some [ArgInt (Z.of_nat i)]) p with
  | (Err e, p) => (Err e, p)
  | (Ok ds, p) => (Ok (append_text_embedding_dataset ds self), p)
  end.

Definition column (ds : HFDataset) (i : nat) (name : string) : result tensor :=
  row ←! of_option (rows ds !! i) IndexError;;
  get_tensor row name.

Definition __getitem__ (self : t) (i : nat) : result (list tensor) :=
  ld ←! of_option (latent_dataset self) AttributeError;;
  latents ←! column ld i "latents";;
  text_embeddings ←! for_each (fun te_dataset => column te_dataset i "text_embedding")
                       (text_embedding_datasets self);;
  Ok (latents :: text_embeddings).

Definition __len__ (self : t) : nat :=
  length (rows (image_file_and_caption_dataset self)).

Definition __iter__ (self : t) : trace (list tensor) :=
  trace_of_results (map (__getitem__ self) (seq 0 (__len__ self))).

End methods.
End SizeBucketDataset.

(* ===================================================================== *)
(** * class ConcatenatedDataset *)

(** What [next] on an inner generator means inside a generator: an inner
    [StopIteration] surfaces as [RuntimeError]. *)
Definition inner_exn (e : exn) : exn :=
  match e with
  | StopIteration => RuntimeError
  | _ => e
  end.

Module ConcatenatedDataset.

Record t := {
  datasets : list SizeBucketDataset.t;
  iteration_order : list nat
}.

Section methods.
Context `{G : Generator} `{P : PIL} `{M : @Model P} `{D : Datasets}.

(** [for i, ds in enumerate(datasets): order.extend([i]*len(ds))] *)
Definition indices_by_length (datasets : list SizeBucketDataset.t) : list nat :=
  concat (imap (fun i ds => replicate (SizeBucketDataset.__len__ ds) i) datasets).

Definition __init__ (h : host) (datasets : list SizeBucketDataset.t) (p : process)
  : t * process :=
  let '(iteration_order, s) :=
    shuffle_with_seed (indices_by_length datasets) (Some 0%Z) (urandom h) (rng p) in
  ({| datasets := datasets; iteration_order := iteration_order |}, set_rng s p).

Definition __len__ (self : t) : nat := length (iteration_order self).

(** [for i in order: yield next(iterators[i])] *)
Fixpoint iter_from (iterators : list (trace (list tensor))) (order : list nat)
  : trace (list tensor) :=
  match order with
  | [] => Stop
  | i :: order' =>
      match iterators !! i with
      | None => Raise IndexError
      | Some it =>
          match next it with
          | (Err e, _) => Raise (inner_exn e)
          | (Ok a, it') => Yield a (iter_from (<[i := it']> iterators) order')
          end
      end
  end.

Definition __iter__ (self : t) : trace (list tensor) :=
  iter_from (map SizeBucketDataset.__iter__ (datasets self)) (iteration_order self).

Definition _make_divisible_by (h : host) (n : nat) (self : t) (p : process)
  : result t * process :=
  match n with
  | 0 => (Err ZeroDivisionError, p)
  | _ =>
      let new_length := (__len__ self / n) * n in
      let self := {| datasets := datasets self;
                     iteration_order := take new_length (iteration_order self) |} in
      if (new_length =? 0) && is_main_process h then
        match datasets self !! 0 with
        | None => (Err IndexError, p)
        | Some ds0 =>
            (Ok self,
             warning ("size bucket (" +:+ pretty (SizeBucketDataset.size_bucket ds0).1 +:+ ", "
                      +:+ pretty (SizeBucketDataset.size_bucket ds0).2
                      +:+ ") is being completely dropped because it doesn't have enough images") p)
        end
      else (Ok self, p)
  end.

(** The object as a call of [_make_divisible_by] that raises leaves it:
    untouched when the division raises, its order already cut when the
    warning raises for want of a first dataset. *)
Definition _make_divisible_by_raised (n : nat) (self : t) : t :=
  match n with
  | 0 => self
  | _ =>
      let new_length := (__len__ self / n) * n in
      {| datasets := datasets self;
         iteration_order := take new_length (iteration_order self) |}
  end.

End methods.
End ConcatenatedDataset.

(* ===================================================================== *)
(** * class Dataset *)

(** [zip] of the unpacked examples: their columns, as many as the
    shortest example has. *)
Fixpoint zip_star_go {A} (fuel : nat) (ls : list (list A)) : list (list A) :=
  match fuel with
  | 0 => []
  | S fuel' =>
      match mapM head ls with
      | Some hs => hs :: zip_star_go fuel' (map tail ls)
      | None => []
      end
  end.

Definition zip_star {A} (ls : list (list A)) : list (list A) :=
  match ls with
  | [] => []
  | l :: _ => zip_star_go (length l) ls
  end.

Module Dataset.

Record t := {
  buckets : list ConcatenatedDataset.t;
  post_init_called : bool;
  data_parallel_rank : nat;
  data_parallel_world_size : nat;
  batch_size : nat;
  global_batch_size : nat;
  iteration_order : list nat
}.

Section methods.
Context `{G : Generator} `{P : PIL} `{M : @Model P} `{D : Datasets}.

(** The loop of [_find_closest_size_bucket]; [best_ar_diff] is [None] for
    the initial infinity.  The quotients, floats in the source, are exact
    rationals here: where two buckets are equally close to the image, or
    closer to one another than a double tells apart, the bucket kept here
    can be another than the one the source keeps.  Nothing below says
    which bucket is kept, only that it is one of the list. *)
Fixpoint closest_from (ar : Q) (size_buckets : list (Z * Z))
    (best_size_bucket : option (Z * Z)) (best_ar_diff : option Q)
  : result (option (Z * Z)) :=
  match size_buckets with
  | [] => Ok best_size_bucket
  | size_bucket :: rest =>
      if (size_bucket.2 =? 0)%Z then Err ZeroDivisionError
      else
        let bucket_ar := (inject_Z size_bucket.1 / inject_Z size_bucket.2)%Q in
        let ar_diff := Qabs (bucket_ar - ar)%Q in
        let closer := match best_ar_diff with
                      | None => true
                      | Some d => negb (Qle_bool d ar_diff)
                      end in
        if closer then closest_from ar rest (Some size_bucket) (Some ar_diff)
        else closest_from ar rest best_size_bucket best_ar_diff
  end.

Definition _find_closest_size_bucket (h : host) (image_file : string)
    (size_buckets : list (Z * Z)) (p : process) : result (option (Z * Z)) * process :=
  match image_files h !! image_file with
  | None =>
      (Ok None, warning ("Image file " +:+ image_file +:+ " could not be opened. Skipping.") p)
  | Some pil_img =>
      let '(width, height) := img_size pil_img in
      if (height =? 0)%Z then (Err ZeroDivisionError, p)
      else (closest_from (inject_Z width / inject_Z height)%Q size_buckets None None, p)
  end.

(** The body of the loop over the sorted files of [path]. *)
Definition scan_file (h : host) (path : string) (entries : list dir_entry)
    (size_buckets : list (Z * Z)) (file : dir_entry)
    (size_bucket_to_filepaths : list ((Z * Z) * list (string * string))) (p : process)
  : result (list ((Z * Z) * list (string * string))) * process :=
  if negb (is_file file) || bool_decide (suffix (entry_name file) = ".txt")
  then (Ok size_bucket_to_filepaths, p)
  else
    let image_file := path +:+ "/" +:+ entry_name file in
    let caption_name := with_suffix (entry_name file) ".txt" in
    let caption_file := path +:+ "/" +:+ caption_name in
    if negb (bool_decide (caption_name ∈ map entry_name entries))
    then (Ok size_bucket_to_filepaths,
          warning ("Image file " +:+ image_file
                   +:+ " does not have corresponding caption file. Skipping.") p)
    else
      match _find_closest_size_bucket h image_file size_buckets p with
      | (Err e, p) => (Err e, p)
      | (Ok None, p) => (Ok size_bucket_to_filepaths, p)
      | (Ok (Some size_bucket), p) =>
          (Ok (dict_append size_bucket (image_file, caption_file) size_bucket_to_filepaths), p)
      end.

Fixpoint scan_files (h : host) (path : string) (entries : list dir_entry)
    (size_buckets : list (Z * Z)) (files : list dir_entry)
    (acc : list ((Z * Z) * list (string * string))) (p : process)
  : result (list ((Z * Z) * list (string * string))) * process :=
  match files with
  | [] => (Ok acc, p)
  | file :: files' =>
      match scan_file h path entries size_buckets file acc p with
      | (Err e, p) => (Err e, p)
      | (Ok acc, p) => scan_files h path entries size_buckets files' acc p
      end
  end.

Definition _split_into_size_buckets (h : host) (path : string)
    (size_buckets : list (Z * Z)) (p : process)
  : result (list ((Z * Z) * list (string * string))) * process :=
  match directories h !! path with
  | None => (Err RuntimeError, p)                    (* Invalid path *)
  | Some entries =>
      let files := sort_entries entries in
      scan_files h path entries size_buckets files [] p
  end.

(** [for size_bucket, filepaths in ...items(): d[size_bucket].append(SizeBucketDataset(...))] *)
Fixpoint add_datasets (h : host) (directory_config : directory_config)
    (items : list ((Z * Z) * list (string * string)))
    (datasets_by_size_bucket : list ((Z * Z) * list SizeBucketDataset.t)) (p : process)
  : result (list ((Z * Z) * list SizeBucketDataset.t)) * process :=
  match items with
  | [] => (Ok datasets_by_size_bucket, p)
  | (size_bucket, filepaths) :: items' =>
      match SizeBucketDataset.__init__ h filepaths directory_config size_bucket p with
      | (Err e, p) => (Err e, p)
      | (Ok ds, p) =>
          add_datasets h directory_config items'
            (dict_append size_bucket ds datasets_by_size_bucket) p
      end
  end.

(** [for directory_config in dataset_config['directory']: ...] *)
Fixpoint scan_directories (h : host) (size_buckets : list (Z * Z))
    (directory : list directory_config)
    (datasets_by_size_bucket : list ((Z * Z) * list SizeBucketDataset.t)) (p : process)
  : result (list ((Z * Z) * list SizeBucketDataset.t)) * process :=
  match directory with
  | [] => (Ok datasets_by_size_bucket, p)
  | directory_config :: directory' =>
      match _split_into_size_buckets h (path directory_config) size_buckets p with
      | (Err e, p) => (Err e, p)
      | (Ok size_bucket_to_filepaths, p) =>
          match add_datasets h directory_config size_bucket_to_filepaths
                  datasets_by_size_bucket p with
          | (Err e, p) => (Err e, p)
          | (Ok d, p) => scan_directories h size_buckets directory' d p
          end
      end
  end.

(** [for datasets in d.values(): self.buckets.append(ConcatenatedDataset(datasets))] *)
Fixpoint make_buckets (h : host) (values : list (list SizeBucketDataset.t)) (p : process)
  : list ConcatenatedDataset.t * process :=
  match values with
  | [] => ([], p)
  | datasets :: values' =>
      let '(b, p) := ConcatenatedDataset.__init__ h datasets p in
      let '(bs, p) := make_buckets h values' p in
      (b :: bs, p)
  end.

(** The constructor, from the point where [size_buckets] is the list made
    of the configured resolutions. *)
Definition __init__ (h : host) (size_buckets : list (Z * Z))
    (directory : list directory_config) (p : process) : result t * process :=
  match scan_directories h size_buckets directory [] p with
  | (Err e, p) => (Err e, p)
  | (Ok datasets_by_size_bucket, p) =>
      let '(buckets, p) := make_buckets h (map snd datasets_by_size_bucket) p in
      (Ok {| buckets := buckets;
             post_init_called := false;
             data_parallel_rank := 0;
             data_parallel_world_size := 0;
             batch_size := 0;
             global_batch_size := 0;
             iteration_order := [] |}, p)
  end.

(** [for ds in self.buckets: ds._make_divisible_by(n)] *)
Fixpoint trim_buckets (h : host) (n : nat) (bs : list ConcatenatedDataset.t) (p : process)
  : result (list ConcatenatedDataset.t) * process :=
  match bs with
  | [] => (Ok [], p)
  | ds :: bs' =>
      match ConcatenatedDataset._make_divisible_by h n ds p with
      | (Err e, p) => (Err e, p)
      | (Ok ds', p) =>
          match trim_buckets h n bs' p with
          | (Err e, p) => (Err e, p)
          | (Ok bs'', p) => (Ok (ds' :: bs''), p)
          end
      end
  end.

(** [for i, bucket in enumerate(buckets): order.extend([i]*(len(bucket) // n))] *)
Definition selection_by_batches (n : nat) (bs : list ConcatenatedDataset.t) : list nat :=
  concat (imap (fun i bucket => replicate (ConcatenatedDataset.__len__ bucket / n) i) bs).

Definition _make_divisible_by (h : host) (n : nat) (self : t) (p : process)
  : result t * process :=
  match trim_buckets h n (buckets self) p with
  | (Err e, p) => (Err e, p)
  | (Ok bs, p) =>
      match n, bs with
      | 0, _ :: _ => (Err ZeroDivisionError, p)
      | _, _ =>
          let '(iteration_order, s) :=
            shuffle_with_seed (selection_by_batches n bs) (Some 0%Z) (urandom h) (rng p) in
          (Ok {| buckets := bs;
                 post_init_called := post_init_called self;
                 data_parallel_rank := data_parallel_rank self;
                 data_parallel_world_size := data_parallel_world_size self;
                 batch_size := batch_size self;
                 global_batch_size := global_batch_size self;
                 iteration_order := iteration_order |}, set_rng s p)
      end
  end.

(** [post_init]: the object is given when the call returns; when it
    raises, the object is as [post_init_raised] below says. *)
Definition post_init (h : host) (data_parallel_rank data_parallel_world_size
    per_device_batch_size gradient_accumulation_steps : nat) (self : t) (p : process)
  : result t * process :=
  let batch_size := per_device_batch_size * gradient_accumulation_steps in
  let global_batch_size := data_parallel_world_size * batch_size in
  let self := {| buckets := buckets self;
                 post_init_called := post_init_called self;
                 data_parallel_rank := data_parallel_rank;
                 data_parallel_world_size := data_parallel_world_size;
                 batch_size := batch_size;
                 global_batch_size := global_batch_size;
                 iteration_order := iteration_order self |} in
  match _make_divisible_by h global_batch_size self p with
  | (Err e, p) => (Err e, p)
  | (Ok self, p) =>
      (Ok {| buckets := buckets self;
             post_init_called := true;
             data_parallel_rank := Dataset.data_parallel_rank self;
             data_parallel_world_size := Dataset.data_parallel_world_size self;
             batch_size := Dataset.batch_size self;
             global_batch_size := Dataset.global_batch_size self;
             iteration_order := iteration_order self |}, p)
  end.

(** The methods above give the object only when they return.  When they
    raise, the object is left as follows.

    The buckets when the loop over them raises: those before the one that
    raises are trimmed, that one is as its own call leaves it, the rest
    are untouched. *)
Fixpoint trim_buckets_raised (h : host) (n : nat) (bs : list ConcatenatedDataset.t)
    (p : process) : list ConcatenatedDataset.t :=
  match bs with
  | [] => []
  | ds :: bs' =>
      match ConcatenatedDataset._make_divisible_by h n ds p with
      | (Err _, _) => ConcatenatedDataset._make_divisible_by_raised n ds :: bs'
      | (Ok ds', p) => ds' :: trim_buckets_raised h n bs' p
      end
  end.

(** [self] when [_make_divisible_by] raises: in the loop over the
    buckets, or after it at [len(bucket) // n]; [iteration_order] is not
    assigned. *)
Definition _make_divisible_by_raised (h : host) (n : nat) (self : t) (p : process) : t :=
  {| buckets := match trim_buckets h n (buckets self) p with
                | (Err _, _) => trim_buckets_raised h n (buckets self) p
                | (Ok bs, _) => bs
                end;
     post_init_called := post_init_called self;
     data_parallel_rank := data_parallel_rank self;
     data_parallel_world_size := data_parallel_world_size self;
     batch_size := batch_size self;
     global_batch_size := global_batch_size self;
     iteration_order := iteration_order self |}.

(** [self] when [post_init] raises: the four attributes are assigned
    before [_make_divisible_by] is called, [post_init_called] is not set. *)
Definition post_init_raised (h : host) (data_parallel_rank data_parallel_world_size
    per_device_batch_size gradient_accumulation_steps : nat) (self : t) (p : process) : t :=
  let batch_size := per_device_batch_size * gradient_accumulation_steps in
  let global_batch_size := data_parallel_world_size * batch_size in
  let self := {| buckets := buckets self;
                 post_init_called := post_init_called self;
                 data_parallel_rank := data_parallel_rank;
                 data_parallel_world_size := data_parallel_world_size;
                 batch_size := batch_size;
                 global_batch_size := global_batch_size;
                 iteration_order := iteration_order self |} in
  _make_divisible_by_raised h global_batch_size self p.

Definition __len__ (self : t) : result nat :=
  if post_init_called self then Ok (length (iteration_order self))
  else Err AssertionError.

Definition _collate (examples : list (list tensor)) : result (list tensor) :=
  for_each torch_stack (zip_star examples).

(** The loop body of [__iter__] once the examples are pulled. *)
Definition batch_for_rank (self : t) (examples : list (list tensor)) : result (list tensor) :=
  batch ←! _collate examples;;
  let start_idx := data_parallel_rank self * batch_size self in
  batch_for_this_dp_rank ←!
    for_each (fun x => tensor_slice x start_idx (start_idx + batch_size self)) batch;;
  Ok (prepare_inputs batch_for_this_dp_rank).

Fixpoint iter_from (self : t) (iterators : list (trace (list tensor))) (order : list nat)
  : trace (list tensor) :=
  match order with
  | [] => Stop
  | i :: order' =>
      match iterators !! i with
      | None => Raise IndexError
      | Some iterator =>
          match next_n (global_batch_size self) iterator with
          | (Err e, _) => Raise (inner_exn e)
          | (Ok examples, iterator') =>
              match batch_for_rank self examples with
              | Err e => Raise e
              | Ok b => Yield b (iter_from self (<[i := iterator']> iterators) order')
              end
          end
      end
  end.

Definition __iter__ (self : t) : trace (list tensor) :=
  if post_init_called self then
    iter_from self (map ConcatenatedDataset.__iter__ (buckets self)) (iteration_order self)
  else Raise AssertionError.

End methods.
End Dataset.

(* ===================================================================== *)
(** * The size buckets of a configuration *)

(** The keys of the dataset configuration that decide the size buckets;
    a key that is absent reads as [None]. *)
Record bucket_config := {
  resolution : Z;
  enable_bucket : bool;
  min_bucket_reso : option Z;
  max_bucket_reso : option Z;
  bucket_reso_steps : option Z
}.

(** The [while] loop at the head of [Dataset.__init__].  [fuel] bounds
    the number of turns; the answer is [None] when it does not suffice.
    Comparing or adding [None] raises [TypeError]. *)
Fixpoint size_bucket_loop (fuel : nat) (c : bucket_config) (side1 side2 : Z)
    (size_buckets : gset (Z * Z)) : option (result (gset (Z * Z))) :=
  match max_bucket_reso c with
  | None => Some (Err TypeError)
  | Some max =>
      if negb (side1 <=? max)%Z then Some (Ok size_buckets)
      else
        match min_bucket_reso c with
        | None => Some (Err TypeError)
        | Some min =>
            if negb (side2 >=? min)%Z then Some (Ok size_buckets)
            else
              let size_buckets := {[ (side2, side1) ]} ∪ ({[ (side1, side2) ]} ∪ size_buckets) in
              match bucket_reso_steps c with
              | None => Some (Err TypeError)
              | Some step =>
                  match fuel with
                  | 0 => None
                  | S fuel' =>
                      size_bucket_loop fuel' c (side1 + step)%Z (side2 - step)%Z size_buckets
                  end
              end
        end
  end.

(** The set [size_buckets] the constructor ends up with. *)
Definition configured_size_buckets (fuel : nat) (c : bucket_config)
  : option (result (gset (Z * Z))) :=
  let res := resolution c in
  if enable_bucket c then size_bucket_loop fuel c res res ∅
  else Some (Ok {[ (res, res) ]}).

(* ===================================================================== *)
(** * class DatasetManager *)

Module DatasetManager.

(** The manager holds the very dataset objects the buckets hold; here it
    holds them by value, and [_cache] returns them as caching leaves
    them. *)
Record t := {
  datasets : list SizeBucketDataset.t
}.

Section methods.
Context `{G : Generator} `{P : PIL} `{M : @Model P} `{D : Datasets}.

Definition __init__ : t := {| datasets := [] |}.

(** [for bucket in dataset.buckets: for ds in bucket.datasets: append] *)
Definition register (dataset : Dataset.t) (self : t) : t :=
  {| datasets :=
       foldl (fun acc bucket =>
                foldl (fun acc ds => acc ++ [ds]) acc (ConcatenatedDataset.datasets bucket))
             (datasets self) (Dataset.buckets dataset) |}.





End methods.
End DatasetManager.

(* ===================================================================== *)
(** * split_batch and class PipelineDataLoader *)

(** The chunks of [torch.split]: [k] rows each, a shorter last one. *)
Fixpoint chunks {A} (fuel k : nat) (l : list A) : list (list A) :=
  match fuel with
  | 0 => []
  | S fuel' =>
      match l with
      | [] => []
      | _ => take k l :: chunks fuel' k (drop k l)
      end
  end.

(** [torch.split(tensor, split_size)]: at least one chunk; a chunk size of
    0 is accepted only for a tensor without rows. *)
Definition torch_split (x : tensor) (split_size : nat) : result (list tensor) :=
  match x with
  | Scalar _ => Err IndexError
  | Rows [] => Ok [Rows []]
  | Rows rows =>
      if split_size =? 0 then Err RuntimeError
      else Ok (map Rows (chunks (length rows) split_size rows))
  end.

(** A microbatch: the features and the label, which is always [None]. *)
Abbreviation microbatch := (list tensor * option tensor)%type.

Definition split_batch (batch : list tensor) (pieces : nat) : result (list microbatch) :=
  let example_tuple := batch in
  first ←! of_option (example_tuple !! 0) IndexError;;
  n ←! size0 first;;
  match pieces with
  | 0 => Err ZeroDivisionError
  | _ =>
      let split_size := n / pieces in
      splits ←! for_each (fun x => torch_split x split_size) example_tuple;;
      let split_examples := zip_star splits in
      Ok (map (fun ex => (ex, None)) split_examples)
  end.

Module PipelineDataLoader.
Section with_dataset.
(** The loader takes any object that can be iterated again and again. *)
Context {DS : Type} (iter : DS → trace (list tensor)).

(** [dataloader] is the iterator over [self.dataloader] that the generator
    [self.data] holds, [pending] the microbatches of the batch the
    generator is in. *)
Record t := {
  dataset : DS;
  gradient_accumulation_steps : nat;
  epoch : nat;
  num_batches_pulled : nat;
  dataloader : trace (list tensor);
  pending : list microbatch
}.

Definition _create_dataloader (self : t) : t :=
  {| dataset := dataset self;
     gradient_accumulation_steps := gradient_accumulation_steps self;
     epoch := epoch self;
     num_batches_pulled := 0;
     dataloader := iter (dataset self);
     pending := [] |}.

Definition reset (self : t) : t :=
  _create_dataloader
    {| dataset := dataset self;
       gradient_accumulation_steps := gradient_accumulation_steps self;
       epoch := 1;
       num_batches_pulled := 0;
       dataloader := dataloader self;
       pending := pending self |}.

Definition __init__ (dataset : DS) (gradient_accumulation_steps : nat) : t :=
  reset {| dataset := dataset;
           gradient_accumulation_steps := gradient_accumulation_steps;
           epoch := 0; num_batches_pulled := 0; dataloader := Stop; pending := [] |}.

(** Resuming [_pull_batches_from_dataloader] at its outer loop. *)
Fixpoint pull (pieces : nat) (rest : trace (list tensor)) (pulled : nat)
  : result microbatch * (trace (list tensor) * list microbatch * nat) :=
  match rest with
  | Stop => (Err StopIteration, (Stop, [], pulled))
  | Raise e => (Err e, (Stop, [], pulled))
  | Yield batch rest' =>
      match split_batch batch pieces with
      | Err e => (Err e, (Stop, [], S pulled))
      | Ok [] => pull pieces rest' (S pulled)
      | Ok (micro_batch :: more) => (Ok micro_batch, (rest', more, S pulled))
      end
  end.

(** [next(self.data)] *)
Definition next_data (self : t) : result microbatch * t :=
  match pending self with
  | micro_batch :: more =>
      (Ok micro_batch,
       {| dataset := dataset self;
          gradient_accumulation_steps := gradient_accumulation_steps self;
          epoch := epoch self;
          num_batches_pulled := num_batches_pulled self;
          dataloader := dataloader self;
          pending := more |})
  | [] =>
      let '(r, (rest, more, pulled)) :=
        pull (gradient_accumulation_steps self) (dataloader self) (num_batches_pulled self) in
      (r,
       {| dataset := dataset self;
          gradient_accumulation_steps := gradient_accumulation_steps self;
          epoch := epoch self;
          num_batches_pulled := pulled;
          dataloader := rest;
          pending := more |})
  end.

Definition __next__ (self : t) : result microbatch * t :=
  match next_data self with
  | (Err StopIteration, self) =>
      let self := _create_dataloader self in
      match next_data self with
      | (Err e, self) => (Err e, self)
      | (Ok micro_batch, self) =>
          (Ok micro_batch,
           {| dataset := dataset self;
              gradient_accumulation_steps := gradient_accumulation_steps self;
              epoch := epoch self + 1;
              num_batches_pulled := num_batches_pulled self;
              dataloader := dataloader self;
              pending := pending self |})
      end
  | (r, self) => (r, self)
  end.

(** [n] calls of [__next__] in a row; stops at the first that raises. *)
Fixpoint next_many (n : nat) (self : t) : list (result microbatch * nat) * t :=
  match n with
  | 0 => ([], self)
  | S n' =>
      let '(r, self) := __next__ self in
      match r with
      | Err _ => ([(r, epoch self)], self)
      | Ok _ =>
          let '(l, self') := next_many n' self in
          ((r, epoch self) :: l, self')
      end
  end.

(** [len(self.dataset) * self.gradient_accumulation_steps], for a dataset
    whose [__len__] is [len]. *)
Definition __len__ (len : DS → result nat) (self : t) : result nat :=
  n ←! len (dataset self);;
  Ok (n * gradient_accumulation_steps self).

(** [sync_epoch]: [all_gather_object] fills [result] with the epoch of
    every process, this one's at its own rank; [before] and [after] are
    the epochs of the ranks below and above. *)
Definition sync_epoch (before after : list nat) (self : t) : t :=
  let result := before ++ [epoch self] ++ after in
  let max_epoch := foldl (fun max_epoch epoch => Z.max (Z.of_nat epoch) max_epoch) (-1)%Z result in
  {| dataset := dataset self;
     gradient_accumulation_steps := gradient_accumulation_steps self;
     epoch := Z.to_nat max_epoch;
     num_batches_pulled := num_batches_pulled self;
     dataloader := dataloader self;
     pending := pending self |}.

End with_dataset.
End PipelineDataLoader.

(* ===================================================================== *)
(** * A concrete generator *)

(** A linear congruential generator: a small instance of [Generator] on
    which the functions above can be run. *)
Definition lcg_next (s : N) : N := ((s * 1103515245 + 12345) mod 2147483648)%N.

Definition lcg_randbelow (n : nat) (s : N) : nat * N :=
  (N.to_nat ((s / 65536) mod N.of_nat n)%N, lcg_next s).

#[export] Instance lcg : Generator.
Proof.
  refine {| gen_state := N;
            seed_state := fun z => Z.to_N (Z.abs z);
            randbelow := lcg_randbelow;
            randbelow_lt := _ |}.
  abstract (intros n s Hn; unfold lcg_randbelow; simpl;
            assert (((s / 65536) mod N.of_nat n) < N.of_nat n)%N by (apply N.mod_lt; lia);
            lia).
Defined.

(* ===================================================================== *)
(** * Small concrete collaborators

    Instances on which the embedded code can be run: images are their
    sizes, latents and embeddings are one row of numbers, the model hands
    its inputs on unchanged, and fingerprints spell out what was hashed. *)

#[export] Instance toy_pil : PIL := {|
  pil_image := Z * Z;
  img_size := fun i => i;
  img_mode := fun _ => "RGB";
  has_transparency := fun _ => false;
  convert := fun _ i => i;
  on_white_canvas := fun i => i;
  ImageOps_fit := fun _ size => size
|}.

#[export] Instance toy_model : Model := {|
  vae := unit;
  get_vae := tt;
  vae_encode := fun _ i => Rows [Rows [Scalar i.1; Scalar i.2]];
  get_text_embedding := fun i caption =>
    Rows [Rows [Scalar (Z.of_nat i); Scalar (Z.of_nat (String.length caption))]];
  num_text_encoders := 1;
  prepare_inputs := fun batch => batch
|}.

Definition show_fp_arg (a : fp_arg) : string :=
  match a with
  | ArgInt i => "i" +:+ pretty i
  | ArgStr s => "s" +:+ s
  end.

#[export] Instance toy_datasets : Datasets := {|
  Hasher_hash := fun args => join "_" (map show_fp_arg args);
  from_dict_fingerprint := fun rows => "rows" +:+ pretty (length rows);
  map_fingerprint := fun fp shuffle_tags caption_prefix =>
    fp +:+ (if shuffle_tags then "T" else "F") +:+ caption_prefix
|}.

Definition toy_host : host := {|
  directories := ∅;
  text_files := ∅;
  image_files := ∅;
  is_main_process := true;
  urandom := 0
|}.

Definition toy_process : process := {|
  rng := 7%N;
  default_new_fingerprint_args := [];
  cache := ∅;
  logged := []
|}.

(** A bucket dataset of [k] samples whose columns are all in place. *)
Definition toy_rows (k : nat) (column : string) : list example :=
  map (fun i => ({[ column := VTensor (Rows [Scalar (Z.of_nat i)]) ]} : example)) (seq 0 k).

Definition toy_bucket_dataset (k : nat) : SizeBucketDataset.t := {|
  SizeBucketDataset.filepaths := [];
  SizeBucketDataset.config :=
    {| path := "d"; cfg_shuffle_tags := Some false; cfg_caption_prefix := Some "" |};
  SizeBucketDataset.size_bucket := (512, 512)%Z;
  SizeBucketDataset.cache_dir := "d/cache/cache_512x512";
  SizeBucketDataset.image_file_and_caption_dataset :=
    {| rows := toy_rows k "caption"; _fingerprint := "fp" |};
  SizeBucketDataset.latent_dataset :=
    Some {| rows := toy_rows k "latents"; _fingerprint := "lat" |};
  SizeBucketDataset.text_embedding_datasets :=
    [{| rows := toy_rows k "text_embedding"; _fingerprint := "te" |}]
|}.

(** A bucket over one dataset of [k] samples, built by the constructor. *)
Definition toy_bucket (k : nat) : ConcatenatedDataset.t :=
  (ConcatenatedDataset.__init__ toy_host [toy_bucket_dataset k] toy_process).1.

(** A dataset over two buckets, of 7 and of 2 samples, before [post_init]. *)
Definition toy_dataset : Dataset.t := {|
  Dataset.buckets := [toy_bucket 7; toy_bucket 2];
  Dataset.post_init_called := false;
  Dataset.data_parallel_rank := 0;
  Dataset.data_parallel_world_size := 0;
  Dataset.batch_size := 0;
  Dataset.global_batch_size := 0;
  Dataset.iteration_order := []
|}.

(** A directory [d] with two captioned images, one image without a
    caption, one captioned file that is not an image, and a stray text
    file; and the bucket dataset the constructor makes of the two good
    samples. *)
Definition demo_host : host := {|
  directories :=
    {[ "d" := [ {| entry_name := "b.png"; is_file := true |};
                {| entry_name := "a.txt"; is_file := true |};
                {| entry_name := "a.png"; is_file := true |};
                {| entry_name := "b.txt"; is_file := true |};
                {| entry_name := "c.png"; is_file := true |};
                {| entry_name := "e.bin"; is_file := true |};
                {| entry_name := "e.txt"; is_file := true |};
                {| entry_name := "cache"; is_file := false |} ] ]};
  text_files := {[ "d/a.txt" := " cat, on a mat ,grey
"; "d/b.txt" := "dog"; "d/e.txt" := "nothing" ]};
  image_files := {[ "d/a.png" := (700, 500)%Z; "d/b.png" := (512, 512)%Z;
                    "d/c.png" := (640, 480)%Z ]};
  is_main_process := true;
  urandom := 0
|}.

Definition demo_filepaths : list (string * string) :=
  [("d/a.png", "d/a.txt"); ("d/b.png", "d/b.txt")].

Definition demo_config : directory_config :=
  {| path := "d"; cfg_shuffle_tags := None; cfg_caption_prefix := None |}.

Definition demo_bucket_dataset : SizeBucketDataset.t :=
  match (SizeBucketDataset.__init__ demo_host demo_filepaths demo_config (512, 512)%Z
           toy_process).1 with
  | Ok ds => ds
  | Err _ => toy_bucket_dataset 0
  end.

Definition demo_process : process :=
  (SizeBucketDataset.__init__ demo_host demo_filepaths demo_config (512, 512)%Z toy_process).2.

(** The same directory later, when [b.png] can no longer be opened. *)
Definition demo_host_later : host := {|
  directories := directories demo_host;
  text_files := text_files demo_host;
  image_files := {[ "d/a.png" := (700, 500)%Z ]};
  is_main_process := true;
  urandom := 0
|}.

(** The latents of the demo bucket cached once, and once more. *)
Definition demo_cached_once : result SizeBucketDataset.t * process :=
  SizeBucketDataset._cache_latents demo_host demo_bucket_dataset get_vae demo_process.

Definition demo_process_1 : process := demo_cached_once.2.

Definition demo_cached_twice : result SizeBucketDataset.t * process :=
  SizeBucketDataset._cache_latents demo_host demo_bucket_dataset get_vae demo_process_1.

(** The text embeddings of encoder 0 of the demo bucket cached once. *)
Definition demo_embedded_once : result SizeBucketDataset.t * process :=
  SizeBucketDataset._cache_text_embedding demo_bucket_dataset 0 demo_process.



(** A loader in its fourth epoch, over a dataset that is of no concern. *)
Definition demo_loader : @PipelineDataLoader.t unit := {|
  PipelineDataLoader.dataset := tt;
  PipelineDataLoader.gradient_accumulation_steps := 1;
  PipelineDataLoader.epoch := 4;
  PipelineDataLoader.num_batches_pulled := 0;
  PipelineDataLoader.dataloader := Stop;
  PipelineDataLoader.pending := []
|}.

(** The row of the demo directory's second sample before its caption is
    read. *)
Definition demo_row : example :=
  {[ "image_file" := VStr "d/b.png"; "caption_file" := VStr "d/b.txt" ]}.

(** The scan of the demo directory for the one bucket 512 x 512. *)
Definition demo_scan : result (list ((Z * Z) * list (string * string))) * process :=
  Dataset._split_into_size_buckets demo_host "d" [(512, 512)%Z] toy_process.

(** The dataset the constructor makes of the demo directory. *)
Definition demo_dataset_init : result Dataset.t * process :=
  Dataset.__init__ demo_host [(512, 512)%Z] [demo_config] toy_process.

(** A dataset that is the list of its batches, and its length. *)
Definition list_len (batches : list (list tensor)) : result nat := Ok (length batches).

Definition demo_batches : list (list tensor) :=
  [[Rows [Scalar 1; Scalar 2]]; [Rows [Scalar 3; Scalar 4]]].

(** A host that differs from [h] in the listing of one directory only. *)
Definition with_listing `{PIL} (h : host) (dir : string) (entries : list dir_entry) : host := {|
  directories := <[dir := entries]> (directories h);
  text_files := text_files h;
  image_files := image_files h;
  is_main_process := is_main_process h;
  urandom := urandom h
|}.

(** The entries of the demo directory. *)
Definition demo_entries : list dir_entry := default [] (directories demo_host !! "d").

(** The demo process with old files of three kinds in the cache
    directory of the demo bucket, and the text embeddings of encoder 0
    cached in that state. *)
Definition demo_process_stale : process :=
  set_cache (<[SizeBucketDataset.cache_dir demo_bucket_dataset :=
                 {[ "latent_old.arrow" := [];
                    "text_embedding_1_old.arrow" := [];
                    "text_embedding_2_old.arrow" := [] ]}]> (cache demo_process))
            demo_process.

Definition demo_embedded_over_stale : result SizeBucketDataset.t * process :=
  SizeBucketDataset._cache_text_embedding demo_bucket_dataset 0 demo_process_stale.

(** The latents cached in that state. *)
Definition demo_latents_over_stale : result SizeBucketDataset.t * process :=
  SizeBucketDataset._cache_latents demo_host demo_bucket_dataset get_vae demo_process_stale.

(* ===================================================================== *)
(** * Notions used in the statements *)

Section statement_notions.
Context `{G : Generator} `{P : PIL} `{M : @Model P} `{D : Datasets}.

(** A transform that leaves the cache directories and the default list of
    [_map_and_cache] alone; both transforms of the file do. *)
Definition keeps_cache (fn : example → process → result (option example) * process) : Prop :=
  ∀ ex q, cache (fn ex q).2 = cache q ∧
          default_new_fingerprint_args (fn ex q).2 = default_new_fingerprint_args q.

(** The list [_map_and_cache] hands to [Hasher.hash]. *)
Definition fingerprint_args (new_fingerprint_args : option (list fp_arg))
    (dataset : HFDataset) (p : process) : list fp_arg :=
  match new_fingerprint_args with
  | Some l => l ++ [ArgStr (_fingerprint dataset)]
  | None => default_new_fingerprint_args p ++ [ArgStr (_fingerprint dataset)]
  end.

(** The process state in which [_map_and_cache] starts the transform when
    there is no cache file for the fingerprint. *)
Definition after_unlink (self : SizeBucketDataset.t) (dataset : HFDataset)
    (cache_file_prefix : string) (new_fingerprint_args : option (list fp_arg))
    (p : process) : process :=
  let p0 := match new_fingerprint_args with
            | Some _ => p
            | None => set_default_new_fingerprint_args
                        (fingerprint_args None dataset p) p
            end in
  let p0 := info "Dataset fingerprint changed, removing existing cache file and regenerating" p0 in
  set_cache (unlink_matching (SizeBucketDataset.cache_dir self) cache_file_prefix (cache p0)) p0.

(** What a file must have to be put into a bucket. *)
Definition accepted (h : host) (path : string) (entries : list dir_entry)
    (file : dir_entry) (pr : string * string) : Prop :=
  pr = (path +:+ "/" +:+ entry_name file,
        path +:+ "/" +:+ with_suffix (entry_name file) ".txt") ∧
  is_file file = true ∧
  suffix (entry_name file) ≠ ".txt" ∧
  with_suffix (entry_name file) ".txt" ∈ map entry_name entries ∧
  is_Some (image_files h !! (path +:+ "/" +:+ entry_name file)).

End statement_notions.

(** At most one file of the directory matches [prefix*.arrow]. *)
Definition at_most_one_generation (prefix : string) (files : gmap string (list example)) : Prop :=
  ∀ n1 n2, glob_match prefix n1 = true → glob_match prefix n2 = true →
           is_Some (files !! n1) → is_Some (files !! n2) → n1 = n2.

(** The pair [pr] is in some bucket of [m]. *)
Definition listed (m : list ((Z * Z) * list (string * string))) (pr : string * string) : Prop :=
  ∃ sb fps, (sb, fps) ∈ m ∧ pr ∈ fps.

(** [pass_rest g it l]: resumed until it ends, the iterator [it] over the
    data loader gives batches that [split_batch] cuts into the microbatches
    [l], in this order, and then stops. *)
Inductive pass_rest (g : nat) : trace (list tensor) → list microbatch → Prop :=
  | pass_stop : pass_rest g Stop []
  | pass_yield batch rest ms l :
      split_batch batch g = Ok ms →
      pass_rest g rest l →
      pass_rest g (Yield batch rest) (ms ++ l).

(** The microbatches the generator [self.data] still has to give. *)
Definition loader_rem {DS : Type} (self : @PipelineDataLoader.t DS) (l : list microbatch) : Prop :=
  ∃ l2, pass_rest (PipelineDataLoader.gradient_accumulation_steps self)
          (PipelineDataLoader.dataloader self) l2 ∧
        PipelineDataLoader.pending self ++ l2 = l.

Definition same_loader {DS : Type} (self self' : @PipelineDataLoader.t DS) : Prop :=
  PipelineDataLoader.dataset self' = PipelineDataLoader.dataset self ∧
  PipelineDataLoader.gradient_accumulation_steps self' =
    PipelineDataLoader.gradient_accumulation_steps self.

(** Every tensor of the batch has [b * g] rows along its leading
    dimension, and there is at least one tensor. *)
Definition even_batch (b g : nat) (batch : list tensor) : Prop :=
  batch ≠ [] ∧ Forall (fun t => ∃ rows, t = Rows rows ∧ length rows = b * g) batch.

(** How often [i] occurs in [l]. *)
Definition occ (i : nat) (l : list nat) : nat := length (filter (fun x => x = i) l).

(** The samples of a bucket dataset, when every index below its length
    can be read. *)
Definition samples_of (ds : SizeBucketDataset.t) (l : list (list tensor)) : Prop :=
  for_each (SizeBucketDataset.__getitem__ ds) (seq 0 (SizeBucketDataset.__len__ ds)) = Ok l.




(** The rows of a tensor along its leading dimension. *)
Definition rows_of (t : tensor) : list tensor :=
  match t with
  | Rows rows => rows
  | Scalar _ => []
  end.

(** The rows that tensor [j] of a batch has in the microbatches, put
    together again in the order of the microbatches. *)
Definition rejoined (ms : list microbatch) (j : nat) : list tensor :=
  concat (map (fun m : microbatch => rows_of (default (Rows []) (m.1 !! j))) ms).

(** What [process_caption_fn] makes of the text of a caption file: with
    [shuffle_tags] the stripped tags in some order, joined again; without,
    the stripped text; the prefix in front in both cases. *)
Definition caption_from (shuffle_tags : bool) (caption_prefix text caption : string) : Prop :=
  if shuffle_tags
  then ∃ tags, tags ≡ₚ map strip (split "," (strip text)) ∧
               caption = caption_prefix +:+ join ", " tags
  else caption = caption_prefix +:+ strip text.

(** The row [Dataset.from_dict] makes of a pair of file names. *)
Definition file_row (pr : string * string) : example :=
  {[ "image_file" := VStr pr.1; "caption_file" := VStr pr.2 ]}.

(** The glob prefix of the cache files of text encoder [i]. *)
Definition text_embedding_prefix (i : nat) : string :=
  "text_embedding_" +:+ pretty (i + 1) +:+ "_".


(** The test a file of a directory has to pass to be put into a bucket,
    as a boolean, and the pair of names it is listed under. *)
Definition acceptedb `{PIL} (h : host) (path : string) (entries : list dir_entry)
    (file : dir_entry) : bool :=
  is_file file
  && negb (bool_decide (suffix (entry_name file) = ".txt"))
  && bool_decide (with_suffix (entry_name file) ".txt" ∈ map entry_name entries)
  && bool_decide (is_Some (image_files h !! (path +:+ "/" +:+ entry_name file))).

Definition file_pair (path : string) (file : dir_entry) : string * string :=
  (path +:+ "/" +:+ entry_name file, path +:+ "/" +:+ with_suffix (entry_name file) ".txt").

(** The warning the scan of [dir] logs for a file it passes over, if it
    logs one: for an image candidate without its caption file, and for
    one that has it but cannot be opened. *)
Definition skip_warning `{PIL} (h : host) (dir : string) (entries : list dir_entry)
    (file : dir_entry) : option string :=
  if negb (is_file file) || bool_decide (suffix (entry_name file) = ".txt") then None
  else if negb (bool_decide (with_suffix (entry_name file) ".txt" ∈ map entry_name entries))
  then Some ("Image file " +:+ (dir +:+ "/" +:+ entry_name file)
             +:+ " does not have corresponding caption file. Skipping.")
  else match image_files h !! (dir +:+ "/" +:+ entry_name file) with
       | None => Some ("Image file " +:+ (dir +:+ "/" +:+ entry_name file)
                       +:+ " could not be opened. Skipping.")
       | Some _ => None
       end.

(** The log records of the warnings for the files of a listing. *)
Definition skip_warnings `{PIL} (h : host) (dir : string) (entries files : list dir_entry)
  : log :=
  map (fun m => {| lvl := WARNING; msg := m |}) (omap (skip_warning h dir entries) files).

(* ===================================================================== *)
(** * Properties of the shuffle *)

Section shuffle_facts.
Context `{G : Generator}.

Lemma insert_cons_perm {A} (xs : list A) j a b :
  xs !! j = Some b → b :: <[j := a]> xs ≡ₚ a :: xs.
Proof.
  revert j. induction xs as [|x xs IH]; intros [|j] Hj; simplify_eq/=.
  - apply Permutation_swap.
  - etrans; [apply Permutation_swap|].
    etrans; [|apply Permutation_swap].
    f_equiv. by apply IH.
Qed.

Lemma swap_perm {A} (x : list A) i j : random.swap x i j ≡ₚ x.
Proof.
  unfold random.swap.
  revert i j. induction x as [|a0 xs IH]; intros i j; [by destruct i, j|].
  destruct i as [|i], j as [|j]; simpl.
  - done.
  - destruct (xs !! j) as [b|] eqn:Hj; [|done]. simpl.
    by apply insert_cons_perm.
  - destruct (xs !! i) as [a|] eqn:Hi; [|done]. simpl.
    by apply insert_cons_perm.
  - specialize (IH i j).
    destruct (xs !! i) as [a|]; [|done].
    destruct (xs !! j) as [b|]; [|done].
    simpl. by f_equiv.
Qed.

Lemma shuffle_from_perm {A} i (x : list A) s : (random.shuffle_from i x s).1 ≡ₚ x.
Proof.
  revert x s. induction i as [|i IH]; intros x s; simpl; [done|].
  destruct (randbelow (S (S i)) s) as [j s'].
  rewrite IH. apply swap_perm.
Qed.

Lemma shuffle_perm {A} (x : list A) s : (random.shuffle x s).1 ≡ₚ x.
Proof. apply shuffle_from_perm. Qed.

Lemma shuffle_with_seed_fst {A} (l : list A) seed os s :
  (shuffle_with_seed l seed os s).1 = (random.shuffle l (random.seed seed os)).1.
Proof. unfold shuffle_with_seed. by destruct (random.shuffle _ _). Qed.

Lemma shuffle_with_seed_snd {A} (l : list A) seed os s :
  (shuffle_with_seed l seed os s).2 = s.
Proof. unfold shuffle_with_seed. by destruct (random.shuffle _ _). Qed.

Lemma shuffle_with_seed_perm {A} (l : list A) seed os s :
  (shuffle_with_seed l seed os s).1 ≡ₚ l.
Proof. rewrite shuffle_with_seed_fst. apply shuffle_perm. Qed.

(** With an explicit seed the outcome does not depend on the generator
    state or on what the system would have supplied. *)
Lemma shuffle_with_seed_det {A} (l : list A) z os os' s s' :
  (shuffle_with_seed l (Some z) os s).1 = (shuffle_with_seed l (Some z) os' s').1.
Proof. by rewrite !shuffle_with_seed_fst. Qed.

Lemma shuffle_with_seed_eq {A} (l : list A) seed os s :
  shuffle_with_seed l seed os s = ((random.shuffle l (random.seed seed os)).1, s).
Proof. unfold shuffle_with_seed. by destruct (random.shuffle _ _). Qed.

End shuffle_facts.

(** C8: [shuffle_with_seed] leaves the state of the module-level generator
    as it found it, for every list, every seed (also the absent one) and
    every state; with an explicit seed the order it gives to the list is
    fixed by the list and the seed alone, and it is a rearrangement of the
    list. *)
Theorem shuffle_with_seed_restores_state `{G : Generator} {A} (l : list A) :
  (∀ seed os s, (shuffle_with_seed l seed os s).2 = s) ∧
  (∀ z os os' s s',
     (shuffle_with_seed l (Some z) os s).1 = (shuffle_with_seed l (Some z) os' s').1) ∧
  (∀ seed os s, (shuffle_with_seed l seed os s).1 ≡ₚ l).
Proof.
  split; [|split].
  - intros. apply shuffle_with_seed_snd.
  - intros. apply shuffle_with_seed_det.
  - intros. apply shuffle_with_seed_perm.
Qed.

(* ===================================================================== *)
(** * Trimming a bucket *)

Section trimming.
Context `{G : Generator} `{P : PIL}.

Lemma div_mul_le_self (m n : nat) : m / n * n ≤ m.
Proof.
  destruct n as [|n]; [simpl; lia|].
  pose proof (Nat.div_mod_eq m (S n)). lia.
Qed.

Lemma div_mul_idem (m n : nat) : n ≠ 0 → (m / n * n) / n * n = m / n * n.
Proof. intros Hn. by rewrite Nat.div_mul. Qed.

(** What [ConcatenatedDataset._make_divisible_by] does for a positive
    [n], in one equation. *)
Lemma concatenated_trim_eq (h : host) n (self : ConcatenatedDataset.t) (p : process) :
  n ≠ 0 →
  let new_length := ConcatenatedDataset.__len__ self / n * n in
  let self' := {| ConcatenatedDataset.datasets := ConcatenatedDataset.datasets self;
                  ConcatenatedDataset.iteration_order :=
                    take new_length (ConcatenatedDataset.iteration_order self) |} in
  ConcatenatedDataset._make_divisible_by h n self p =
    if (new_length =? 0) && is_main_process h then
      match ConcatenatedDataset.datasets self !! 0 with
      | None => (Err IndexError, p)
      | Some ds0 =>
          (Ok self',
           warning ("size bucket (" +:+ pretty (SizeBucketDataset.size_bucket ds0).1 +:+ ", "
                    +:+ pretty (SizeBucketDataset.size_bucket ds0).2
                    +:+ ") is being completely dropped because it doesn't have enough images") p)
      end
    else (Ok self', p).
Proof. intros Hn. unfold ConcatenatedDataset._make_divisible_by. by destruct n. Qed.

Lemma concatenated_trim_order (h : host) n self (p : process) self' p' :
  ConcatenatedDataset._make_divisible_by h n self p = (Ok self', p') →
  n ≠ 0 ∧
  ConcatenatedDataset.datasets self' = ConcatenatedDataset.datasets self ∧
  ConcatenatedDataset.iteration_order self' =
    take (ConcatenatedDataset.__len__ self / n * n) (ConcatenatedDataset.iteration_order self) ∧
  rng p' = rng p ∧ cache p' = cache p ∧
  default_new_fingerprint_args p' = default_new_fingerprint_args p.
Proof.
  intros H. destruct (decide (n = 0)) as [->|Hn]; [done|].
  rewrite concatenated_trim_eq in H by done.
  destruct (_ && _); [destruct (_ !! 0)|]; by simplify_eq.
Qed.

Lemma concatenated_trim_len (h : host) n self (p : process) self' p' :
  ConcatenatedDataset._make_divisible_by h n self p = (Ok self', p') →
  ConcatenatedDataset.__len__ self' = ConcatenatedDataset.__len__ self / n * n.
Proof.
  intros H. apply concatenated_trim_order in H as (Hn & _ & Ho & _).
  unfold ConcatenatedDataset.__len__ at 1. rewrite Ho, length_take.
  pose proof (div_mul_le_self (ConcatenatedDataset.__len__ self) n) as Hle.
  unfold ConcatenatedDataset.__len__ in *.
  by apply Nat.min_l.
Qed.

(** A second trim finds nothing to remove, whatever the process state. *)
Lemma concatenated_trim_again (h : host) n self (p : process) self' p' (q : process) :
  ConcatenatedDataset._make_divisible_by h n self p = (Ok self', p') →
  ∃ q', ConcatenatedDataset._make_divisible_by h n self' q = (Ok self', q').
Proof.
  intros H.
  pose proof (concatenated_trim_len _ _ _ _ _ _ H) as Hlen.
  pose proof (concatenated_trim_order _ _ _ _ _ _ H) as (Hn & Hd & Ho & _).
  rewrite concatenated_trim_eq in H by done.
  rewrite concatenated_trim_eq by done.
  rewrite Hlen, div_mul_idem by done.
  assert (Hsame : {| ConcatenatedDataset.datasets := ConcatenatedDataset.datasets self';
             ConcatenatedDataset.iteration_order :=
               take (ConcatenatedDataset.__len__ self / n * n)
                    (ConcatenatedDataset.iteration_order self') |} = self').
  { destruct self' as [ds' o']. simpl in *. f_equal.
    apply firstn_all2. unfold ConcatenatedDataset.__len__ in *. simpl in *.
    by rewrite Hlen. }
  rewrite Hsame, Hd.
  destruct (_ && _); [destruct (_ !! 0)|]; simplify_eq; eauto.
Qed.

End trimming.

(** C5 (as the code has it): for a bucket with at least one member dataset
    and every [n >= 1], [_make_divisible_by n] returns normally and keeps
    exactly the first [(len // n) * n] entries of the interleave order, the
    longest prefix whose length is a multiple of [n]: 6 of 7 and 0 of 2 for
    [n = 3].  It touches nothing else but the log, to which it adds one
    warning exactly when the new length is 0 and this is the main process;
    on any other process it adds nothing. *)
Theorem concatenated_trim_spec `{G : Generator} `{P : PIL}
    (h : host) (n : nat) (self : ConcatenatedDataset.t) (p : process) :
  1 ≤ n →
  ConcatenatedDataset.datasets self ≠ [] →
  let len := ConcatenatedDataset.__len__ self in
  ∃ self' p',
    ConcatenatedDataset._make_divisible_by h n self p = (Ok self', p') ∧
    ConcatenatedDataset.datasets self' = ConcatenatedDataset.datasets self ∧
    ConcatenatedDataset.iteration_order self' =
      take (len / n * n) (ConcatenatedDataset.iteration_order self) ∧
    ConcatenatedDataset.__len__ self' = len / n * n ∧
    (∀ m, m ≤ len → (n | m) → m ≤ ConcatenatedDataset.__len__ self') ∧
    (len = 7 → n = 3 → ConcatenatedDataset.__len__ self' = 6) ∧
    (len = 2 → n = 3 → ConcatenatedDataset.__len__ self' = 0) ∧
    rng p' = rng p ∧ cache p' = cache p ∧
    (if (ConcatenatedDataset.__len__ self' =? 0) && is_main_process h
     then ∃ m, logged p' = logged p ++ [{| lvl := WARNING; msg := m |}]
     else logged p' = logged p).
Proof.
  intros Hn Hds len.
  assert (Hn0 : n ≠ 0) by lia.
  assert (∃ self' p', ConcatenatedDataset._make_divisible_by h n self p = (Ok self', p') ∧
            (if (len / n * n =? 0) && is_main_process h
             then ∃ m, logged p' = logged p ++ [{| lvl := WARNING; msg := m |}]
             else logged p' = logged p)) as (self' & p' & Hrun & Hlog).
  { rewrite concatenated_trim_eq by done. fold len.
    destruct ((len / n * n =? 0) && is_main_process h); [|eauto].
    destruct (ConcatenatedDataset.datasets self) as [|ds0 dss] eqn:E; [done|].
    simpl. eauto. }
  pose proof (concatenated_trim_len _ _ _ _ _ _ Hrun) as Hlen.
  pose proof (concatenated_trim_order _ _ _ _ _ _ Hrun) as (_ & Hd & Ho & Hr & Hc & _).
  fold len in Hlen, Ho.
  exists self', p'. repeat split; try done.
  - intros m Hm [k ->]. rewrite Hlen.
    apply Nat.mul_le_mono_r.
    apply Nat.div_le_lower_bound; lia.
  - intros H7 ->. by rewrite Hlen, H7.
  - intros H2 ->. by rewrite Hlen, H2.
  - by rewrite Hlen.
Qed.

Lemma concatenated_trim_spec_witness :
  ∃ self' p',
    ConcatenatedDataset._make_divisible_by toy_host 3 (toy_bucket 7) toy_process = (Ok self', p') ∧
    ConcatenatedDataset.__len__ self' = 6.
Proof.
  destruct (concatenated_trim_spec toy_host 3 (toy_bucket 7) toy_process)
    as (self' & p' & Hrun & _ & _ & _ & _ & H7 & _).
  - lia.
  - vm_compute. discriminate.
  - exists self', p'. split; [exact Hrun|]. apply H7; reflexivity.
Defined.

(** C5, the claim as written fails: on a process that is not the main
    one, a bucket of 2 trimmed to a multiple of 3 becomes empty and nothing
    at all is logged. *)
Lemma concatenated_trim_silent_off_main :
  let h := {| directories := ∅; text_files := ∅; image_files := ∅;
              is_main_process := false; urandom := 0 |} in
  ∃ self' p',
    ConcatenatedDataset._make_divisible_by h 3 (toy_bucket 2) toy_process = (Ok self', p') ∧
    ConcatenatedDataset.iteration_order self' = [] ∧
    logged p' = [].
Proof. intros h. eexists _, _. split; [|split]; vm_compute; reflexivity. Qed.

(* ===================================================================== *)
(** * Trimming twice *)

Section trimming_twice.
Context `{G : Generator} `{P : PIL}.

Lemma trim_buckets_again (h : host) n bs (p : process) bs1 p1 (q : process) :
  Dataset.trim_buckets h n bs p = (Ok bs1, p1) →
  ∃ q', Dataset.trim_buckets h n bs1 q = (Ok bs1, q').
Proof.
  revert p bs1 p1 q. induction bs as [|b bs IH]; intros p bs1 p1 q H; simpl in H.
  - simplify_eq. simpl. eauto.
  - destruct (ConcatenatedDataset._make_divisible_by h n b p) as [[b'|e] pa] eqn:Hb; [|done].
    destruct (Dataset.trim_buckets h n bs pa) as [[bs'|e] pb] eqn:Hbs; [|done].
    simplify_eq. simpl.
    destruct (concatenated_trim_again _ _ _ _ _ _ q Hb) as [qa ->].
    destruct (IH _ _ _ qa Hbs) as [qb ->]. eauto.
Qed.

Lemma dataset_trim_again (h : host) n d (p : process) d1 p1 :
  Dataset._make_divisible_by h n d p = (Ok d1, p1) →
  ∃ p2, Dataset._make_divisible_by h n d1 p1 = (Ok d1, p2).
Proof.
  unfold Dataset._make_divisible_by. intros H.
  destruct (Dataset.trim_buckets h n (Dataset.buckets d) p) as [[bs|e] pa] eqn:Hbs; [|done].
  assert (Hd1 : Dataset.buckets d1 = bs ∧
          Dataset.iteration_order d1 =
            (random.shuffle (Dataset.selection_by_batches n bs)
               (random.seed (Some 0%Z) (urandom h))).1 ∧
          ¬ (n = 0 ∧ bs ≠ [])).
  { destruct n as [|n], bs as [|b0 bs0]; try done;
      rewrite shuffle_with_seed_eq in H; inversion H; simpl;
      (repeat split; try done); intros [? ?]; done. }
  destruct Hd1 as (Hb1 & Ho1 & Hn).
  destruct (trim_buckets_again _ _ _ _ _ _ p1 Hbs) as [q' Hq]. rewrite Hb1, Hq.
  rewrite shuffle_with_seed_eq.
  assert (Heq : {| Dataset.buckets := bs;
             Dataset.post_init_called := Dataset.post_init_called d1;
             Dataset.data_parallel_rank := Dataset.data_parallel_rank d1;
             Dataset.data_parallel_world_size := Dataset.data_parallel_world_size d1;
             Dataset.batch_size := Dataset.batch_size d1;
             Dataset.global_batch_size := Dataset.global_batch_size d1;
             Dataset.iteration_order :=
               (random.shuffle (Dataset.selection_by_batches n bs)
                  (random.seed (Some 0%Z) (urandom h))).1 |} = d1).
  { destruct d1. simpl in *. by subst. }
  destruct n as [|n], bs as [|b0 bs0]; try (exfalso; apply Hn; by split);
    rewrite Heq; eauto.
Qed.

End trimming_twice.

(** C10: trimming is idempotent.  For [n >= 1], if [_make_divisible_by n]
    has returned on a [ConcatenatedDataset] or on the top-level [Dataset],
    calling it again right away returns as well and leaves the object,
    with its iteration order (and those of its buckets), exactly as the
    first call left it. *)
Theorem make_divisible_by_idempotent `{G : Generator} `{P : PIL} (h : host) (n : nat) :
  1 ≤ n →
  (∀ (self : ConcatenatedDataset.t) (p : process) self1 p1,
     ConcatenatedDataset._make_divisible_by h n self p = (Ok self1, p1) →
     ∃ p2, ConcatenatedDataset._make_divisible_by h n self1 p1 = (Ok self1, p2)) ∧
  (∀ (d : Dataset.t) (p : process) d1 p1,
     Dataset._make_divisible_by h n d p = (Ok d1, p1) →
     ∃ p2, Dataset._make_divisible_by h n d1 p1 = (Ok d1, p2)).
Proof.
  intros _. split.
  - intros self p self1 p1 H. by eapply concatenated_trim_again.
  - intros d p d1 p1 H. by eapply dataset_trim_again.
Qed.

Lemma make_divisible_by_idempotent_witness :
  (∃ b1 p1 p2,
     ConcatenatedDataset._make_divisible_by toy_host 3 (toy_bucket 7) toy_process = (Ok b1, p1) ∧
     ConcatenatedDataset._make_divisible_by toy_host 3 b1 p1 = (Ok b1, p2)) ∧
  (∃ d1 p1 p2,
     Dataset._make_divisible_by toy_host 3 toy_dataset toy_process = (Ok d1, p1) ∧
     Dataset._make_divisible_by toy_host 3 d1 p1 = (Ok d1, p2)).
Proof.
  destruct (make_divisible_by_idempotent toy_host 3 ltac:(lia)) as [Hc Hd].
  split.
  - assert (∃ b1 p1, ConcatenatedDataset._make_divisible_by toy_host 3 (toy_bucket 7) toy_process
                     = (Ok b1, p1)) as (b1 & p1 & E) by (vm_compute; eauto).
    destruct (Hc _ _ _ _ E) as [p2 H2]. eauto.
  - assert (∃ d1 p1, Dataset._make_divisible_by toy_host 3 toy_dataset toy_process
                     = (Ok d1, p1)) as (d1 & p1 & E) by (vm_compute; eauto).
    destruct (Hd _ _ _ _ E) as [p2 H2]. eauto.
Defined.

(* ===================================================================== *)
(** * The fingerprinted cache *)

Lemma strip_prefix_app (p r : string) : strip_prefix p (p +:+ r) = Some r.
Proof. induction p as [|a p IH]; simpl; [done|]. by rewrite Ascii.eqb_refl. Qed.

Lemma ends_with_app (m suf : string) : ends_with suf (m +:+ suf) = true.
Proof.
  induction m as [|c m IH].
  - change ("" +:+ suf) with suf.
    destruct suf as [|a suf]; [done|].
    cbn [ends_with]. by rewrite String.eqb_refl.
  - change (String c m +:+ suf) with (String c (m +:+ suf)).
    cbn [ends_with]. rewrite IH. apply orb_true_r.
Qed.

(** The file [_map_and_cache] is about to use is one of those its own
    glob pattern finds. *)
Lemma glob_match_cache_file (prefix fp : string) :
  glob_match prefix (prefix +:+ fp +:+ ".arrow") = true.
Proof. unfold glob_match. rewrite strip_prefix_app. apply ends_with_app. Qed.

Section cache_facts.
Context `{G : Generator} `{P : PIL} `{M : @Model P} `{D : Datasets}.

Lemma process_image_fn_keeps_cache (h : host) v size_bucket :
  keeps_cache (process_image_fn h v size_bucket).
Proof.
  intros ex q. unfold process_image_fn.
  destruct (get_str ex "image_file") as [image_file|e]; [|done].
  by destruct (image_files h !! image_file).
Qed.

Lemma text_embedding_map_fn_keeps_cache self i :
  keeps_cache (SizeBucketDataset._get_text_embedding_map_fn self i).
Proof.
  intros ex q. unfold SizeBucketDataset._get_text_embedding_map_fn.
  by destruct (get_str ex "caption").
Qed.

Lemma map_rows_keeps_cache fn rs (p : process) :
  keeps_cache fn →
  cache (map_rows fn rs p).2 = cache p ∧
  default_new_fingerprint_args (map_rows fn rs p).2 = default_new_fingerprint_args p.
Proof.
  intros Hfn. revert p. induction rs as [|r rs IH]; intros p; simpl; [done|].
  pose proof (Hfn r p) as Hr. destruct (fn r p) as [[o|e] p1]; simpl in Hr; [|done].
  pose proof (IH p1) as Hrs. destruct (map_rows fn rs p1) as [[out|e] p2]; simpl in *;
    destruct Hr, Hrs; split; congruence.
Qed.

Lemma map_and_cache_hit self dataset map_fn prefix args (p : process) table :
  dir_files (cache p) (SizeBucketDataset.cache_dir self)
    !! (prefix +:+ Hasher_hash (fingerprint_args args dataset p) +:+ ".arrow") = Some table →
  ∃ p', SizeBucketDataset._map_and_cache self dataset map_fn prefix args p =
          (Ok {| rows := table;
                 _fingerprint := Hasher_hash (fingerprint_args args dataset p) |}, p') ∧
        cache p' = cache p.
Proof.
  intros Hhit. unfold SizeBucketDataset._map_and_cache, fingerprint_args in *.
  destruct args as [l|]; simpl; rewrite Hhit; unfold map_cached; simpl; rewrite Hhit; eauto.
Qed.

Lemma map_and_cache_miss self dataset map_fn prefix args (p : process) :
  dir_files (cache p) (SizeBucketDataset.cache_dir self)
    !! (prefix +:+ Hasher_hash (fingerprint_args args dataset p) +:+ ".arrow") = None →
  SizeBucketDataset._map_and_cache self dataset map_fn prefix args p =
    match map_rows map_fn (rows dataset) (after_unlink self dataset prefix args p) with
    | (Err e, pm) => (Err e, pm)
    | (Ok out, pm) =>
        (Ok {| rows := out; _fingerprint := Hasher_hash (fingerprint_args args dataset p) |},
         set_cache (<[SizeBucketDataset.cache_dir self :=
                       <[prefix +:+ Hasher_hash (fingerprint_args args dataset p) +:+ ".arrow" := out]>
                         (dir_files (cache pm) (SizeBucketDataset.cache_dir self))]> (cache pm)) pm)
    end.
Proof.
  intros Hmiss. unfold SizeBucketDataset._map_and_cache, after_unlink, fingerprint_args in *.
  destruct args as [l|]; simpl; rewrite Hmiss; unfold map_cached; simpl;
    unfold dir_files at 1, unlink_matching; rewrite lookup_insert_eq; simpl;
    rewrite map_lookup_filter_None_2 by (left; exact Hmiss); done.
Qed.

Lemma dir_files_after_unlink self dataset prefix args (p : process) :
  dir_files (cache (after_unlink self dataset prefix args p)) (SizeBucketDataset.cache_dir self)
  = filter (fun kv => glob_match prefix kv.1 = false)
      (dir_files (cache p) (SizeBucketDataset.cache_dir self)).
Proof.
  unfold after_unlink, unlink_matching, dir_files at 1.
  destruct args; simpl; by rewrite lookup_insert_eq.
Qed.

Lemma other_dirs_after_unlink self dataset prefix args (p : process) dir' :
  dir' ≠ SizeBucketDataset.cache_dir self →
  cache (after_unlink self dataset prefix args p) !! dir' = cache p !! dir'.
Proof.
  intros Hne. unfold after_unlink, unlink_matching.
  destruct args; simpl; by rewrite lookup_insert_ne.
Qed.

End cache_facts.

(** The two cases of [_map_and_cache]: the cache file is there, or it is
    not. *)
Lemma map_and_cache_cases `{G : Generator} `{P : PIL} `{M : @Model P} `{D : Datasets}
    (self : SizeBucketDataset.t) (dataset : HFDataset)
    (map_fn : example → process → result (option example) * process)
    (prefix : string) (args : option (list fp_arg)) (p : process) :
  keeps_cache map_fn →
  let fp := Hasher_hash (fingerprint_args args dataset p) in
  let dir := SizeBucketDataset.cache_dir self in
  let cache_file := prefix +:+ fp +:+ ".arrow" in
  let files := dir_files (cache p) dir in
  (∀ table, files !! cache_file = Some table →
     ∃ p', SizeBucketDataset._map_and_cache self dataset map_fn prefix args p =
             (Ok {| rows := table; _fingerprint := fp |}, p') ∧
           cache p' = cache p) ∧
  (files !! cache_file = None →
     let p1 := after_unlink self dataset prefix args p in
     dir_files (cache p1) dir = filter (fun kv => glob_match prefix kv.1 = false) files ∧
     (∀ dir', dir' ≠ dir → cache p1 !! dir' = cache p !! dir') ∧
     ∀ out pm, map_rows map_fn (rows dataset) p1 = (Ok out, pm) →
       ∃ p', SizeBucketDataset._map_and_cache self dataset map_fn prefix args p =
               (Ok {| rows := out; _fingerprint := fp |}, p') ∧
             dir_files (cache p') dir !! cache_file = Some out ∧
             (∀ name', glob_match prefix name' = true →
                       is_Some (dir_files (cache p') dir !! name') → name' = cache_file) ∧
             (∀ name', glob_match prefix name' = false →
                       dir_files (cache p') dir !! name' = files !! name') ∧
             (∀ dir', dir' ≠ dir → cache p' !! dir' = cache p !! dir')).
Proof.
  intros Hfn fp dir cache_file files. split.
  - intros table Hhit. by apply map_and_cache_hit.
  - intros Hmiss p1. split; [apply dir_files_after_unlink|].
    split; [intros; by apply other_dirs_after_unlink|].
    intros out pm Hrows.
    rewrite map_and_cache_miss by exact Hmiss. fold p1. rewrite Hrows.
    eexists. split; [reflexivity|].
    destruct (map_rows_keeps_cache map_fn (rows dataset) p1 Hfn) as [Hc _].
    rewrite Hrows in Hc. simpl in Hc.
    assert (Hfiles : dir_files (cache (set_cache (<[dir := <[cache_file := out]>
                       (dir_files (cache pm) dir)]> (cache pm)) pm)) dir
                     = <[cache_file := out]>
                         (filter (fun kv => glob_match prefix kv.1 = false) files)).
    { unfold dir_files at 1. simpl. rewrite lookup_insert_eq. simpl.
      rewrite Hc. f_equal. apply dir_files_after_unlink. }
    fold fp dir cache_file. rewrite Hfiles.
    split; [apply lookup_insert_eq|]. split; [|split].
    + intros name' Hglob [x Hx].
      destruct (decide (name' = cache_file)) as [|Hne]; [done|].
      rewrite lookup_insert_ne in Hx by done.
      apply map_lookup_filter_Some in Hx as [_ Hx]. simpl in Hx. congruence.
    + intros name' Hglob.
      assert (name' ≠ cache_file) as Hne.
      { intros ->. unfold cache_file in Hglob.
        by rewrite glob_match_cache_file in Hglob. }
      rewrite lookup_insert_ne by done.
      destruct (files !! name') as [x|] eqn:Hx.
      * by apply map_lookup_filter_Some_2.
      * apply map_lookup_filter_None_2. by left.
    + intros dir' Hne. simpl. rewrite lookup_insert_ne by done.
      rewrite Hc. by apply other_dirs_after_unlink.
Qed.

(** C3: a call of [_map_and_cache] with a transform that leaves the cache
    directories alone.  If the cache file named by the prefix and the
    computed fingerprint exists, its table is returned as it is and no
    cache directory changes.  Otherwise every file of the dataset's cache
    directory that matches [prefix*.arrow] is removed before the transform
    starts, the transform runs over the rows in order, and its result is
    returned and stored under the new name: afterwards that file is the
    only one in the directory that matches the pattern, the files that do
    not match it are as before, and so are the other directories.  So a
    directory that holds at most one file per pattern still does after
    every call that returns. *)
Theorem map_and_cache_spec `{G : Generator} `{P : PIL} `{M : @Model P} `{D : Datasets}
    (self : SizeBucketDataset.t) (dataset : HFDataset)
    (map_fn : example → process → result (option example) * process)
    (prefix : string) (args : option (list fp_arg)) (p : process) :
  keeps_cache map_fn →
  let fp := Hasher_hash (fingerprint_args args dataset p) in
  let dir := SizeBucketDataset.cache_dir self in
  let cache_file := prefix +:+ fp +:+ ".arrow" in
  let files := dir_files (cache p) dir in
  (∀ table, files !! cache_file = Some table →
     ∃ p', SizeBucketDataset._map_and_cache self dataset map_fn prefix args p =
             (Ok {| rows := table; _fingerprint := fp |}, p') ∧
           cache p' = cache p) ∧
  (files !! cache_file = None →
     let p1 := after_unlink self dataset prefix args p in
     dir_files (cache p1) dir = filter (fun kv => glob_match prefix kv.1 = false) files ∧
     (∀ dir', dir' ≠ dir → cache p1 !! dir' = cache p !! dir') ∧
     ∀ out pm, map_rows map_fn (rows dataset) p1 = (Ok out, pm) →
       ∃ p', SizeBucketDataset._map_and_cache self dataset map_fn prefix args p =
               (Ok {| rows := out; _fingerprint := fp |}, p') ∧
             dir_files (cache p') dir !! cache_file = Some out ∧
             (∀ name', glob_match prefix name' = true →
                       is_Some (dir_files (cache p') dir !! name') → name' = cache_file) ∧
             (∀ name', glob_match prefix name' = false →
                       dir_files (cache p') dir !! name' = files !! name') ∧
             (∀ dir', dir' ≠ dir → cache p' !! dir' = cache p !! dir')) ∧
  (∀ ds p', SizeBucketDataset._map_and_cache self dataset map_fn prefix args p = (Ok ds, p') →
     at_most_one_generation prefix files →
     at_most_one_generation prefix (dir_files (cache p') dir)).
Proof.
  intros Hfn fp dir cache_file files.
  destruct (map_and_cache_cases self dataset map_fn prefix args p Hfn) as [Hhit Hmiss].
  split; [exact Hhit|]. split; [exact Hmiss|].
  intros ds p' Hrun Hone.
  destruct (files !! cache_file) as [table|] eqn:Hfile.
  - destruct (Hhit table) as (q & Hq & Hc); [exact Hfile|].
    rewrite Hq in Hrun. injection Hrun as _ <-.
    unfold dir. by rewrite Hc.
  - destruct (Hmiss Hfile) as (_ & _ & Hout).
    rewrite map_and_cache_miss in Hrun by exact Hfile.
    destruct (map_rows map_fn (rows dataset) (after_unlink self dataset prefix args p))
      as [[out|e] pm] eqn:Hrows; [|done].
    destruct (Hout out pm eq_refl) as (q & Hq & _ & Huniq & _).
    rewrite map_and_cache_miss, Hrows in Hq by exact Hfile.
    rewrite Hrun in Hq. injection Hq as _ <-.
    intros n1 n2 H1 H2 Hs1 Hs2.
    rewrite (Huniq n1 H1 Hs1), (Huniq n2 H2 Hs2). done.
Qed.

Lemma map_and_cache_spec_witness :
  ∃ out p',
    SizeBucketDataset._map_and_cache demo_bucket_dataset
      (SizeBucketDataset.image_file_and_caption_dataset demo_bucket_dataset)
      (process_image_fn demo_host get_vae (512, 512)%Z) "latent_" None demo_process
    = (Ok {| rows := out;
             _fingerprint := Hasher_hash (fingerprint_args None
               (SizeBucketDataset.image_file_and_caption_dataset demo_bucket_dataset)
               demo_process) |}, p') ∧
    length out = 2.
Proof.
  destruct (map_and_cache_spec demo_bucket_dataset
              (SizeBucketDataset.image_file_and_caption_dataset demo_bucket_dataset)
              (process_image_fn demo_host get_vae (512, 512)%Z) "latent_" None demo_process
              (process_image_fn_keeps_cache demo_host get_vae (512, 512)%Z)) as (_ & Hmiss & _).
  destruct (Hmiss ltac:(vm_cast_no_check (eq_refl (@None (list example)))))
    as (_ & _ & Hrun).
  match type of Hrun with
  | ∀ out pm, ?r = _ → _ =>
      assert (r = (Ok (ok_or [] r.1), r.2)) as Hr
        by (vm_cast_no_check (eq_refl r));
      assert (length (ok_or [] r.1) = 2) as Hl
        by (vm_cast_no_check (eq_refl 2))
  end.
  destruct (Hrun _ _ Hr) as (p' & Hp' & _).
  eexists _, p'. split; [exact Hp'|exact Hl].
Defined.

(* ===================================================================== *)
(** * What enters a fingerprint *)

Section fingerprint_facts.
Context `{G : Generator} `{P : PIL} `{M : @Model P} `{D : Datasets}.

Lemma map_cached_fingerprint fn dataset dir file fp (p : process) ds p' :
  keeps_cache fn →
  map_cached fn dataset dir file fp p = (Ok ds, p') →
  _fingerprint ds = fp ∧ default_new_fingerprint_args p' = default_new_fingerprint_args p.
Proof.
  intros Hfn. unfold map_cached.
  destruct (dir_files (cache p) dir !! file) as [table|].
  - intros [= <- <-]. done.
  - destruct (map_rows_keeps_cache fn (rows dataset) p Hfn) as [_ Hd].
    destruct (map_rows fn (rows dataset) p) as [[out|e] pm]; [|done].
    intros [= <- <-]. done.
Qed.

Lemma map_and_cache_fingerprint self dataset map_fn prefix args (p : process) ds p' :
  keeps_cache map_fn →
  SizeBucketDataset._map_and_cache self dataset map_fn prefix args p = (Ok ds, p') →
  _fingerprint ds = Hasher_hash (fingerprint_args args dataset p) ∧
  default_new_fingerprint_args p' =
    match args with
    | Some _ => default_new_fingerprint_args p
    | None => fingerprint_args None dataset p
    end.
Proof.
  intros Hfn Hrun. unfold SizeBucketDataset._map_and_cache in Hrun.
  destruct args as [l|]; simpl in Hrun;
    apply map_cached_fingerprint in Hrun as [-> ->]; try done;
    (split; [done|]); by destruct (dir_files _ _ !! _).
Qed.

(** The text-embedding path passes a fresh list at every call: its
    fingerprint is the hash of the variant index and the base fingerprint,
    whatever was called before, and the model does not enter it. *)
Lemma text_embedding_fingerprint self i (p : process) self' p' :
  SizeBucketDataset._cache_text_embedding self i p = (Ok self', p') →
  ∃ ds, SizeBucketDataset.text_embedding_datasets self' =
          SizeBucketDataset.text_embedding_datasets self ++ [ds] ∧
        _fingerprint ds =
          Hasher_hash [ArgInt (Z.of_nat i);
                       ArgStr (_fingerprint (SizeBucketDataset.image_file_and_caption_dataset self))].
Proof.
  unfold SizeBucketDataset._cache_text_embedding. intros Hrun.
  destruct (SizeBucketDataset._map_and_cache _ _ _ _ _ _) as [[ds|e] q] eqn:E; [|done].
  injection Hrun as <- <-.
  apply map_and_cache_fingerprint in E as [E _];
    [|apply text_embedding_map_fn_keeps_cache].
  exists ds. split; [done|]. exact E.
Qed.

Lemma latent_fingerprint (h : host) self v (p : process) self' p' :
  SizeBucketDataset._cache_latents h self v p = (Ok self', p') →
  let fp := _fingerprint (SizeBucketDataset.image_file_and_caption_dataset self) in
  _fingerprint <$> SizeBucketDataset.latent_dataset self' =
    Some (Hasher_hash (default_new_fingerprint_args p ++ [ArgStr fp])) ∧
  default_new_fingerprint_args p' = default_new_fingerprint_args p ++ [ArgStr fp].
Proof.
  unfold SizeBucketDataset._cache_latents. intros Hrun.
  destruct (SizeBucketDataset._map_and_cache _ _ _ _ _ _) as [[ds|e] q] eqn:E; [|done].
  injection Hrun as <- <-.
  apply map_and_cache_fingerprint in E as [E1 E2];
    [|apply process_image_fn_keeps_cache].
  simpl. by rewrite E1, E2.
Qed.

End fingerprint_facts.

(** C1, where the code departs from the claim: the latents path leaves
    [new_fingerprint_args] out, so each call appends to the one default
    list.  When the latents of [a] and then of [b] are cached, the
    fingerprint of [b]'s cache entry is the hash of everything appended so
    far, the base fingerprint of [a] included, not of [b]'s own base
    fingerprint alone. *)
Theorem latent_fingerprint_depends_on_earlier_calls
    `{G : Generator} `{P : PIL} `{M : @Model P} `{D : Datasets}
    (h : host) (a b : SizeBucketDataset.t) (v : vae) (p : process) a' p1 b' p2 :
  SizeBucketDataset._cache_latents h a v p = (Ok a', p1) →
  SizeBucketDataset._cache_latents h b v p1 = (Ok b', p2) →
  let fa := _fingerprint (SizeBucketDataset.image_file_and_caption_dataset a) in
  let fb := _fingerprint (SizeBucketDataset.image_file_and_caption_dataset b) in
  _fingerprint <$> SizeBucketDataset.latent_dataset a' =
    Some (Hasher_hash (default_new_fingerprint_args p ++ [ArgStr fa])) ∧
  _fingerprint <$> SizeBucketDataset.latent_dataset b' =
    Some (Hasher_hash (default_new_fingerprint_args p ++ [ArgStr fa; ArgStr fb])).
Proof.
  intros Ha Hb fa fb.
  apply latent_fingerprint in Ha as [Ha1 Ha2].
  apply latent_fingerprint in Hb as [Hb1 _].
  split; [exact Ha1|].
  rewrite Hb1, Ha2. by rewrite <- app_assoc.
Qed.

Lemma latent_fingerprint_depends_on_earlier_calls_witness :
  ∃ a' b' p2 f1 f2,
    demo_cached_once = (Ok a', demo_process_1) ∧
    demo_cached_twice = (Ok b', p2) ∧
    _fingerprint <$> SizeBucketDataset.latent_dataset a' = Some f1 ∧
    _fingerprint <$> SizeBucketDataset.latent_dataset b' = Some f2 ∧
    f1 ≠ f2.
Proof.
  assert (demo_cached_once =
            (Ok (ok_or demo_bucket_dataset demo_cached_once.1), demo_process_1)) as Ha
    by (vm_cast_no_check (eq_refl demo_cached_once)).
  assert (demo_cached_twice =
            (Ok (ok_or demo_bucket_dataset demo_cached_twice.1), demo_cached_twice.2)) as Hb
    by (vm_cast_no_check (eq_refl demo_cached_twice)).
  assert (default_new_fingerprint_args demo_process = []) as Hd
    by (vm_cast_no_check (eq_refl (@nil fp_arg))).
  destruct (latent_fingerprint_depends_on_earlier_calls _ _ _ _ _ _ _ _ _ Ha Hb) as [H1 H2].
  rewrite Hd in H1, H2.
  eexists _, _, _, _, _.
  split; [exact Ha|]. split; [exact Hb|]. split; [exact H1|]. split; [exact H2|].
  vm_compute. discriminate.
Defined.

(* ===================================================================== *)
(** * The length of a bucket dataset *)

(** Caching never changes what [__len__] reports: it counts the rows of
    the caption dataset. *)
Lemma cache_latents_len `{G : Generator} `{P : PIL} `{M : @Model P} `{D : Datasets}
    (h : host) self v (p : process) self' p' :
  SizeBucketDataset._cache_latents h self v p = (Ok self', p') →
  SizeBucketDataset.__len__ self' = SizeBucketDataset.__len__ self.
Proof.
  unfold SizeBucketDataset._cache_latents. intros Hrun.
  destruct (SizeBucketDataset._map_and_cache _ _ _ _ _ _) as [[ds|e] q]; [|done].
  by injection Hrun as <- <-.
Qed.

(** C6, where the code departs from the claim: of the two samples of the
    demo bucket, [b.png] cannot be opened when the latents are cached, so
    the latents column keeps one row; [__len__] still answers 2, and
    reading the second item fails. *)
Theorem len_counts_dropped_samples :
  ∃ self' p',
    SizeBucketDataset._cache_latents demo_host_later demo_bucket_dataset get_vae demo_process
      = (Ok self', p') ∧
    (length ∘ rows) <$> SizeBucketDataset.latent_dataset self' = Some 1 ∧
    SizeBucketDataset.__len__ self' = 2 ∧
    SizeBucketDataset.__getitem__ self' 1 = Err IndexError.
Proof. eexists _, _. repeat split; vm_compute; reflexivity. Qed.

(* ===================================================================== *)
(** * Captions and the generator *)

(** C2, where the code departs from the claim: with [shuffle_tags] the
    caption is shuffled by the module-level generator in whatever state it
    is, without a seed.  For the caption text [a,b], a state whose next
    draw below 2 is 0 gives the caption [b, a], a state whose next draw is
    1 gives [a, b]: two runs on the same files and configuration build
    different caption columns. *)
Theorem caption_depends_on_generator_state `{G : Generator} `{P : PIL}
    (h : host) (ex : example) (file : string) (p1 p2 : process) :
  get_str ex "caption_file" = Ok file →
  text_files h !! file = Some "a,b" →
  (randbelow 2 (rng p1)).1 = 0 →
  (randbelow 2 (rng p2)).1 = 1 →
  (process_caption_fn h true "" ex p1).1 = Ok (Some (<["caption" := VStr "b, a"]> ex)) ∧
  (process_caption_fn h true "" ex p2).1 = Ok (Some (<["caption" := VStr "a, b"]> ex)) ∧
  (process_caption_fn h true "" ex p1).1 ≠ (process_caption_fn h true "" ex p2).1.
Proof.
  intros Hget Hfile H1 H2.
  assert (E1 : (process_caption_fn h true "" ex p1).1
               = Ok (Some (<["caption" := VStr "b, a"]> ex))).
  { unfold process_caption_fn. rewrite Hget, Hfile.
    change (map strip (split "," (strip "a,b"))) with ["a"; "b"].
    unfold random.shuffle. simpl length. simpl random.shuffle_from.
    destruct (randbelow 2 (rng p1)) as [j s]. simpl in H1. subst j. reflexivity. }
  assert (E2 : (process_caption_fn h true "" ex p2).1
               = Ok (Some (<["caption" := VStr "a, b"]> ex))).
  { unfold process_caption_fn. rewrite Hget, Hfile.
    change (map strip (split "," (strip "a,b"))) with ["a"; "b"].
    unfold random.shuffle. simpl length. simpl random.shuffle_from.
    destruct (randbelow 2 (rng p2)) as [j s]. simpl in H2. subst j. reflexivity. }
  split; [exact E1|]. split; [exact E2|].
  rewrite E1, E2. intros [= Heq].
  apply (f_equal (fun m : example => m !! "caption")) in Heq.
  rewrite !lookup_insert_eq in Heq. discriminate.
Qed.

Lemma caption_depends_on_generator_state_witness :
  let ex : example := {[ "image_file" := VStr "d/t.png"; "caption_file" := VStr "d/t.txt" ]} in
  let h : host := {| directories := ∅; text_files := {[ "d/t.txt" := "a,b" ]};
                     image_files := ∅; is_main_process := true; urandom := 0 |} in
  let p1 : process := toy_process in
  let p2 : process := set_rng 70000%N toy_process in
  (process_caption_fn h true "" ex p1).1 ≠ (process_caption_fn h true "" ex p2).1.
Proof.
  intros ex h p1 p2.
  apply (caption_depends_on_generator_state h ex "d/t.txt" p1 p2);
    vm_compute; reflexivity.
Defined.

(* ===================================================================== *)
(** * Scanning a directory *)

Section scanning.
Context `{G : Generator} `{P : PIL}.

Lemma dict_append_listed (k : Z * Z) (v : string * string) d pr :
  listed (dict_append k v d) pr → listed d pr ∨ pr = v.
Proof.
  induction d as [|[k' vs] d IH]; simpl; intros (sb & fps & Hin & Hpr).
  - apply list_elem_of_singleton in Hin. injection Hin as -> ->.
    apply list_elem_of_singleton in Hpr. by right.
  - case_decide as Hk.
    + apply elem_of_cons in Hin as [Hin|Hin].
      * injection Hin as -> ->. apply elem_of_app in Hpr as [Hpr|Hpr].
        -- left. exists k', vs. split; [left|done].
        -- apply list_elem_of_singleton in Hpr. by right.
      * left. exists sb, fps. split; [by right|done].
    + apply elem_of_cons in Hin as [Hin|Hin].
      * injection Hin as -> ->. left. exists k', vs. split; [left|done].
      * destruct IH as [(sb' & fps' & Hin' & Hpr')|Heq]; [by exists sb, fps| |by right].
        left. exists sb', fps'. split; [by right|done].
Qed.

Lemma insert_sorted_perm e l : insert_sorted e l ≡ₚ e :: l.
Proof.
  induction l as [|e' l IH]; simpl; [done|].
  destruct (String.leb _ _); [done|].
  rewrite IH. apply Permutation_swap.
Qed.

Lemma sort_entries_perm l : sort_entries l ≡ₚ l.
Proof.
  induction l as [|e l IH]; simpl; [done|].
  rewrite insert_sorted_perm. by f_equiv.
Qed.

Lemma append_inj_r (a b c : string) : a +:+ b = a +:+ c → b = c.
Proof. induction a as [|x a IH]; simpl; [done|]. intros [= Heq]. by apply IH. Qed.

(** A file that is an image candidate but lacks its caption, or cannot
    be opened, is passed over: the buckets stay as they are and one
    warning is logged. *)
Lemma scan_file_skips (h : host) path entries size_buckets file acc (p : process) :
  is_file file = true →
  suffix (entry_name file) ≠ ".txt" →
  with_suffix (entry_name file) ".txt" ∉ map entry_name entries ∨
    image_files h !! (path +:+ "/" +:+ entry_name file) = None →
  ∃ m, Dataset.scan_file h path entries size_buckets file acc p = (Ok acc, warning m p).
Proof.
  intros Hf Hs Hbad. unfold Dataset.scan_file.
  rewrite Hf, bool_decide_eq_false_2 by done. simpl.
  destruct (bool_decide (with_suffix (entry_name file) ".txt" ∈ map entry_name entries)) eqn:Hc;
    simpl; [|eauto].
  destruct Hbad as [Hbad|Hbad].
  - apply bool_decide_eq_true_1 in Hc. done.
  - unfold Dataset._find_closest_size_bucket. rewrite Hbad. eauto.
Qed.

Lemma scan_file_listed (h : host) path entries size_buckets file acc (p : process) acc' p' pr :
  Dataset.scan_file h path entries size_buckets file acc p = (Ok acc', p') →
  listed acc' pr → listed acc pr ∨ accepted h path entries file pr.
Proof.
  unfold Dataset.scan_file.
  destruct (is_file file) eqn:Hf; simpl; [|intros [= <- <-]; by left].
  case_bool_decide as Hs; simpl; [intros [= <- <-]; by left|].
  case_bool_decide as Hc; simpl; [|intros [= <- <-]; by left].
  unfold Dataset._find_closest_size_bucket.
  destruct (image_files h !! _) as [img|] eqn:Hi; [|intros [= <- <-]; by left].
  destruct (img_size img) as [width height].
  destruct (height =? 0)%Z; [done|].
  destruct (Dataset.closest_from _ _ _ _) as [[sb|]|e]; [| |done].
  - intros [= <- <-] Hl. apply dict_append_listed in Hl as [Hl| ->]; [by left|].
    right. repeat split; done.
  - intros [= <- <-]. by left.
Qed.

Lemma scan_files_listed (h : host) path entries size_buckets files acc (p : process) m p' pr :
  Dataset.scan_files h path entries size_buckets files acc p = (Ok m, p') →
  listed m pr → listed acc pr ∨ ∃ file, file ∈ files ∧ accepted h path entries file pr.
Proof.
  revert acc p. induction files as [|f files IH]; intros acc p; simpl.
  - intros [= <- <-]. by left.
  - destruct (Dataset.scan_file h path entries size_buckets f acc p) as [[acc1|e] p1] eqn:Hf;
      [|done].
    intros Hrest Hl. destruct (IH _ _ Hrest Hl) as [Hl1|(file & Hin & Hacc)].
    + destruct (scan_file_listed _ _ _ _ _ _ _ _ _ _ Hf Hl1) as [?|?]; [by left|].
      right. exists f. split; [left|done].
    + right. exists file. split; [by right|done].
Qed.

(** Nothing raises when every image that opens has a height and every
    bucket has one. *)
Lemma closest_from_ok ar size_buckets best diff :
  Forall (fun sb : Z * Z => sb.2 ≠ 0%Z) size_buckets →
  ∃ r, Dataset.closest_from ar size_buckets best diff = Ok r.
Proof.
  intros Hsb. revert best diff. induction Hsb as [|sb sbs Hnz _ IH]; intros best diff.
  - simpl. eauto.
  - cbn [Dataset.closest_from].
    destruct (sb.2 =? 0)%Z eqn:Hz; [by apply Z.eqb_eq in Hz|].
    destruct (match diff with Some _ => _ | None => _ end); apply IH.
Qed.

Lemma scan_file_ok (h : host) path entries size_buckets file acc (p : process) :
  (∀ f i, image_files h !! f = Some i → (img_size i).2 ≠ 0%Z) →
  Forall (fun sb : Z * Z => sb.2 ≠ 0%Z) size_buckets →
  ∃ acc' p', Dataset.scan_file h path entries size_buckets file acc p = (Ok acc', p').
Proof.
  intros Himg Hsb. unfold Dataset.scan_file.
  destruct (negb (is_file file) || _); [eauto|].
  destruct (negb _); [eauto|].
  unfold Dataset._find_closest_size_bucket.
  destruct (image_files h !! _) as [img|] eqn:Hi; [|eauto].
  specialize (Himg _ _ Hi). destruct (img_size img) as [width height]. simpl in Himg.
  apply Z.eqb_neq in Himg. rewrite Himg.
  destruct (closest_from_ok (inject_Z width / inject_Z height)%Q size_buckets None None Hsb)
    as [[sb|] ->]; eauto.
Qed.

Lemma scan_files_ok (h : host) path entries size_buckets files acc (p : process) :
  (∀ f i, image_files h !! f = Some i → (img_size i).2 ≠ 0%Z) →
  Forall (fun sb : Z * Z => sb.2 ≠ 0%Z) size_buckets →
  ∃ m p', Dataset.scan_files h path entries size_buckets files acc p = (Ok m, p').
Proof.
  intros Himg Hsb. revert acc p. induction files as [|f files IH]; intros acc p; simpl.
  - eauto.
  - destruct (scan_file_ok h path entries size_buckets f acc p Himg Hsb) as (acc' & p' & ->).
    apply IH.
Qed.

End scanning.

(* ===================================================================== *)
(** * The loader: passes and epochs *)

Section loader_facts.
Context {DS : Type} (iter : DS → trace (list tensor)).

Local Abbreviation loader := (@PipelineDataLoader.t DS).

Lemma pull_spec g it l pulled :
  pass_rest g it l →
  match l with
  | [] => ∃ pulled', PipelineDataLoader.pull g it pulled = (Err StopIteration, (Stop, [], pulled'))
  | m :: l' =>
      ∃ rest more pulled' l2,
        PipelineDataLoader.pull g it pulled = (Ok m, (rest, more, pulled')) ∧
        pass_rest g rest l2 ∧ more ++ l2 = l'
  end.
Proof.
  intros Hp. revert pulled. induction Hp as [|batch rest ms l Hs Hp IH]; intros pulled; simpl.
  - eauto.
  - rewrite Hs. destruct ms as [|m ms]; simpl.
    + apply IH.
    + eauto 10.
Qed.

Lemma next_data_spec (self : loader) l :
  loader_rem self l →
  match l with
  | [] => ∃ self', PipelineDataLoader.next_data self = (Err StopIteration, self') ∧
                   same_loader self self' ∧
                   PipelineDataLoader.epoch self' = PipelineDataLoader.epoch self
  | m :: l' => ∃ self', PipelineDataLoader.next_data self = (Ok m, self') ∧
                        same_loader self self' ∧
                        PipelineDataLoader.epoch self' = PipelineDataLoader.epoch self ∧
                        loader_rem self' l'
  end.
Proof.
  intros (l2 & Hp & Hl). unfold PipelineDataLoader.next_data.
  destruct (PipelineDataLoader.pending self) as [|m0 more] eqn:Hpend; simpl in Hl.
  - subst l2.
    pose proof (pull_spec _ _ _ (PipelineDataLoader.num_batches_pulled self) Hp) as Hpull.
    destruct l as [|m l'].
    + destruct Hpull as [pulled' ->]. eexists. split; [reflexivity|]. by repeat split.
    + destruct Hpull as (rest & more & pulled' & l3 & -> & Hp3 & Hl3).
      eexists. split; [reflexivity|]. repeat split; try done.
      exists l3. by split.
  - subst l. eexists. split; [reflexivity|]. repeat split; try done.
    exists l2. by split.
Qed.

Lemma create_dataloader_rem (self : loader) micro :
  pass_rest (PipelineDataLoader.gradient_accumulation_steps self)
    (iter (PipelineDataLoader.dataset self)) micro →
  loader_rem (PipelineDataLoader._create_dataloader iter self) micro.
Proof. intros Hp. exists micro. by split. Qed.

(** One call of [__next__] on a dataset whose pass has a microbatch. *)
Lemma next_spec (self : loader) micro l :
  pass_rest (PipelineDataLoader.gradient_accumulation_steps self)
    (iter (PipelineDataLoader.dataset self)) micro →
  micro ≠ [] →
  loader_rem self l →
  match l with
  | m :: l' =>
      ∃ self', PipelineDataLoader.__next__ iter self = (Ok m, self') ∧
               same_loader self self' ∧
               PipelineDataLoader.epoch self' = PipelineDataLoader.epoch self ∧
               loader_rem self' l'
  | [] =>
      ∃ m l' self', micro = m :: l' ∧
               PipelineDataLoader.__next__ iter self = (Ok m, self') ∧
               same_loader self self' ∧
               PipelineDataLoader.epoch self' = PipelineDataLoader.epoch self + 1 ∧
               loader_rem self' l'
  end.
Proof.
  intros Hpass Hne Hrem. unfold PipelineDataLoader.__next__.
  pose proof (next_data_spec self l Hrem) as Hnd.
  destruct l as [|m l'].
  - destruct Hnd as (self1 & -> & [Hds Hg] & He).
    destruct micro as [|m l']; [done|].
    assert (loader_rem (PipelineDataLoader._create_dataloader iter self1) (m :: l')) as Hrem1.
    { apply create_dataloader_rem. by rewrite Hds, Hg. }
    apply next_data_spec in Hrem1 as (self2 & -> & [Hds2 Hg2] & He2 & Hrem2).
    exists m, l'. eexists. split; [done|]. split; [reflexivity|].
    simpl in *. repeat split; simpl; try congruence.
    destruct Hrem2 as (l2 & Hp2 & Hl2). exists l2. by split.
  - destruct Hnd as (self1 & -> & Hsame & He & Hrem1). eauto.
Qed.

Lemma next_many_spec micro (self : loader) n j :
  pass_rest (PipelineDataLoader.gradient_accumulation_steps self)
    (iter (PipelineDataLoader.dataset self)) micro →
  micro ≠ [] →
  j ≤ length micro →
  loader_rem self (drop j micro) →
  (PipelineDataLoader.next_many iter n self).1 =
    map (fun k => (Ok (micro !!! ((j + k) mod length micro)),
                   PipelineDataLoader.epoch self + (j + k) / length micro))
        (seq 0 n).
Proof.
  intros Hpass Hne. revert self j Hpass.
  assert (HN : length micro ≠ 0) by (by destruct micro).
  induction n as [|n IH]; intros self j Hpass Hj Hrem; [done|].
  cbn [PipelineDataLoader.next_many seq map].
  rewrite <- fmap_S_seq, <- list_fmap_compose.
  pose proof (next_spec self micro _ Hpass Hne Hrem) as Hnext.
  destruct (drop j micro) as [|m l'] eqn:Hdrop.
  - destruct Hnext as (m & l' & self1 & Hmicro & -> & [Hds Hg] & He & Hrem1).
    assert (j = length micro) as ->.
    { apply (f_equal length) in Hdrop. rewrite length_drop in Hdrop. simpl in Hdrop.
      clear IH. lia. }
    specialize (IH self1 1).
    destruct (PipelineDataLoader.next_many iter n self1) as [res self2]. simpl in *.
    rewrite IH; [|by rewrite Hds, Hg|lia|by rewrite Hmicro].
    f_equal.
    + rewrite Nat.add_0_r, Nat.Div0.mod_same, Nat.div_same by done.
      rewrite Hmicro. simpl. by rewrite He.
    + apply list_fmap_ext. intros _ k _. simpl.
      replace (length micro + S k) with (1 + k + 1 * length micro) by lia.
      rewrite Nat.Div0.mod_add, Nat.div_add by done. rewrite He. f_equal.
      change (1 + k) with (S k). generalize (S k / length micro). intros q. lia.
  - destruct Hnext as (self1 & -> & [Hds Hg] & He & Hrem1).
    assert (Hlt : j < length micro).
    { apply (f_equal length) in Hdrop. rewrite length_drop in Hdrop. simpl in Hdrop.
      clear IH. lia. }
    assert (Hm : micro !!! j = m).
    { apply list_lookup_total_correct.
      assert (drop j micro !! 0 = Some m) as H0 by (by rewrite Hdrop).
      rewrite lookup_drop, Nat.add_0_r in H0. done. }
    assert (Hl' : l' = drop (S j) micro).
    { replace (S j) with (j + 1) by lia. by rewrite <- drop_drop, Hdrop. }
    specialize (IH self1 (S j)).
    destruct (PipelineDataLoader.next_many iter n self1) as [res self2]. simpl in *.
    rewrite IH; [|by rewrite Hds, Hg|lia|by rewrite <- Hl'].
    f_equal.
    + rewrite Nat.add_0_r, Nat.mod_small, Nat.div_small by done.
      rewrite Hm, He. f_equal. lia.
    + apply list_fmap_ext. intros _ k _. simpl.
      rewrite He. by replace (j + S k) with (S (j + k)) by lia.
Qed.

End loader_facts.

(* ===================================================================== *)
(** * Splitting a batch into microbatches *)

Lemma chunks_length {A} g b (l : list A) fuel :
  1 ≤ b → length l = g * b → g ≤ fuel → length (chunks fuel b l) = g.
Proof.
  intros Hb. revert l fuel. induction g as [|g IH]; intros l fuel Hl Hf.
  - destruct l; [|done]. by destruct fuel.
  - destruct fuel as [|fuel]; [lia|].
    destruct l as [|x l]; [simpl in Hl; lia|].
    cbn [chunks length]. f_equal. apply IH; [|lia].
    rewrite length_drop, Hl. simpl. lia.
Qed.

Lemma zip_star_go_length {A} n (ls : list (list A)) :
  Forall (fun l => length l = n) ls → length (zip_star_go n ls) = n.
Proof.
  revert ls. induction n as [|n IH]; intros ls Hls; [done|]. simpl.
  assert (is_Some (mapM head ls)) as [hs ->].
  { apply mapM_is_Some. eapply Forall_impl; [exact Hls|].
    intros [|x l] Hl; [done|]. simpl. eauto. }
  simpl. f_equal. apply IH.
  apply Forall_fmap. eapply Forall_impl; [exact Hls|].
  intros [|x l] Hl; [done|]. simpl in *. lia.
Qed.

Lemma zip_star_length {A} n (ls : list (list A)) :
  ls ≠ [] → Forall (fun l => length l = n) ls → length (zip_star ls) = n.
Proof.
  intros Hne Hls. destruct ls as [|l ls]; [done|]. unfold zip_star.
  rewrite (Forall_inv Hls). by apply zip_star_go_length.
Qed.

Lemma torch_split_even b g rows :
  1 ≤ b → 1 ≤ g → length rows = b * g →
  ∃ cs, torch_split (Rows rows) b = Ok cs ∧ length cs = g.
Proof.
  intros Hb Hg Hl. unfold torch_split.
  destruct rows as [|r rows]; [simpl in Hl; nia|].
  destruct (b =? 0) eqn:Hb0; [apply Nat.eqb_eq in Hb0; lia|].
  eexists. split; [reflexivity|].
  rewrite length_map. apply chunks_length; [done|lia|].
  rewrite Hl. nia.
Qed.

Lemma for_each_torch_split_even b g batch :
  1 ≤ b → 1 ≤ g →
  Forall (fun t => ∃ rows, t = Rows rows ∧ length rows = b * g) batch →
  ∃ splits, for_each (fun x => torch_split x b) batch = Ok splits ∧
            length splits = length batch ∧
            Forall (fun cs => length cs = g) splits.
Proof.
  intros Hb Hg. induction 1 as [|t batch (rows & -> & Hl) _ (splits & IH & Hlen & Hall)].
  - exists []. by repeat split.
  - destruct (torch_split_even b g rows Hb Hg Hl) as (cs & Hcs & Hg').
    exists (cs :: splits). cbn [for_each]. rewrite Hcs, IH. simpl.
    repeat split; [by f_equal|]. by constructor.
Qed.

(** A batch with [b * g] rows per tensor is cut into exactly [g]
    microbatches. *)
Lemma split_batch_even b g batch :
  1 ≤ b → 1 ≤ g → even_batch b g batch →
  ∃ ms, split_batch batch g = Ok ms ∧ length ms = g.
Proof.
  intros Hb Hg [Hne Hall]. unfold split_batch.
  destruct batch as [|t ts]; [done|].
  destruct (Forall_inv Hall) as (rows & -> & Hl).
  cbn -[for_each Nat.div zip_star]. rewrite Hl.
  destruct g as [|g]; [lia|].
  rewrite Nat.div_mul by done.
  destruct (for_each_torch_split_even b (S g) (Rows rows :: ts) Hb Hg Hall)
    as (splits & -> & Hlen & Hsp).
  eexists. split; [reflexivity|].
  rewrite length_map. apply zip_star_length; [|done].
  by destruct splits.
Qed.

(** C7 (as the code has it).  The epoch counter of a new loader is 1.
    Over a dataset whose pass gives at least one microbatch, a call of
    [__next__] with microbatches left in the current pass returns the next
    of them and leaves the epoch as it is; a call with none left makes the
    iterator over the dataset anew, returns the first microbatch of the
    new pass and adds 1 to the epoch; so the [k]-th call (from 0) returns
    microbatch [k mod N] of the pass with epoch [1 + k / N], where [N] is
    the number of microbatches of a pass.  Over two batches of an even
    number of rows and [gradient_accumulation_steps = 2], the first four
    calls come with epoch 1 and the fifth, the first microbatch again,
    with epoch 2. *)
Theorem pipeline_loader_epochs {DS : Type} (iter : DS → trace (list tensor))
    (ds : DS) (g : nat) :
  PipelineDataLoader.epoch (PipelineDataLoader.__init__ iter ds g) = 1 ∧
  (∀ micro, pass_rest g (iter ds) micro → micro ≠ [] →
     (∀ (self : PipelineDataLoader.t) l,
        PipelineDataLoader.dataset self = ds →
        PipelineDataLoader.gradient_accumulation_steps self = g →
        loader_rem self l →
        match l with
        | m :: l' =>
            ∃ self', PipelineDataLoader.__next__ iter self = (Ok m, self') ∧
                     PipelineDataLoader.epoch self' = PipelineDataLoader.epoch self ∧
                     loader_rem self' l'
        | [] =>
            ∃ m l' self', micro = m :: l' ∧
                     PipelineDataLoader.__next__ iter self = (Ok m, self') ∧
                     PipelineDataLoader.epoch self' = PipelineDataLoader.epoch self + 1 ∧
                     loader_rem self' l'
        end) ∧
     (∀ n, (PipelineDataLoader.next_many iter n (PipelineDataLoader.__init__ iter ds g)).1 =
           map (fun k => (Ok (micro !!! (k mod length micro)), 1 + k / length micro))
               (seq 0 n))) ∧
  (g = 2 → ∀ b1 b2 rows,
     iter ds = trace_of_list [b1; b2] → 1 ≤ rows →
     even_batch rows 2 b1 → even_batch rows 2 b2 →
     ∃ m1 m2 m3 m4,
       (PipelineDataLoader.next_many iter 5 (PipelineDataLoader.__init__ iter ds g)).1 =
         [(Ok m1, 1); (Ok m2, 1); (Ok m3, 1); (Ok m4, 1); (Ok m1, 2)]).
Proof.
  assert (Hgen : ∀ micro, pass_rest g (iter ds) micro → micro ≠ [] →
            ∀ n, (PipelineDataLoader.next_many iter n (PipelineDataLoader.__init__ iter ds g)).1 =
                 map (fun k => (Ok (micro !!! (k mod length micro)), 1 + k / length micro))
                     (seq 0 n)).
  { intros micro Hpass Hne n.
    apply (next_many_spec iter micro (PipelineDataLoader.__init__ iter ds g) n 0);
      [done|done|lia|].
    exists micro. by split. }
  split; [done|]. split.
  - intros micro Hpass Hne. split; [|by apply Hgen].
    intros self l Hds Hg Hrem.
    pose proof (next_spec iter self micro l) as Hnext.
    rewrite Hds, Hg in Hnext. specialize (Hnext Hpass Hne Hrem).
    destruct l as [|m l'].
    + destruct Hnext as (m & l' & self' & ? & ? & _ & ? & ?). eauto 10.
    + destruct Hnext as (self' & ? & _ & ? & ?). eauto.
  - intros -> b1 b2 rows Hiter Hrows He1 He2.
    destruct (split_batch_even rows 2 b1 Hrows ltac:(lia) He1) as (ms1 & Hs1 & Hl1).
    destruct (split_batch_even rows 2 b2 Hrows ltac:(lia) He2) as (ms2 & Hs2 & Hl2).
    destruct ms1 as [|m1 [|m2 [|? ?]]]; try done.
    destruct ms2 as [|m3 [|m4 [|? ?]]]; try done.
    exists m1, m2, m3, m4.
    rewrite (Hgen [m1; m2; m3; m4]); [done| |done].
    rewrite Hiter.
    apply (pass_yield 2 b1 _ [m1; m2] [m3; m4] Hs1).
    apply (pass_yield 2 b2 _ [m3; m4] [] Hs2).
    constructor.
Qed.

Lemma pipeline_loader_epochs_witness :
  let b := [Rows [Scalar 1; Scalar 2]; Rows [Scalar 3; Scalar 4]] in
  ∃ m1 m2 m3 m4,
    (PipelineDataLoader.next_many trace_of_list 5
       (PipelineDataLoader.__init__ trace_of_list [b; b] 2)).1 =
      [(Ok m1, 1); (Ok m2, 1); (Ok m3, 1); (Ok m4, 1); (Ok m1, 2)].
Proof.
  intros b.
  destruct (pipeline_loader_epochs trace_of_list [b; b] 2) as (_ & _ & Hex).
  apply (Hex eq_refl b b 1 eq_refl); [lia| |];
    (split; [discriminate|]); repeat constructor; eexists; (split; [reflexivity|reflexivity]).
Defined.

(** C7, the claim as written fails: over a dataset that gives no batch
    (every bucket dropped), [__next__] finds the iterator exhausted, makes
    it anew, finds it exhausted again and ends with [StopIteration]; no
    microbatch comes and the epoch stays 1. *)
Lemma pipeline_loader_empty_dataset :
  ∃ self',
    PipelineDataLoader.__next__ trace_of_list
      (PipelineDataLoader.__init__ trace_of_list ([] : list (list tensor)) 2)
    = (Err StopIteration, self') ∧
    PipelineDataLoader.epoch self' = 1.
Proof. eexists. split; reflexivity. Qed.

(* ===================================================================== *)
(** * Iterating buckets *)

Lemma occ_cons_eq i l : occ i (i :: l) = S (occ i l).
Proof. unfold occ. by rewrite filter_cons_True. Qed.

Lemma occ_cons_ne i j l : j ≠ i → occ i (j :: l) = occ i l.
Proof. intros. unfold occ. by rewrite filter_cons_False. Qed.

Lemma occ_app i l1 l2 : occ i (l1 ++ l2) = occ i l1 + occ i l2.
Proof. unfold occ. by rewrite filter_app, length_app. Qed.

Lemma occ_perm i l1 l2 : l1 ≡ₚ l2 → occ i l1 = occ i l2.
Proof. intros Hp. unfold occ. by rewrite Hp. Qed.

Lemma occ_replicate i n j : occ i (replicate n j) = if decide (j = i) then n else 0.
Proof.
  induction n as [|n IH]; simpl; [by case_decide|].
  destruct (decide (j = i)) as [->|Hj].
  - by rewrite occ_cons_eq, IH.
  - by rewrite occ_cons_ne.
Qed.

(** The index list [[off]*f(x0) + [off+1]*f(x1) + ...] holds [i] as often
    as [f] says for the element at [i - off]. *)
Lemma occ_indices {A} (f : A → nat) off (xs : list A) i :
  occ i (concat (imap (fun k x => replicate (f x) (off + k)) xs)) =
    if decide (off ≤ i) then default 0 (f <$> xs !! (i - off)) else 0.
Proof.
  revert off. induction xs as [|x xs IH]; intros off.
  - simpl. by case_decide.
  - rewrite imap_cons. cbn [concat]. rewrite occ_app, occ_replicate.
    rewrite (imap_ext _ (fun k y => replicate (f y) (S off + k)))
      by (intros; unfold compose; f_equal; lia).
    rewrite IH. rewrite Nat.add_0_r.
    destruct (decide (off = i)) as [->|Hne].
    + rewrite (decide_False (P := S i ≤ i)), (decide_True (P := i ≤ i)) by lia.
      rewrite Nat.sub_diag. simpl. lia.
    + destruct (decide (off ≤ i)) as [Hle|Hgt].
      * rewrite (decide_True (P := S off ≤ i)) by lia.
        replace (i - off) with (S (i - S off)) by lia. done.
      * by rewrite (decide_False (P := S off ≤ i)) by lia.
Qed.

Lemma trace_of_results_for_each {A B} (f : A → result B) xs l :
  for_each f xs = Ok l →
  trace_of_results (map f xs) = trace_of_list l ∧ length l = length xs.
Proof.
  revert l. induction xs as [|x xs IH]; intros l; simpl.
  - by intros [= <-].
  - destruct (f x) as [y|e]; [|done]. simpl.
    destruct (for_each f xs) as [ys|e]; [|done]. simpl. intros [= <-].
    destruct (IH ys eq_refl) as [Ht Hl]. split.
    + rewrite Ht. done.
    + simpl. by rewrite Hl.
Qed.

Lemma bucket_dataset_iter ds l :
  samples_of ds l →
  SizeBucketDataset.__iter__ ds = trace_of_list l ∧ length l = SizeBucketDataset.__len__ ds.
Proof.
  intros Hs. apply trace_of_results_for_each in Hs as [Ht Hl].
  by rewrite length_seq in Hl.
Qed.

Lemma next_trace_of_list_cons {A} (x : A) l :
  next (trace_of_list (x :: l)) = (Ok x, trace_of_list l).
Proof. reflexivity. Qed.



Lemma bucket_datasets_iter dss sss :
  Forall2 samples_of dss sss →
  map SizeBucketDataset.__iter__ dss = map trace_of_list sss.
Proof.
  induction 1 as [|ds l dss ls Hds _ IH]; [done|]. simpl.
  destruct (bucket_dataset_iter _ _ Hds) as [-> _]. by rewrite IH.
Qed.


(* ===================================================================== *)
(** * Collating and slicing a batch *)

Lemma for_each_ok {A B} (f : A → result B) (g : A → B) l :
  Forall (fun x => f x = Ok (g x)) l → for_each f l = Ok (map g l).
Proof.
  induction 1 as [|x l Hx _ IH]; [done|]. simpl. by rewrite Hx, IH.
Qed.

Lemma torch_stack_uniform c sh :
  c ≠ [] → Forall (fun t => shape t = sh) c → torch_stack c = Ok (Rows c).
Proof.
  intros Hne Hc. destruct c as [|t ts]; [done|]. unfold torch_stack.
  assert (forallb (fun u => shape_eqb (shape u) (shape t)) ts = true) as ->; [|done].
  apply forallb_forall. intros u Hu. unfold shape_eqb.
  apply bool_decide_eq_true_2.
  rewrite Forall_forall in Hc.
  rewrite (Hc u), (Hc t); [done|left|right]. by apply list_elem_of_In.
Qed.

(** The columns of examples that all have the tensor shapes [sig]: each
    column takes one tensor from every example, all of one shape. *)
Lemma zip_star_go_uniform sig (examples : list (list tensor)) :
  Forall (fun s => map shape s = sig) examples →
  Forall (fun c => length c = length examples ∧ ∃ sh, Forall (fun t => shape t = sh) c)
         (zip_star_go (length sig) examples).
Proof.
  revert examples. induction sig as [|sh sig IH]; intros examples Hex; [constructor|].
  simpl.
  assert (∃ hs, mapM head examples = Some hs ∧ length hs = length examples ∧
                Forall (fun t => shape t = sh) hs) as (hs & -> & Hlen & Hsh).
  { induction Hex as [|s examples Hs _ (hs & IHm & IHl & IHs)].
    - exists []. by repeat split.
    - destruct s as [|t s]; [done|]. injection Hs as Ht Hs.
      exists (t :: hs). cbn. rewrite IHm. simpl.
      repeat split; [by f_equal|by constructor]. }
  constructor; [split; [done|by exists sh]|].
  rewrite <- (length_map tail examples). apply IH.
  apply Forall_fmap. eapply Forall_impl; [exact Hex|].
  intros [|t s] Hs; [done|]. by injection Hs.
Qed.

Lemma collate_uniform sig (examples : list (list tensor)) :
  examples ≠ [] →
  Forall (fun s => map shape s = sig) examples →
  Dataset._collate examples = Ok (map Rows (zip_star examples)) ∧
  Forall (fun c => length c = length examples) (zip_star examples).
Proof.
  intros Hne Hex.
  assert (Hcols : Forall (fun c => length c = length examples ∧
                                   ∃ sh, Forall (fun t => shape t = sh) c)
                         (zip_star examples)).
  { destruct examples as [|s examples]; [done|]. unfold zip_star.
    assert (length s = length sig) as ->
      by (by rewrite <- (Forall_inv Hex), length_map).
    by apply zip_star_go_uniform. }
  split.
  - unfold Dataset._collate. apply for_each_ok.
    eapply Forall_impl; [exact Hcols|]. intros c [Hlen [sh Hsh]].
    apply (torch_stack_uniform c sh); [|done].
    intros ->. destruct examples; [done|]. simpl in Hlen. lia.
  - eapply Forall_impl; [exact Hcols|]. by intros c [? _].
Qed.



(* ===================================================================== *)
(** * Iterating the dataset *)


Lemma default_lookup_insert {A} (rems : list (list A)) i j x :
  default [] (<[i := x]> rems !! j) =
    if decide (i = j ∧ i < length rems) then x else default [] (rems !! j).
Proof.
  destruct (decide (i = j)) as [->|Hne].
  - destruct (decide (j < length rems)) as [Hlt|Hge].
    + rewrite list_lookup_insert_eq by done. by rewrite decide_True.
    + rewrite list_insert_ge by lia. by rewrite decide_False by lia.
  - rewrite list_lookup_insert_ne by done. by rewrite decide_False by (intros [? _]; done).
Qed.


Section dataset_iteration.
Context `{P : PIL} `{M : @Model P}.


End dataset_iteration.

(* ===================================================================== *)
(** * What post_init leaves behind *)

Section post_init_facts.
Context `{G : Generator} `{P : PIL}.






End post_init_facts.





(* ===================================================================== *)
(** * The ladder of size buckets *)

Lemma size_bucket_loop_spec (c : bucket_config) min max step :
  min_bucket_reso c = Some min →
  max_bucket_reso c = Some max →
  bucket_reso_steps c = Some step →
  (0 < step)%Z →
  ∀ fuel side1 side2 acc,
    Z.to_nat (max - side1 + 1) ≤ fuel →
    ∃ S, size_bucket_loop fuel c side1 side2 acc = Some (Ok S) ∧
         ∀ x, x ∈ S ↔
              x ∈ acc ∨
              ∃ k, (0 ≤ k)%Z ∧ (side1 + k * step ≤ max)%Z ∧ (min ≤ side2 - k * step)%Z ∧
                   (x = (side1 + k * step, side2 - k * step)%Z ∨
                    x = (side2 - k * step, side1 + k * step)%Z).
Proof.
  intros Hmin Hmax Hstep Hpos fuel.
  induction fuel as [|fuel IH]; intros side1 side2 acc Hfuel.
  - cbn [size_bucket_loop]. rewrite Hmax.
    destruct (side1 <=? max)%Z eqn:H1; [apply Z.leb_le in H1; lia|].
    apply Z.leb_gt in H1. simpl. eexists. split; [done|].
    intros x. split; [by left|]. intros [?|(k & ? & ? & _)]; [done|nia].
  - cbn [size_bucket_loop]. rewrite Hmax.
    destruct (side1 <=? max)%Z eqn:H1; simpl.
    + apply Z.leb_le in H1. rewrite Hmin.
      destruct (side2 >=? min)%Z eqn:H2; simpl.
      * rewrite Hstep. apply Z.geb_le in H2.
        destruct (IH (side1 + step)%Z (side2 - step)%Z
                    ({[(side2, side1)]} ∪ ({[(side1, side2)]} ∪ acc))) as (S & -> & HS); [lia|].
        exists S. split; [done|]. intros x. rewrite HS. split.
        -- intros [Hx|(k & Hk & Hk1 & Hk2 & Hx)].
           ++ apply elem_of_union in Hx as [Hx|Hx].
              ** apply elem_of_singleton in Hx. right. exists 0%Z.
                 rewrite Z.mul_0_l, Z.add_0_r, Z.sub_0_r. repeat split; try lia. by right.
              ** apply elem_of_union in Hx as [Hx|Hx]; [|by left].
                 apply elem_of_singleton in Hx. right. exists 0%Z.
                 rewrite Z.mul_0_l, Z.add_0_r, Z.sub_0_r. repeat split; try lia. by left.
           ++ right. exists (k + 1)%Z. repeat split; try lia.
              replace (side1 + (k + 1) * step)%Z with (side1 + step + k * step)%Z by lia.
              replace (side2 - (k + 1) * step)%Z with (side2 - step - k * step)%Z by lia.
              done.
        -- intros [Hx|(k & Hk & Hk1 & Hk2 & Hx)].
           { left. apply elem_of_union_r, elem_of_union_r, Hx. }
           destruct (decide (k = 0%Z)) as [->|Hk0].
           ++ rewrite Z.mul_0_l, Z.add_0_r, Z.sub_0_r in Hx. left.
              destruct Hx as [->| ->].
              ** apply elem_of_union_r, elem_of_union_l, elem_of_singleton. done.
              ** apply elem_of_union_l, elem_of_singleton. done.
           ++ right. exists (k - 1)%Z. repeat split; try lia.
              replace (side1 + step + (k - 1) * step)%Z with (side1 + k * step)%Z by lia.
              replace (side2 - step - (k - 1) * step)%Z with (side2 - k * step)%Z by lia.
              done.
      * assert (side2 < min)%Z as H2' by (destruct (Z.geb_spec side2 min); [done|lia]).
        eexists. split; [done|].
        intros x. split; [by left|]. intros [?|(k & ? & _ & ? & _)]; [done|nia].
    + apply Z.leb_gt in H1. eexists. split; [done|].
      intros x. split; [by left|]. intros [?|(k & ? & ? & _)]; [done|nia].
Qed.

Lemma size_bucket_loop_diverges (c : bucket_config) min max step :
  min_bucket_reso c = Some min →
  max_bucket_reso c = Some max →
  bucket_reso_steps c = Some step →
  (step ≤ 0)%Z →
  ∀ fuel side1 side2 acc,
    (side1 ≤ max)%Z → (min ≤ side2)%Z →
    size_bucket_loop fuel c side1 side2 acc = None.
Proof.
  intros Hmin Hmax Hstep Hneg fuel.
  induction fuel as [|fuel IH]; intros side1 side2 acc H1 H2;
    cbn [size_bucket_loop]; rewrite Hmax, Hmin, Hstep;
    apply Z.leb_le in H1 as H1'; apply Z.geb_le in H2 as H2'; rewrite H1', H2'; simpl.
  - done.
  - apply IH; lia.
Qed.

(** X1: the size buckets of a configuration with bucketing on and a
    positive step, given fuel for the loop: exactly the pairs
    [(res + k*step, res - k*step)] and their mirror images for the [k >= 0]
    that keep the larger side within [max] and the smaller within [min].
    So the set is symmetric and every bucket has the half-perimeter
    [2 * res]. *)
Theorem configured_size_buckets_ladder (c : bucket_config) min max step fuel :
  enable_bucket c = true →
  min_bucket_reso c = Some min →
  max_bucket_reso c = Some max →
  bucket_reso_steps c = Some step →
  (0 < step)%Z →
  Z.to_nat (max - resolution c + 1) ≤ fuel →
  ∃ S, configured_size_buckets fuel c = Some (Ok S) ∧
       (∀ a b, (a, b) ∈ S ↔
               ∃ k, (0 ≤ k)%Z ∧ (resolution c + k * step ≤ max)%Z ∧
                    (min ≤ resolution c - k * step)%Z ∧
                    ((a, b) = (resolution c + k * step, resolution c - k * step)%Z ∨
                     (a, b) = (resolution c - k * step, resolution c + k * step)%Z)) ∧
       (∀ a b, (a, b) ∈ S → (b, a) ∈ S) ∧
       (∀ a b, (a, b) ∈ S → (a + b = 2 * resolution c)%Z).
Proof.
  intros Hen Hmin Hmax Hstep Hpos Hfuel. unfold configured_size_buckets. rewrite Hen.
  destruct (size_bucket_loop_spec c min max step Hmin Hmax Hstep Hpos fuel
              (resolution c) (resolution c) ∅ Hfuel) as (S & -> & HS).
  assert (Hchar : ∀ a b, (a, b) ∈ S ↔
               ∃ k, (0 ≤ k)%Z ∧ (resolution c + k * step ≤ max)%Z ∧
                    (min ≤ resolution c - k * step)%Z ∧
                    ((a, b) = (resolution c + k * step, resolution c - k * step)%Z ∨
                     (a, b) = (resolution c - k * step, resolution c + k * step)%Z)).
  { intros a b. rewrite HS. split; [intros [Hx|Hx]; [by apply elem_of_empty in Hx|done]|by right]. }
  exists S. split; [done|]. split; [exact Hchar|]. split.
  - intros a b Hab. apply Hchar in Hab as (k & ? & ? & ? & Hab). apply Hchar.
    exists k. repeat split; try done.
    destruct Hab as [[= -> ->]|[= -> ->]]; [by right|by left].
  - intros a b Hab. apply Hchar in Hab as (k & ? & ? & ? & Hab).
    destruct Hab as [[= -> ->]|[= -> ->]]; lia.
Qed.

Lemma configured_size_buckets_ladder_witness :
  let c := {| resolution := 512; enable_bucket := true; min_bucket_reso := Some 256%Z;
              max_bucket_reso := Some 768%Z; bucket_reso_steps := Some 128%Z |} in
  ∃ S, configured_size_buckets 300 c = Some (Ok S) ∧ (640, 384)%Z ∈ S ∧ (384, 640)%Z ∈ S.
Proof.
  intros c.
  destruct (configured_size_buckets_ladder c 256 768 128 300)
    as (S & HS & Hchar & Hsym & _); try reflexivity; [subst c; simpl; lia|].
  exists S. split; [exact HS|].
  assert ((640, 384)%Z ∈ S) as Hin.
  { apply Hchar. exists 1%Z. simpl. repeat split; try lia. by left. }
  split; [exact Hin|]. by apply Hsym.
Defined.

(** X2: with bucketing on, a step that is zero or negative and a
    resolution within [min, max], the loop of the constructor never ends:
    no amount of fuel gives an answer. *)
Theorem configured_size_buckets_diverges (c : bucket_config) min max step :
  enable_bucket c = true →
  min_bucket_reso c = Some min →
  max_bucket_reso c = Some max →
  bucket_reso_steps c = Some step →
  (step ≤ 0)%Z →
  (min ≤ resolution c ≤ max)%Z →
  ∀ fuel, configured_size_buckets fuel c = None.
Proof.
  intros Hen Hmin Hmax Hstep Hneg [H1 H2] fuel. unfold configured_size_buckets. rewrite Hen.
  by apply (size_bucket_loop_diverges c min max step).
Qed.

Lemma configured_size_buckets_diverges_witness :
  configured_size_buckets 1000
    {| resolution := 512; enable_bucket := true; min_bucket_reso := Some 256%Z;
       max_bucket_reso := Some 768%Z; bucket_reso_steps := Some 0%Z |} = None.
Proof.
  apply (configured_size_buckets_diverges _ 256 768 0); try reflexivity; simpl; lia.
Defined.

(* ===================================================================== *)
(** * Synchronising the epoch *)

Lemma fold_max_epoch (l : list nat) (init : Z) :
  let r := foldl (fun (max_epoch : Z) (epoch : nat) => Z.max (Z.of_nat epoch) max_epoch) init l in
  (init ≤ r)%Z ∧
  (∀ e, e ∈ l → (Z.of_nat e ≤ r)%Z) ∧
  (r = init ∨ ∃ e, e ∈ l ∧ r = Z.of_nat e).
Proof.
  revert init. induction l as [|x l IH]; intros init; cbn [foldl].
  - cbv zeta. split; [lia|]. split; [by intros e ?%elem_of_nil|by left].
  - specialize (IH (Z.max (Z.of_nat x) init)). cbv zeta in IH |- *.
    set (r := foldl _ _ l) in *. destruct IH as (Hge & Hall & Hin).
    split; [lia|]. split.
    + intros e [->|He]%elem_of_cons; [lia|by apply Hall].
    + destruct Hin as [Heq|(e & He & Heq)].
      * destruct (Z.max_spec (Z.of_nat x) init) as [[_ Hm]|[_ Hm]].
        -- left. lia.
        -- right. exists x. split; [left|lia].
      * right. exists e. split; [by right|done].
Qed.

(** X3: [sync_epoch] sets the epoch to the largest epoch among all
    processes: no gathered epoch is larger, it is one of them, it is never
    below the epoch the process had, and every other field of the loader
    (the dataset, the number of accumulation steps, the iterator, the
    pending microbatches, the count of batches pulled) stays as it was.
    Two processes that gathered the same list end with the same epoch. *)
Theorem sync_epoch_is_max {DS : Type} (before after : list nat)
    (self : @PipelineDataLoader.t DS) :
  let self' := PipelineDataLoader.sync_epoch before after self in
  let gathered := before ++ [PipelineDataLoader.epoch self] ++ after in
  (∀ e, e ∈ gathered → e ≤ PipelineDataLoader.epoch self') ∧
  PipelineDataLoader.epoch self' ∈ gathered ∧
  PipelineDataLoader.epoch self ≤ PipelineDataLoader.epoch self' ∧
  PipelineDataLoader.dataset self' = PipelineDataLoader.dataset self ∧
  PipelineDataLoader.gradient_accumulation_steps self' =
    PipelineDataLoader.gradient_accumulation_steps self ∧
  PipelineDataLoader.dataloader self' = PipelineDataLoader.dataloader self ∧
  PipelineDataLoader.pending self' = PipelineDataLoader.pending self ∧
  PipelineDataLoader.num_batches_pulled self' = PipelineDataLoader.num_batches_pulled self ∧
  (∀ (other : @PipelineDataLoader.t DS) before' after',
     before' ++ [PipelineDataLoader.epoch other] ++ after' = gathered →
     PipelineDataLoader.epoch (PipelineDataLoader.sync_epoch before' after' other)
       = PipelineDataLoader.epoch self').
Proof.
  intros self' gathered.
  destruct (fold_max_epoch gathered (-1)) as (Hge & Hall & Hin).
  assert (Hown : PipelineDataLoader.epoch self ∈ gathered).
  { unfold gathered. apply elem_of_app. right. apply elem_of_app. left. apply elem_of_cons. by left. }
  pose proof (Hall _ Hown) as Hown'.
  destruct Hin as [Heq|(e & He & Heq)]; [lia|].
  assert (Hep : PipelineDataLoader.epoch self' = e).
  { unfold self', PipelineDataLoader.sync_epoch. cbn [PipelineDataLoader.epoch].
    fold gathered. rewrite Heq. apply Nat2Z.id. }
  rewrite Hep. repeat split; try done.
  - intros e' He'. specialize (Hall _ He'). lia.
  - lia.
  - intros other before' after' Hsame.
    unfold PipelineDataLoader.sync_epoch. cbn [PipelineDataLoader.epoch].
    rewrite Hsame. rewrite Heq. apply Nat2Z.id.
Qed.

Lemma sync_epoch_is_max_witness :
  5 ≤ PipelineDataLoader.epoch (PipelineDataLoader.sync_epoch [3] [5; 2] demo_loader).
Proof.
  apply (proj1 (sync_epoch_is_max [3] [5; 2] demo_loader)).
  do 2 apply list_elem_of_further. apply list_elem_of_here.
Defined.

(* ===================================================================== *)
(** * Cutting a batch into microbatches *)

Lemma chunks_concat {A} fuel k (l : list A) :
  1 ≤ k → length l ≤ fuel → concat (chunks fuel k l) = l.
Proof.
  intros Hk. revert l. induction fuel as [|fuel IH]; intros l Hl.
  - destruct l; [done|simpl in Hl; lia].
  - destruct l as [|x l]; [done|]. cbn [chunks concat].
    rewrite IH by (rewrite length_drop; simpl in *; lia).
    apply take_drop.
Qed.

Lemma chunks_size {A} g b (l : list A) fuel :
  1 ≤ b → length l = g * b → g ≤ fuel → Forall (fun c => length c = b) (chunks fuel b l).
Proof.
  intros Hb. revert l fuel. induction g as [|g IH]; intros l fuel Hl Hf.
  - destruct l; [|done]. destruct fuel; constructor.
  - destruct fuel as [|fuel]; [lia|].
    destruct l as [|x l]; [simpl in Hl; lia|].
    cbn [chunks]. constructor.
    + rewrite length_take, Hl. simpl. lia.
    + apply IH; [|lia]. rewrite length_drop, Hl. simpl. lia.
Qed.

Lemma chunks_length_ceil {A} fuel k (l : list A) :
  1 ≤ k → length l ≤ fuel → length (chunks fuel k l) = (length l + k - 1) / k.
Proof.
  intros Hk. revert l. induction fuel as [|fuel IH]; intros l Hl.
  - destruct l; [|simpl in Hl; lia]. simpl. symmetry. apply Nat.div_small. lia.
  - destruct l as [|x l]; [simpl; symmetry; apply Nat.div_small; lia|].
    cbn [chunks length]. rewrite IH by (rewrite length_drop; simpl in *; lia).
    rewrite length_drop. cbn [length]. set (n := S (length l)).
    assert (1 ≤ n) by (unfold n; lia).
    destruct (decide (n ≤ k)) as [Hle|Hgt].
    + replace (n - k + k - 1) with (k - 1) by lia.
      rewrite Nat.div_small by lia.
      apply (Nat.div_unique _ _ _ (n - 1)); lia.
    + replace (n + k - 1) with ((n - k + k - 1) + 1 * k) by lia.
      rewrite Nat.div_add by lia. lia.
Qed.

(** The columns [zip] makes of lists of one length: column [j] takes
    element [j] of every list. *)
Lemma zip_star_go_lookup {A} n (ls : list (list A)) j :
  Forall (fun l => length l = n) ls → j < n →
  ∃ col, zip_star_go n ls !! j = Some col ∧ Forall2 (fun l x => l !! j = Some x) ls col.
Proof.
  revert ls j. induction n as [|n IH]; intros ls j Hls Hj; [lia|].
  cbn [zip_star_go].
  assert (is_Some (mapM head ls)) as [hs Hhs].
  { apply mapM_is_Some. eapply Forall_impl; [exact Hls|].
    intros [|x l] Hl; [done|]. simpl. eauto. }
  rewrite Hhs. destruct j as [|j].
  - exists hs. split; [done|]. apply mapM_Some in Hhs.
    eapply Forall2_impl; [exact Hhs|]. intros l x Hx. by rewrite <- head_lookup.
  - destruct (IH (map tail ls) j) as (col & Hcol & Hf); [|lia|].
    { apply Forall_fmap. eapply Forall_impl; [exact Hls|].
      intros [|x l] Hl; [done|]. simpl in *. lia. }
    exists col. split; [done|].
    apply Forall2_fmap_l in Hf. eapply Forall2_impl; [exact Hf|].
    intros l x Hx. simpl in Hx. by rewrite lookup_tail in Hx.
Qed.

(** The chunks [torch.split] makes of every tensor of a batch whose
    tensors all have rows. *)
Lemma for_each_torch_split s batch :
  1 ≤ s →
  Forall (fun t => ∃ rows, t = Rows rows ∧ rows ≠ []) batch →
  for_each (fun x => torch_split x s) batch =
    Ok (map (fun t => map Rows (chunks (length (rows_of t)) s (rows_of t))) batch).
Proof.
  intros Hs Hall. apply for_each_ok.
  eapply Forall_impl; [exact Hall|]. intros t (rows & -> & Hne).
  unfold torch_split. destruct rows as [|r rows]; [done|].
  destruct (s =? 0) eqn:Hs0; [apply Nat.eqb_eq in Hs0; lia|]. done.
Qed.

Lemma split_batch_pieces b g batch :
  1 ≤ b → 1 ≤ g → even_batch b g batch →
  ∃ ms, split_batch batch g = Ok ms ∧ length ms = g ∧
        ∀ k, k < g →
          ∃ col, ms !! k = Some (col, None) ∧
                 Forall2 (fun t piece =>
                            ∃ c, chunks (length (rows_of t)) b (rows_of t) !! k = Some c ∧
                                 length c = b ∧ piece = Rows c) batch col.
Proof.
  intros Hb Hg [Hne Hall]. unfold split_batch.
  destruct batch as [|t ts]; [done|].
  destruct (Forall_inv Hall) as (rows & -> & Hl).
  cbn -[for_each Nat.div zip_star]. rewrite Hl.
  destruct g as [|g]; [lia|].
  rewrite Nat.div_mul by done.
  rewrite for_each_torch_split; [|done|].
  2:{ eapply Forall_impl; [exact Hall|]. intros t (r & -> & Hr).
      exists r. split; [done|]. intros ->. simpl in Hr. nia. }
  set (splits := map (fun t => map Rows (chunks (length (rows_of t)) b (rows_of t)))
                     (Rows rows :: ts)).
  cbn [bind].
  assert (Hsp : Forall (fun sp => length sp = S g) splits).
  { unfold splits. apply Forall_fmap. eapply Forall_impl; [exact Hall|].
    intros t (r & -> & Hr). simpl. rewrite length_map.
    apply chunks_length; [done|lia|]. rewrite Hr. nia. }
  assert (Hz : zip_star splits = zip_star_go (S g) splits).
  { unfold splits at 1. cbn [map zip_star]. fold splits.
    f_equal. exact (Forall_inv Hsp). }
  eexists. split; [reflexivity|]. rewrite Hz. split.
  { rewrite length_map. by apply zip_star_go_length. }
  intros k Hk. destruct (zip_star_go_lookup (S g) splits k Hsp Hk) as (col & Hcol & Hf).
  exists col. split; [by rewrite list_lookup_fmap, Hcol|].
  unfold splits in Hf. apply Forall2_fmap_l in Hf.
  apply Forall2_same_length_lookup_2; [by eapply Forall2_length|].
  intros j t piece Ht Hp.
  pose proof (Forall2_lookup_lr _ _ _ _ _ _ Hf Ht Hp) as Hx. simpl in Hx.
  rewrite list_lookup_fmap in Hx.
  destruct (chunks (length (rows_of t)) b (rows_of t) !! k) as [c|] eqn:Hc; [|done].
  injection Hx as <-. exists c. split; [done|]. split; [|done].
  pose proof (Forall_lookup_1 _ _ _ _ Hall Ht) as (r & -> & Hr). simpl in Hc.
  assert (Hsz : Forall (fun c => length c = b) (chunks (length r) b r)).
  { apply (chunks_size (S g)); [done|lia|]. rewrite Hr. nia. }
  by apply (Forall_lookup_1 _ _ _ _ Hsz Hc).
Qed.

(** X4: a batch whose tensors all have [b * g] rows is cut into exactly
    [g] microbatches; each has a piece of [b] rows of every tensor and the
    label [None]; and the pieces of a tensor, in the order of the
    microbatches, are its rows again: none lost, repeated or reordered. *)
Theorem split_batch_round_trip b g batch :
  1 ≤ b → 1 ≤ g → even_batch b g batch →
  ∃ ms, split_batch batch g = Ok ms ∧ length ms = g ∧
        Forall (fun m : microbatch =>
                  m.2 = None ∧ length m.1 = length batch ∧
                  Forall (fun t => size0 t = Ok b) m.1) ms ∧
        ∀ j rows, batch !! j = Some (Rows rows) → rejoined ms j = rows.
Proof.
  intros Hb Hg Hev.
  destruct (split_batch_pieces b g batch Hb Hg Hev) as (ms & Hms & Hlen & Hk).
  exists ms. split; [done|]. split; [done|]. split.
  - apply Forall_lookup_2. intros k m Hm.
    assert (k < g) as Hlt by (rewrite <- Hlen; by eapply lookup_lt_Some).
    destruct (Hk k Hlt) as (col & Hcol & Hf). rewrite Hm in Hcol. injection Hcol as ->.
    split; [done|]. split; [symmetry; by eapply Forall2_length|]. simpl.
    apply Forall_lookup_2. intros j piece Hp.
    destruct (Forall2_lookup_r _ _ _ _ _ Hf Hp) as (t & _ & c & _ & Hc & ->).
    simpl. by rewrite Hc.
  - intros j rows Hj. unfold rejoined.
    destruct Hev as [_ Hall].
    pose proof (Forall_lookup_1 _ _ _ _ Hall Hj) as (r & [= <-] & Hr).
    transitivity (concat (chunks (length rows) b rows)); [|by apply chunks_concat].
    f_equal.
    apply list_eq. intros k. rewrite list_lookup_fmap.
    destruct (decide (k < g)) as [Hlt|Hge].
    + destruct (Hk k Hlt) as (col & -> & Hf). simpl.
      destruct (Forall2_lookup_l _ _ _ _ _ Hf Hj) as (piece & -> & c & Hc & _ & ->).
      simpl in *. by rewrite Hc.
    + rewrite (lookup_ge_None_2 ms) by lia. simpl. symmetry.
      apply lookup_ge_None_2.
      rewrite (chunks_length g); [lia|done|rewrite Hr; lia|rewrite Hr; nia].
Qed.

Lemma split_batch_round_trip_witness :
  ∃ ms, split_batch [Rows [Scalar 1; Scalar 2; Scalar 3; Scalar 4]] 2 = Ok ms ∧
        rejoined ms 0 = [Scalar 1; Scalar 2; Scalar 3; Scalar 4].
Proof.
  destruct (split_batch_round_trip 2 2 [Rows [Scalar 1; Scalar 2; Scalar 3; Scalar 4]])
    as (ms & Hms & _ & _ & Hj); [lia|lia| |].
  - split; [done|]. repeat constructor. eexists. split; reflexivity.
  - exists ms. split; [exact Hms|]. by apply Hj.
Defined.

(** X5: what [split_batch] refuses.  An empty batch and a batch whose
    first tensor has no dimensions raise IndexError; zero pieces raise
    ZeroDivisionError; and a batch with rows, but fewer than there are
    pieces, raises RuntimeError, because the chunk size comes out as 0. *)
Theorem split_batch_errors :
  (∀ pieces, split_batch [] pieces = Err IndexError) ∧
  (∀ v ts pieces, split_batch (Scalar v :: ts) pieces = Err IndexError) ∧
  (∀ rows ts, split_batch (Rows rows :: ts) 0 = Err ZeroDivisionError) ∧
  (∀ rows ts pieces, 0 < length rows < pieces →
     split_batch (Rows rows :: ts) pieces = Err RuntimeError).
Proof.
  split; [done|]. split; [done|]. split; [done|].
  intros rows ts pieces [Hpos Hlt]. unfold split_batch.
  cbn -[for_each Nat.div zip_star].
  destruct pieces as [|pieces]; [lia|].
  rewrite Nat.div_small by done. cbn [for_each].
  destruct rows as [|r rows]; [simpl in Hpos; lia|]. done.
Qed.

Lemma split_batch_errors_witness :
  split_batch [Rows [Scalar 7]; Rows [Scalar 8]] 2 = Err RuntimeError.
Proof.
  apply (proj2 (proj2 (proj2 split_batch_errors))). simpl. lia.
Defined.

(** X6: the number of microbatches when every tensor of the batch has [n]
    rows and there are at most [n] pieces: [n] over the chunk size
    [n // pieces], rounded up.  That is [pieces] when [pieces] divides [n]
    and more than [pieces] when it does not. *)
Theorem split_batch_count n pieces batch :
  batch ≠ [] →
  Forall (fun t => ∃ rows, t = Rows rows ∧ length rows = n) batch →
  1 ≤ pieces → pieces ≤ n →
  ∃ ms, split_batch batch pieces = Ok ms ∧
        length ms = (n + n / pieces - 1) / (n / pieces) ∧
        (n mod pieces = 0 → length ms = pieces) ∧
        (n mod pieces ≠ 0 → pieces < length ms).
Proof.
  intros Hne Hall Hp Hn. unfold split_batch.
  destruct batch as [|t ts]; [done|].
  destruct (Forall_inv Hall) as (rows & -> & Hl).
  cbn -[for_each Nat.div zip_star]. rewrite Hl.
  destruct pieces as [|pieces]; [lia|].
  set (s := n / S pieces).
  assert (Hs : 1 ≤ s) by (apply Nat.div_le_lower_bound; lia).
  pose proof (Nat.div_mod_eq n (S pieces)) as Hdm. fold s in Hdm.
  pose proof (Nat.mod_upper_bound n (S pieces) ltac:(lia)) as Hr.
  rewrite for_each_torch_split; [|done|].
  2:{ eapply Forall_impl; [exact Hall|]. intros t (r & -> & Hlr).
      exists r. split; [done|]. intros ->. simpl in Hlr. lia. }
  set (splits := map (fun t => map Rows (chunks (length (rows_of t)) s (rows_of t)))
                     (Rows rows :: ts)).
  cbn [bind].
  assert (Hsp : Forall (fun sp => length sp = (n + s - 1) / s) splits).
  { unfold splits. apply Forall_fmap. eapply Forall_impl; [exact Hall|].
    intros t (r & -> & Hlr). simpl. rewrite length_map.
    rewrite chunks_length_ceil by (done || lia). by rewrite Hlr. }
  eexists. split; [reflexivity|]. rewrite length_map.
  rewrite (zip_star_length ((n + s - 1) / s)) by done.
  split; [done|]. split.
  - intros H0. rewrite H0 in Hdm.
    symmetry. apply (Nat.div_unique _ _ _ (s - 1)); lia.
  - intros H0. apply Nat.div_le_lower_bound; [lia|]. nia.
Qed.

Lemma split_batch_count_witness :
  ∃ ms, split_batch [Rows [Scalar 1; Scalar 2; Scalar 3; Scalar 4; Scalar 5]] 2 = Ok ms ∧
        2 < length ms.
Proof.
  destruct (split_batch_count 5 2 [Rows [Scalar 1; Scalar 2; Scalar 3; Scalar 4; Scalar 5]])
    as (ms & Hms & _ & _ & Hmore); [done| |lia|lia|].
  - repeat constructor. eexists. split; reflexivity.
  - exists ms. split; [exact Hms|]. apply Hmore. done.
Defined.

(* ===================================================================== *)
(** * One pass over a bucket *)

Lemma set_rng_same `{G : Generator} (p : process) : set_rng (rng p) p = p.
Proof. by destruct p. Qed.

Lemma indices_length {A} (f : A → nat) (g : nat → nat) (xs : list A) :
  length (concat (imap (fun k x => replicate (f x) (g k)) xs)) = sum_list (map f xs).
Proof.
  revert g. induction xs as [|x xs IH]; intros g; [done|].
  rewrite imap_cons. cbn [concat map sum_list]. rewrite length_app, length_replicate.
  f_equal. apply (IH (g ∘ S)).
Qed.

Lemma concat_insert_head_perm {A} (rems : list (list A)) i x rem :
  rems !! i = Some (x :: rem) → concat rems ≡ₚ x :: concat (<[i := rem]> rems).
Proof.
  revert i. induction rems as [|r rems IH]; intros [|i] Hi; simplify_eq/=; [done|].
  rewrite (IH i Hi). symmetry. apply Permutation_middle.
Qed.

Lemma concat_all_nil {A} (rems : list (list A)) :
  (∀ i, 0 = length (default [] (rems !! i))) → concat rems = [].
Proof.
  induction rems as [|r rems IH]; intros H0; [done|]. simpl.
  pose proof (H0 0) as Hr. simpl in Hr. destruct r; [|done]. simpl.
  apply IH. intros i. exact (H0 (S i)).
Qed.

(** [ConcatenatedDataset.__iter__] when no member runs out: sample [k]
    is the next sample of the member the order names at [k]; and when the
    order names every member as often as it has samples, the pass gives
    every sample exactly once. *)
Lemma concatenated_iter_exact order (rems : list (list (list tensor))) :
  (∀ i, occ i order ≤ length (default [] (rems !! i))) →
  ∃ l, ConcatenatedDataset.iter_from (map trace_of_list rems) order = trace_of_list l ∧
       length l = length order ∧
       (∀ k i, order !! k = Some i →
               l !! k = default [] (rems !! i) !! occ i (take k order)) ∧
       ((∀ i, occ i order = length (default [] (rems !! i))) → l ≡ₚ concat rems).
Proof.
  revert rems. induction order as [|i order IH]; intros rems Hocc.
  - exists []. repeat split; [done|]. intros H0. by rewrite concat_all_nil.
  - pose proof (Hocc i) as Hi. rewrite occ_cons_eq in Hi.
    destruct (rems !! i) as [rem|] eqn:Hrem; [|simpl in Hi; lia].
    destruct rem as [|x rem]; [simpl in Hi; lia|].
    cbn [ConcatenatedDataset.iter_from]. rewrite list_lookup_fmap, Hrem.
    cbn [fmap option_fmap option_map]. rewrite next_trace_of_list_cons.
    change (map trace_of_list rems) with (trace_of_list <$> rems).
    rewrite <- list_fmap_insert.
    change (trace_of_list <$> <[i:=rem]> rems) with (map trace_of_list (<[i:=rem]> rems)).
    assert (Hlt : i < length rems) by (by eapply lookup_lt_Some).
    destruct (IH (<[i := rem]> rems)) as (l & -> & Hl & Hk & Hperm).
    + intros j. rewrite default_lookup_insert.
      destruct (decide (i = j ∧ i < length rems)) as [[<- _]|Hne].
      * simpl in *. lia.
      * specialize (Hocc j). rewrite occ_cons_ne in Hocc; [done|].
        intros ->. by apply Hne.
    + exists (x :: l). split; [done|]. split; [simpl; by rewrite Hl|]. split.
      * intros [|k] j Hj; simpl in Hj.
        -- injection Hj as <-. by rewrite Hrem.
        -- change ((x :: l) !! S k) with (l !! k).
           change (take (S k) (i :: order)) with (i :: take k order).
           rewrite (Hk k j Hj), default_lookup_insert.
           destruct (decide (i = j ∧ i < length rems)) as [[<- _]|Hne].
           ++ by rewrite occ_cons_eq, Hrem.
           ++ rewrite occ_cons_ne; [done|]. intros ->. by apply Hne.
      * intros Hall. rewrite (concat_insert_head_perm rems i x rem Hrem).
        f_equiv. apply Hperm. intros j. rewrite default_lookup_insert.
        specialize (Hall j).
        destruct (decide (i = j ∧ i < length rems)) as [[<- _]|Hne].
        -- rewrite occ_cons_eq, Hrem in Hall. simpl in Hall. lia.
        -- rewrite occ_cons_ne in Hall; [done|]. intros ->. by apply Hne.
Qed.

Section bucket_pass.
Context `{G : Generator} `{P : PIL} `{M : @Model P} `{D : Datasets}.

Lemma init_order_occ (h : host) dss (p : process) i :
  occ i (ConcatenatedDataset.iteration_order (ConcatenatedDataset.__init__ h dss p).1) =
    default 0 (SizeBucketDataset.__len__ <$> dss !! i).
Proof.
  unfold ConcatenatedDataset.__init__. rewrite shuffle_with_seed_eq.
  cbn [fst ConcatenatedDataset.iteration_order].
  rewrite (occ_perm _ _ _ (shuffle_perm _ _)).
  unfold ConcatenatedDataset.indices_by_length.
  rewrite (occ_indices SizeBucketDataset.__len__ 0).
  by rewrite decide_True, Nat.sub_0_r by lia.
Qed.

End bucket_pass.

(** X7: the constructor of [ConcatenatedDataset] keeps the datasets,
    leaves the process (the generator state included) as it was, and makes
    an order that is a rearrangement of the members' indices: index [i]
    occurs as often as member [i] has samples, so the length is the sum of
    the members' lengths.  The order is the same on every host and in
    every process state. *)
Theorem concatenated_init_spec `{G : Generator} `{P : PIL} `{M : @Model P} `{D : Datasets}
    (h : host) (dss : list SizeBucketDataset.t) (p : process) :
  let r := ConcatenatedDataset.__init__ h dss p in
  r.2 = p ∧
  ConcatenatedDataset.datasets r.1 = dss ∧
  ConcatenatedDataset.iteration_order r.1 ≡ₚ ConcatenatedDataset.indices_by_length dss ∧
  (∀ i, occ i (ConcatenatedDataset.iteration_order r.1) =
        default 0 (SizeBucketDataset.__len__ <$> dss !! i)) ∧
  ConcatenatedDataset.__len__ r.1 = sum_list (map SizeBucketDataset.__len__ dss) ∧
  (∀ (h' : host) (q : process), (ConcatenatedDataset.__init__ h' dss q).1 = r.1).
Proof.
  intros r. split; [|split; [|split; [|split; [|split]]]].
  - unfold r, ConcatenatedDataset.__init__. rewrite shuffle_with_seed_eq. simpl.
    apply set_rng_same.
  - unfold r, ConcatenatedDataset.__init__. by rewrite shuffle_with_seed_eq.
  - unfold r, ConcatenatedDataset.__init__. rewrite shuffle_with_seed_eq. simpl.
    apply shuffle_perm.
  - intros i. apply init_order_occ.
  - unfold r, ConcatenatedDataset.__init__, ConcatenatedDataset.__len__.
    rewrite shuffle_with_seed_eq. simpl. rewrite (shuffle_perm _ _).
    unfold ConcatenatedDataset.indices_by_length.
    apply (indices_length SizeBucketDataset.__len__ (fun k => k)).
  - intros h' q. unfold r, ConcatenatedDataset.__init__.
    by rewrite !shuffle_with_seed_eq.
Qed.

(** X8: one pass over a bucket as its constructor leaves it, when every
    member can give all its samples: the pass yields every sample of every
    member exactly once, and sample [k] is the next unused sample of the
    member that the order names at position [k]. *)
Theorem concatenated_iter_exactly_once `{G : Generator} `{P : PIL} `{M : @Model P}
    `{D : Datasets} (h : host) (dss : list SizeBucketDataset.t)
    (sss : list (list (list tensor))) (p : process) :
  Forall2 samples_of dss sss →
  let b := (ConcatenatedDataset.__init__ h dss p).1 in
  ∃ l, ConcatenatedDataset.__iter__ b = trace_of_list l ∧
       l ≡ₚ concat sss ∧
       ∀ k i, ConcatenatedDataset.iteration_order b !! k = Some i →
              l !! k = default [] (sss !! i)
                         !! occ i (take k (ConcatenatedDataset.iteration_order b)).
Proof.
  intros Hs b.
  assert (Hocc : ∀ i, occ i (ConcatenatedDataset.iteration_order b) =
                      length (default [] (sss !! i))).
  { intros i. unfold b. rewrite init_order_occ.
    destruct (dss !! i) as [ds|] eqn:Hds; simpl.
    - destruct (Forall2_lookup_l _ _ _ _ _ Hs Hds) as (l & -> & Hsl). simpl.
      by destruct (bucket_dataset_iter _ _ Hsl) as [_ ->].
    - rewrite lookup_ge_None_2; [done|].
      rewrite <- (Forall2_length _ _ _ Hs). by apply lookup_ge_None_1. }
  destruct (concatenated_iter_exact (ConcatenatedDataset.iteration_order b) sss)
    as (l & Hl & _ & Hk & Hperm).
  { intros i. by rewrite Hocc. }
  exists l. split; [|split; [by apply Hperm|done]].
  unfold ConcatenatedDataset.__iter__.
  assert (ConcatenatedDataset.datasets b = dss) as ->.
  { unfold b, ConcatenatedDataset.__init__. by rewrite shuffle_with_seed_eq. }
  by rewrite (bucket_datasets_iter _ _ Hs).
Qed.

Lemma concatenated_iter_exactly_once_witness :
  ∃ l, ConcatenatedDataset.__iter__ (toy_bucket 3) = trace_of_list l ∧
       l ≡ₚ ok_or [] (for_each (SizeBucketDataset.__getitem__ (toy_bucket_dataset 3))
                        (seq 0 (SizeBucketDataset.__len__ (toy_bucket_dataset 3)))).
Proof.
  destruct (concatenated_iter_exactly_once toy_host [toy_bucket_dataset 3]
              [ok_or [] (for_each (SizeBucketDataset.__getitem__ (toy_bucket_dataset 3))
                           (seq 0 (SizeBucketDataset.__len__ (toy_bucket_dataset 3))))]
              toy_process) as (l & Hl & Hperm & _).
  - constructor; [|constructor]. unfold samples_of. vm_compute. reflexivity.
  - exists l. split; [exact Hl|]. cbn [concat] in Hperm. by rewrite app_nil_r in Hperm.
Defined.

(* ===================================================================== *)
(** * Captions and the constructor of a bucket dataset *)

Section captions.
Context `{G : Generator} `{P : PIL} `{M : @Model P} `{D : Datasets}.

Lemma process_caption_fn_text (h : host) st prefix ex (p : process) c text :
  get_str ex "caption_file" = Ok c →
  text_files h !! c = Some text →
  ∃ caption p',
    process_caption_fn h st prefix ex p = (Ok (Some (<["caption" := VStr caption]> ex)), p') ∧
    caption_from st prefix text caption ∧
    cache p' = cache p ∧ logged p' = logged p ∧
    default_new_fingerprint_args p' = default_new_fingerprint_args p ∧
    (st = false → p' = p).
Proof.
  intros Hc Ht. unfold process_caption_fn. rewrite Hc, Ht.
  destruct st.
  - destruct (random.shuffle (map strip (split "," (strip text))) (rng p)) as [tags s] eqn:Hsh.
    exists (prefix +:+ join ", " tags), (set_rng s p). repeat split; [|done].
    exists tags. split; [|done].
    change tags with (tags, s).1. rewrite <- Hsh. apply shuffle_perm.
  - exists (prefix +:+ strip text), p. by repeat split.
Qed.

Lemma get_str_file_row pr : get_str (file_row pr) "caption_file" = Ok pr.2.
Proof.
  unfold get_str, file_row. rewrite lookup_insert_ne by done.
  by rewrite lookup_singleton_eq.
Qed.

(** The caption transform over the rows of file names: it fails only
    when a caption file cannot be read. *)
Lemma map_rows_caption (h : host) st prefix pairs (p : process) :
  match map_rows (process_caption_fn h st prefix) (map file_row pairs) p with
  | (Ok out, p') =>
      Forall2 (fun pr row =>
                 ∃ text caption,
                   text_files h !! pr.2 = Some text ∧
                   caption_from st prefix text caption ∧
                   row = <["caption" := VStr caption]> (file_row pr)) pairs out ∧
      cache p' = cache p ∧ logged p' = logged p ∧
      default_new_fingerprint_args p' = default_new_fingerprint_args p ∧
      (st = false → p' = p)
  | (Err e, p') =>
      e = OSError ∧ Exists (fun pr => text_files h !! pr.2 = None) pairs ∧
      cache p' = cache p ∧ logged p' = logged p ∧
      default_new_fingerprint_args p' = default_new_fingerprint_args p ∧
      (st = false → p' = p)
  end.
Proof.
  revert p. induction pairs as [|pr pairs IH]; intros p.
  - simpl. by repeat split.
  - cbn [map map_rows].
    destruct (text_files h !! pr.2) as [text|] eqn:Ht.
    + destruct (process_caption_fn_text h st prefix (file_row pr) p pr.2 text
                  (get_str_file_row pr) Ht)
        as (caption & p1 & -> & Hcap & Hc1 & Hl1 & Hd1 & Hp1).
      specialize (IH p1).
      destruct (map_rows (process_caption_fn h st prefix) (map file_row pairs) p1)
        as [[out|e] p2].
      * destruct IH as (Hout & Hc2 & Hl2 & Hd2 & Hp2).
        split; [constructor; [by exists text, caption|done]|].
        split; [congruence|]. split; [congruence|]. split; [congruence|].
        intros Hst. rewrite Hp2, Hp1; done.
      * destruct IH as (-> & Hex & Hc2 & Hl2 & Hd2 & Hp2).
        split; [done|]. split; [by right|]. split; [congruence|]. split; [congruence|].
        split; [congruence|]. intros Hst. rewrite Hp2, Hp1; done.
    + unfold process_caption_fn at 1. rewrite get_str_file_row, Ht.
      split; [done|]. split; [by left|]. done.
Qed.

End captions.

(** X9: [process_caption_fn].  A row without a caption file name, or
    whose caption file cannot be read, makes it raise and leaves the
    process alone; otherwise it returns the row with the caption added:
    the prefix followed by the stripped text, or, with [shuffle_tags], by
    the stripped tags in a rearranged order joined with a comma and a
    blank.  It changes nothing of the process but, with [shuffle_tags],
    the state of the generator. *)
Theorem process_caption_fn_spec `{G : Generator} `{P : PIL} `{M : @Model P} `{D : Datasets}
    (h : host) (shuffle_tags : bool) (caption_prefix : string) (ex : example) (p : process) :
  match get_str ex "caption_file" with
  | Err e => process_caption_fn h shuffle_tags caption_prefix ex p = (Err e, p)
  | Ok c =>
      match text_files h !! c with
      | None => process_caption_fn h shuffle_tags caption_prefix ex p = (Err OSError, p)
      | Some text =>
          ∃ caption p',
            process_caption_fn h shuffle_tags caption_prefix ex p =
              (Ok (Some (<["caption" := VStr caption]> ex)), p') ∧
            caption_from shuffle_tags caption_prefix text caption ∧
            cache p' = cache p ∧ logged p' = logged p ∧
            default_new_fingerprint_args p' = default_new_fingerprint_args p ∧
            (shuffle_tags = false → p' = p)
      end
  end.
Proof.
  destruct (get_str ex "caption_file") as [c|e] eqn:Hc.
  - destruct (text_files h !! c) as [text|] eqn:Ht.
    + by apply (process_caption_fn_text h shuffle_tags caption_prefix ex p c text).
    + unfold process_caption_fn. by rewrite Hc, Ht.
  - unfold process_caption_fn. by rewrite Hc.
Qed.

Lemma process_caption_fn_spec_witness :
  ∃ caption,
    process_caption_fn demo_host false "" demo_row toy_process =
      (Ok (Some (<["caption" := VStr caption]> demo_row)), toy_process).
Proof.
  pose proof (process_caption_fn_spec demo_host false "" demo_row toy_process) as Hspec.
  change (get_str demo_row "caption_file") with (@Ok string "d/b.txt") in Hspec.
  cbv beta iota in Hspec.
  change (text_files demo_host !! "d/b.txt") with (Some "dog") in Hspec.
  cbv beta iota in Hspec.
  destruct Hspec as (caption & p' & Hrun & _ & _ & _ & _ & Hp).
  exists caption. rewrite Hrun. by rewrite (Hp eq_refl).
Defined.

Lemma delete_caption_file pr caption :
  delete "caption_file" (<["caption" := VStr caption]> (file_row pr)) =
    (<["caption" := VStr caption]> {[ "image_file" := VStr pr.1 ]} : example).
Proof.
  unfold file_row. rewrite delete_insert_ne by done. by f_equal.
Qed.

Lemma size_bucket_init_cases `{G : Generator} `{P : PIL} `{M : @Model P} `{D : Datasets}
    (h : host) (filepaths : list (string * string)) (cfg : directory_config)
    (sb : Z * Z) (p : process) :
  let st := default false (cfg_shuffle_tags cfg) in
  let prefix := default "" (cfg_caption_prefix cfg) in
  let dir := path cfg +:+ "/cache/cache_" +:+ pretty sb.1 +:+ "x" +:+ pretty sb.2 in
  let r := SizeBucketDataset.__init__ h filepaths cfg sb p in
  cache r.2 = makedirs dir (cache p) ∧
  default_new_fingerprint_args r.2 = default_new_fingerprint_args p ∧
  (st = false → rng r.2 = rng p) ∧
  (∃ m, logged r.2 = logged p ++ [{| lvl := INFO; msg := m |}]) ∧
  match r.1 with
  | Err e =>
      (e = ValueError ∧ filepaths = []) ∨
      (e = OSError ∧ filepaths ≠ [] ∧
       Exists (fun pr => text_files h !! pr.2 = None) filepaths)
  | Ok ds =>
      filepaths ≠ [] ∧
      SizeBucketDataset.filepaths ds ≡ₚ filepaths ∧
      (∀ os s, SizeBucketDataset.filepaths ds = (shuffle_with_seed filepaths (Some 0%Z) os s).1) ∧
      SizeBucketDataset.__len__ ds = length filepaths ∧
      SizeBucketDataset.size_bucket ds = sb ∧
      SizeBucketDataset.cache_dir ds = dir ∧
      SizeBucketDataset.latent_dataset ds = None ∧
      SizeBucketDataset.text_embedding_datasets ds = [] ∧
      Forall2 (fun pr row =>
                 ∃ text caption,
                   text_files h !! pr.2 = Some text ∧
                   caption_from st prefix text caption ∧
                   row = <["caption" := VStr caption]> {[ "image_file" := VStr pr.1 ]})
              (SizeBucketDataset.filepaths ds)
              (rows (SizeBucketDataset.image_file_and_caption_dataset ds))
  end.
Proof.
  intros st prefix dir r. unfold r, SizeBucketDataset.__init__.
  rewrite shuffle_with_seed_eq.
  set (files := (random.shuffle filepaths (random.seed (Some 0%Z) (urandom h))).1).
  assert (Hperm : files ≡ₚ filepaths) by apply shuffle_perm.
  cbv beta iota zeta. rewrite set_rng_same.
  change (default false (cfg_shuffle_tags (setdefaults cfg))) with st.
  change (default "" (cfg_caption_prefix (setdefaults cfg))) with prefix.
  change (path (setdefaults cfg)) with (path cfg). fold dir.
  set (p1 := set_cache _ _).
  destruct files as [|pr files'] eqn:Hfiles.
  - apply Permutation_nil_l in Hperm. subst filepaths.
    repeat split; [by eexists|by left].
  - set (files0 := pr :: files') in *.
    rewrite (map_ext _ file_row) by (by intros [? ?]).
    pose proof (map_rows_caption h st prefix files0 p1) as Hrows.
    assert (Hne : filepaths ≠ []).
    { intros ->. by apply Permutation_nil_r in Hperm. }
    destruct (map_rows (process_caption_fn h st prefix) (map file_row files0) p1)
      as [[out|e] p2].
    + destruct Hrows as (Hout & Hc & Hl & Hd & Hp).
      cbn [fst snd]. split; [by rewrite Hc|]. split; [by rewrite Hd|].
      split; [intros Hst; by rewrite (Hp Hst)|]. split; [rewrite Hl; by eexists|].
      split; [done|]. split; [done|]. split.
      { intros os s. rewrite shuffle_with_seed_eq. simpl. by rewrite <- Hfiles. }
      split.
      { unfold SizeBucketDataset.__len__. simpl. rewrite length_map.
        rewrite <- (Forall2_length _ _ _ Hout). by rewrite Hperm. }
      repeat split. simpl.
      apply Forall2_fmap_r. eapply Forall2_impl; [exact Hout|].
      intros pr' row (text & caption & Ht & Hcap & ->).
      exists text, caption. split; [done|]. split; [done|]. apply delete_caption_file.
    + destruct Hrows as (-> & Hex & Hc & Hl & Hd & Hp).
      cbn [fst snd]. split; [by rewrite Hc|]. split; [by rewrite Hd|].
      split; [intros Hst; by rewrite (Hp Hst)|]. split; [rewrite Hl; by eexists|].
      right. split; [done|]. split; [done|]. by rewrite <- Hperm.
Qed.

(** X10: the constructor of [SizeBucketDataset].  It fails with
    ValueError when there are no file pairs and with OSError when a caption
    file cannot be read, and succeeds otherwise.  On success the dataset
    has one row per pair, in the shuffled order of the pairs, each with the
    image file name and the caption made of its caption file, and nothing
    is cached yet.  Of the process it changes the cache directories only
    by creating its own, logs one line, and leaves the generator state as
    it was unless tags are shuffled. *)
Theorem size_bucket_init_spec `{G : Generator} `{P : PIL} `{M : @Model P} `{D : Datasets}
    (h : host) (filepaths : list (string * string)) (cfg : directory_config)
    (sb : Z * Z) (p : process) :
  let st := default false (cfg_shuffle_tags cfg) in
  let prefix := default "" (cfg_caption_prefix cfg) in
  let dir := path cfg +:+ "/cache/cache_" +:+ pretty sb.1 +:+ "x" +:+ pretty sb.2 in
  let r := SizeBucketDataset.__init__ h filepaths cfg sb p in
  cache r.2 = makedirs dir (cache p) ∧
  default_new_fingerprint_args r.2 = default_new_fingerprint_args p ∧
  (st = false → rng r.2 = rng p) ∧
  (∃ m, logged r.2 = logged p ++ [{| lvl := INFO; msg := m |}]) ∧
  match r.1 with
  | Err e =>
      (e = ValueError ∧ filepaths = []) ∨
      (e = OSError ∧ filepaths ≠ [] ∧
       Exists (fun pr => text_files h !! pr.2 = None) filepaths)
  | Ok ds =>
      filepaths ≠ [] ∧
      SizeBucketDataset.filepaths ds ≡ₚ filepaths ∧
      (∀ os s, SizeBucketDataset.filepaths ds = (shuffle_with_seed filepaths (Some 0%Z) os s).1) ∧
      SizeBucketDataset.__len__ ds = length filepaths ∧
      SizeBucketDataset.size_bucket ds = sb ∧
      SizeBucketDataset.cache_dir ds = dir ∧
      SizeBucketDataset.latent_dataset ds = None ∧
      SizeBucketDataset.text_embedding_datasets ds = [] ∧
      Forall2 (fun pr row =>
                 ∃ text caption,
                   text_files h !! pr.2 = Some text ∧
                   caption_from st prefix text caption ∧
                   row = <["caption" := VStr caption]> {[ "image_file" := VStr pr.1 ]})
              (SizeBucketDataset.filepaths ds)
              (rows (SizeBucketDataset.image_file_and_caption_dataset ds))
  end.
Proof. apply size_bucket_init_cases. Qed.

Lemma size_bucket_init_spec_witness :
  ∃ ds, (SizeBucketDataset.__init__ demo_host demo_filepaths demo_config (512, 512)%Z
           toy_process).1 = Ok ds ∧
        SizeBucketDataset.__len__ ds = 2.
Proof.
  pose proof (size_bucket_init_spec demo_host demo_filepaths demo_config (512, 512)%Z
                toy_process) as (_ & _ & _ & _ & Hr).
  set (r := SizeBucketDataset.__init__ demo_host demo_filepaths demo_config (512, 512)%Z
              toy_process) in *.
  assert (r.1 = Ok demo_bucket_dataset) as Hok by (vm_cast_no_check (eq_refl r.1)).
  rewrite Hok in Hr. destruct Hr as (_ & _ & _ & Hlen & _).
  exists demo_bucket_dataset. split; [exact Hok|exact Hlen].
Defined.

(** X11: a bucket dataset fresh from its constructor cannot be read
    before its latents are cached: every [__getitem__] raises
    AttributeError and so does the first step of iterating it, also after
    text embeddings have been cached. *)
Theorem uncached_dataset_unreadable `{G : Generator} `{P : PIL} `{M : @Model P}
    `{D : Datasets} (h : host) (filepaths : list (string * string))
    (cfg : directory_config) (sb : Z * Z) (p : process) ds p' :
  SizeBucketDataset.__init__ h filepaths cfg sb p = (Ok ds, p') →
  (∀ i, SizeBucketDataset.__getitem__ ds i = Err AttributeError) ∧
  SizeBucketDataset.__iter__ ds = Raise AttributeError ∧
  (∀ j q ds' q', SizeBucketDataset._cache_text_embedding ds j q = (Ok ds', q') →
     (∀ i, SizeBucketDataset.__getitem__ ds' i = Err AttributeError) ∧
     SizeBucketDataset.__iter__ ds' = Raise AttributeError).
Proof.
  intros Hinit.
  pose proof (size_bucket_init_cases h filepaths cfg sb p) as (_ & _ & _ & _ & Hr).
  rewrite Hinit in Hr. cbn [fst] in Hr.
  destruct Hr as (Hne & _ & _ & Hlen & _ & _ & Hlat & _).
  assert (Hraise : ∀ ds0, SizeBucketDataset.latent_dataset ds0 = None →
                          SizeBucketDataset.__len__ ds0 = length filepaths →
                          (∀ i, SizeBucketDataset.__getitem__ ds0 i = Err AttributeError) ∧
                          SizeBucketDataset.__iter__ ds0 = Raise AttributeError).
  { intros ds0 Hl0 Hn0.
    assert (Hget : ∀ i, SizeBucketDataset.__getitem__ ds0 i = Err AttributeError).
    { intros i. unfold SizeBucketDataset.__getitem__. by rewrite Hl0. }
    split; [exact Hget|]. unfold SizeBucketDataset.__iter__. rewrite Hn0.
    destruct filepaths as [|pr fps]; [done|]. cbn [length seq map trace_of_results].
    by rewrite Hget. }
  split; [by apply Hraise|]. split; [by apply Hraise|].
  intros j q ds' q' Hte. apply Hraise.
  - unfold SizeBucketDataset._cache_text_embedding in Hte.
    destruct (SizeBucketDataset._map_and_cache _ _ _ _ _ _) as [[d|e] q1]; [|done].
    injection Hte as <- _. exact Hlat.
  - unfold SizeBucketDataset._cache_text_embedding in Hte.
    destruct (SizeBucketDataset._map_and_cache _ _ _ _ _ _) as [[d|e] q1]; [|done].
    injection Hte as <- _. exact Hlen.
Qed.

Lemma uncached_dataset_unreadable_witness :
  SizeBucketDataset.__iter__ demo_bucket_dataset = Raise AttributeError.
Proof.
  refine (proj1 (proj2 (uncached_dataset_unreadable demo_host demo_filepaths demo_config
                          (512, 512)%Z toy_process demo_bucket_dataset demo_process _))).
  vm_cast_no_check (eq_refl (Ok demo_bucket_dataset, demo_process)).
Defined.

(* ===================================================================== *)
(** * The cache files of one directory *)

Lemma pretty_N_go_no_underscore x s :
  Forall (fun c => c ≠ "_"%char) (list_ascii_of_string s) →
  Forall (fun c => c ≠ "_"%char) (list_ascii_of_string (pretty_N_go x s)).
Proof.
  revert s. induction (N.lt_wf_0 x) as [x _ IH]; intros s Hs.
  assert (x = 0 ∨ 0 < x)%N as [->|?] by lia.
  - by rewrite pretty_N_go_0.
  - rewrite pretty_N_go_step by done. apply IH.
    { by apply N.div_lt. }
    cbn [list_ascii_of_string]. constructor; [|done].
    unfold pretty_N_char. by repeat case_match.
Qed.

Lemma pretty_nat_no_underscore (n : nat) :
  Forall (fun c => c ≠ "_"%char) (list_ascii_of_string (pretty n)).
Proof.
  unfold pretty, pretty_nat, pretty, pretty_N. case_decide.
  - by repeat constructor.
  - apply pretty_N_go_no_underscore. constructor.
Qed.

Lemma strip_prefix_app_inv (p q s : string) :
  strip_prefix (p +:+ q) s = strip_prefix p s ≫= strip_prefix q.
Proof.
  revert s. induction p as [|a p IH]; intros s; [done|].
  destruct s as [|b s]; [done|].
  change (String a p +:+ q) with (String a (p +:+ q)). cbn [strip_prefix].
  destruct (Ascii.eqb a b); [apply IH|done].
Qed.

(** Two runs of characters without an underscore that are both followed
    by an underscore at the start of one name are the same run. *)
Lemma strip_prefix_separator (a b name : string) r1 r2 :
  Forall (fun c => c ≠ "_"%char) (list_ascii_of_string a) →
  Forall (fun c => c ≠ "_"%char) (list_ascii_of_string b) →
  strip_prefix (a +:+ "_") name = Some r1 →
  strip_prefix (b +:+ "_") name = Some r2 →
  a = b.
Proof.
  revert b name. induction a as [|x a IH]; intros b name Ha Hb H1 H2.
  - destruct b as [|y b]; [done|]. destruct name as [|c name]; [done|].
    change ("" +:+ "_") with "_" in H1.
    change (String y b +:+ "_") with (String y (b +:+ "_")) in H2.
    cbn [strip_prefix] in H1, H2.
    destruct (Ascii.eqb_spec "_" c) as [<-|]; [|done].
    destruct (Ascii.eqb_spec y "_") as [->|]; [|done].
    by apply Forall_inv in Hb.
  - destruct name as [|c name]; [done|].
    change (String x a +:+ "_") with (String x (a +:+ "_")) in H1.
    cbn [strip_prefix] in H1.
    destruct (Ascii.eqb_spec x c) as [<-|]; [|done].
    destruct b as [|y b].
    2: change (String y b +:+ "_") with (String y (b +:+ "_")) in H2.
    1: change ("" +:+ "_") with "_" in H2.
    all: cbn [strip_prefix] in H2.
    + destruct (Ascii.eqb_spec "_" x) as [<-|]; [|done]. by apply Forall_inv in Ha.
    + destruct (Ascii.eqb_spec y x) as [->|]; [|done]. f_equal.
      apply (IH b name); [by eapply Forall_inv_tail|by eapply Forall_inv_tail|done..].
Qed.

Lemma text_embedding_prefix_disjoint i j name :
  i ≠ j →
  glob_match (text_embedding_prefix i) name = true →
  glob_match (text_embedding_prefix j) name = false.
Proof.
  intros Hij. unfold glob_match, text_embedding_prefix.
  rewrite !(strip_prefix_app_inv "text_embedding_").
  destruct (strip_prefix "text_embedding_" name) as [m|]; [|done].
  cbn [mbind option_bind].
  destruct (strip_prefix (pretty (i + 1) +:+ "_") m) as [r1|] eqn:H1; [|done].
  destruct (strip_prefix (pretty (j + 1) +:+ "_") m) as [r2|] eqn:H2; [|done].
  intros _. exfalso. apply Hij.
  pose proof (strip_prefix_separator _ _ _ _ _ (pretty_nat_no_underscore (i + 1))
                (pretty_nat_no_underscore (j + 1)) H1 H2) as Heq.
  apply (inj pretty) in Heq. lia.
Qed.

Lemma latent_prefix_disjoint j name :
  (glob_match "latent_" name = true → glob_match (text_embedding_prefix j) name = false) ∧
  (glob_match (text_embedding_prefix j) name = true → glob_match "latent_" name = false).
Proof.
  unfold glob_match, text_embedding_prefix.
  rewrite (strip_prefix_app_inv "text_embedding_").
  destruct name as [|c name]; [done|].
  cbn [strip_prefix].
  destruct (Ascii.eqb_spec "l" c) as [<-|]; [|done].
  change (Ascii.eqb "t" "l") with false. cbn [mbind option_bind]. done.
Qed.

Section cache_files.
Context `{G : Generator} `{P : PIL} `{M : @Model P} `{D : Datasets}.

(** After [_map_and_cache] has returned, the table it returned is in the
    cache file of its fingerprint. *)
Lemma map_and_cache_stored self dataset fn prefix args (p : process) ds p' :
  SizeBucketDataset._map_and_cache self dataset fn prefix args p = (Ok ds, p') →
  ds = {| rows := rows ds; _fingerprint := Hasher_hash (fingerprint_args args dataset p) |} ∧
  dir_files (cache p') (SizeBucketDataset.cache_dir self)
    !! (prefix +:+ Hasher_hash (fingerprint_args args dataset p) +:+ ".arrow")
    = Some (rows ds).
Proof.
  intros Hrun.
  destruct (dir_files (cache p) (SizeBucketDataset.cache_dir self)
              !! (prefix +:+ Hasher_hash (fingerprint_args args dataset p) +:+ ".arrow"))
    as [table|] eqn:Hfile.
  - destruct (map_and_cache_hit self dataset fn prefix args p table Hfile) as (q & Hq & Hc).
    rewrite Hq in Hrun. injection Hrun as <- <-. simpl. by rewrite Hc.
  - rewrite (map_and_cache_miss self dataset fn prefix args p Hfile) in Hrun.
    destruct (map_rows fn (rows dataset) _) as [[out|e] pm]; [|done].
    injection Hrun as <- <-. split; [done|]. simpl.
    unfold dir_files at 1. rewrite lookup_insert_eq. simpl. by rewrite lookup_insert_eq.
Qed.

(** [_map_and_cache] leaves alone every file of its directory that its
    glob pattern does not match, and every other directory. *)
Lemma map_and_cache_keeps_others self dataset fn prefix args (p : process) ds p' :
  keeps_cache fn →
  SizeBucketDataset._map_and_cache self dataset fn prefix args p = (Ok ds, p') →
  (∀ name, glob_match prefix name = false →
     dir_files (cache p') (SizeBucketDataset.cache_dir self) !! name =
       dir_files (cache p) (SizeBucketDataset.cache_dir self) !! name) ∧
  (∀ dir', dir' ≠ SizeBucketDataset.cache_dir self → cache p' !! dir' = cache p !! dir').
Proof.
  intros Hfn Hrun.
  destruct (map_and_cache_cases self dataset fn prefix args p Hfn) as [Hhit Hmiss].
  destruct (dir_files (cache p) (SizeBucketDataset.cache_dir self)
              !! (prefix +:+ Hasher_hash (fingerprint_args args dataset p) +:+ ".arrow"))
    as [table|] eqn:Hfile.
  - destruct (Hhit table eq_refl) as (q & Hq & Hc).
    rewrite Hq in Hrun. injection Hrun as <- <-. by rewrite Hc.
  - destruct (Hmiss eq_refl) as (_ & _ & Hout).
    pose proof Hrun as Hrun'.
    rewrite (map_and_cache_miss self dataset fn prefix args p Hfile) in Hrun'.
    destruct (map_rows fn (rows dataset) _) as [[out|e] pm] eqn:Hrows; [|done].
    destruct (Hout out pm eq_refl) as (q & Hq & _ & _ & Hkeep & Hdirs).
    rewrite Hq in Hrun. injection Hrun as _ <-. done.
Qed.

End cache_files.

(** X12: text embeddings are cached under a fingerprint that depends
    only on the encoder index and the caption dataset.  So once
    [_cache_text_embedding] has succeeded, the same call in any later
    process state with these cache directories finds the file, loads the
    very table it returned before, and leaves the directories as they are;
    the dataset then holds that table twice. *)
Theorem text_embedding_cache_reused `{G : Generator} `{P : PIL} `{M : @Model P}
    `{D : Datasets} (self : SizeBucketDataset.t) (i : nat) (p : process) self1 p1 :
  SizeBucketDataset._cache_text_embedding self i p = (Ok self1, p1) →
  ∃ ds, SizeBucketDataset.text_embedding_datasets self1 =
          SizeBucketDataset.text_embedding_datasets self ++ [ds] ∧
        ∀ q : process, cache q = cache p1 →
          ∃ self2 q',
            SizeBucketDataset._cache_text_embedding self1 i q = (Ok self2, q') ∧
            SizeBucketDataset.text_embedding_datasets self2 =
              SizeBucketDataset.text_embedding_datasets self ++ [ds; ds] ∧
            cache q' = cache q.
Proof.
  intros Hrun. unfold SizeBucketDataset._cache_text_embedding in Hrun.
  destruct (SizeBucketDataset._map_and_cache self _ _ _ _ p) as [[ds|e] p0] eqn:Hm; [|done].
  injection Hrun as <- <-.
  destruct (map_and_cache_stored _ _ _ _ _ _ _ _ Hm) as [Hds Hfile].
  exists ds. split; [done|]. intros q Hq.
  unfold SizeBucketDataset._cache_text_embedding.
  destruct (map_and_cache_hit (SizeBucketDataset.append_text_embedding_dataset ds self)
              (SizeBucketDataset.image_file_and_caption_dataset self)
              (SizeBucketDataset._get_text_embedding_map_fn
                 (SizeBucketDataset.append_text_embedding_dataset ds self) i)
              ("text_embedding_" +:+ pretty (i + 1) +:+ "_")
              (Some [ArgInt (Z.of_nat i)]) q (rows ds)) as (q' & Hq' & Hc).
  { rewrite Hq. exact Hfile. }
  cbn [SizeBucketDataset.image_file_and_caption_dataset
         SizeBucketDataset.append_text_embedding_dataset].
  rewrite Hq'. eexists _, q'. split; [reflexivity|]. split; [|done].
  cbn [SizeBucketDataset.text_embedding_datasets
         SizeBucketDataset.append_text_embedding_dataset].
  rewrite <- app_assoc. simpl. do 3 f_equal. symmetry. exact Hds.
Qed.

Lemma text_embedding_cache_reused_witness :
  ∃ self1 self2 q',
    demo_embedded_once = (Ok self1, demo_embedded_once.2) ∧
    SizeBucketDataset._cache_text_embedding self1 0 demo_embedded_once.2 = (Ok self2, q') ∧
    cache q' = cache demo_embedded_once.2.
Proof.
  assert (demo_embedded_once =
            (Ok (ok_or demo_bucket_dataset demo_embedded_once.1), demo_embedded_once.2))
    as Hr by (vm_cast_no_check (eq_refl demo_embedded_once)).
  destruct (text_embedding_cache_reused demo_bucket_dataset 0 demo_process _ _ Hr)
    as (ds & _ & Hagain).
  destruct (Hagain demo_embedded_once.2 eq_refl) as (self2 & q' & Hrun & _ & Hc).
  exists (ok_or demo_bucket_dataset demo_embedded_once.1), self2, q'.
  split; [exact Hr|]. split; [exact Hrun|exact Hc].
Defined.

(** X13: the caches of one directory do not touch one another.  Caching
    the text embeddings of encoder [i] leaves every latent file and every
    file of another encoder as it is, caching latents leaves every
    text-embedding file as it is, and both leave all other directories
    alone. *)
Theorem cache_kinds_are_separate `{G : Generator} `{P : PIL} `{M : @Model P}
    `{D : Datasets} (h : host) (self : SizeBucketDataset.t) (v : vae) (i : nat)
    (p : process) :
  let dir := SizeBucketDataset.cache_dir self in
  (∀ self' p', SizeBucketDataset._cache_text_embedding self i p = (Ok self', p') →
     (∀ name, glob_match "latent_" name = true ∨
              (∃ j, j ≠ i ∧ glob_match (text_embedding_prefix j) name = true) →
        dir_files (cache p') dir !! name = dir_files (cache p) dir !! name) ∧
     (∀ dir', dir' ≠ dir → cache p' !! dir' = cache p !! dir')) ∧
  (∀ self' p', SizeBucketDataset._cache_latents h self v p = (Ok self', p') →
     (∀ name j, glob_match (text_embedding_prefix j) name = true →
        dir_files (cache p') dir !! name = dir_files (cache p) dir !! name) ∧
     (∀ dir', dir' ≠ dir → cache p' !! dir' = cache p !! dir')).
Proof.
  intros dir. split.
  - intros self' p' Hrun. unfold SizeBucketDataset._cache_text_embedding in Hrun.
    destruct (SizeBucketDataset._map_and_cache self _ _ _ _ p) as [[ds|e] p0] eqn:Hm; [|done].
    injection Hrun as _ <-.
    destruct (map_and_cache_keeps_others _ _ _ _ _ _ _ _
                (text_embedding_map_fn_keeps_cache self i) Hm) as [Hkeep Hdirs].
    split; [|exact Hdirs]. intros name Hname. apply Hkeep.
    change ("text_embedding_" +:+ pretty (i + 1) +:+ "_") with (text_embedding_prefix i).
    destruct Hname as [Hl|(j & Hj & Hte)].
    + by apply latent_prefix_disjoint.
    + by apply (text_embedding_prefix_disjoint j i).
  - intros self' p' Hrun. unfold SizeBucketDataset._cache_latents in Hrun.
    destruct (SizeBucketDataset._map_and_cache self _ _ _ _ p) as [[ds|e] p0] eqn:Hm; [|done].
    injection Hrun as _ <-.
    destruct (map_and_cache_keeps_others _ _ _ _ _ _ _ _
                (process_image_fn_keeps_cache h v (SizeBucketDataset.size_bucket self)) Hm)
      as [Hkeep Hdirs].
    split; [|exact Hdirs]. intros name j Hname. apply Hkeep.
    by apply (latent_prefix_disjoint j).
Qed.

Lemma cache_kinds_are_separate_witness :
  let dir := SizeBucketDataset.cache_dir demo_bucket_dataset in
  let before := dir_files (cache demo_process_stale) dir in
  let after_embedding := dir_files (cache demo_embedded_over_stale.2) dir in
  let after_latents := dir_files (cache demo_latents_over_stale.2) dir in
  before !! "latent_old.arrow" = Some [] ∧
  before !! "text_embedding_1_old.arrow" = Some [] ∧
  before !! "text_embedding_2_old.arrow" = Some [] ∧
  after_embedding !! "latent_old.arrow" = Some [] ∧
  after_embedding !! "text_embedding_2_old.arrow" = Some [] ∧
  after_embedding !! "text_embedding_1_old.arrow" = None ∧
  after_latents !! "text_embedding_1_old.arrow" = Some [] ∧
  after_latents !! "text_embedding_2_old.arrow" = Some [] ∧
  after_latents !! "latent_old.arrow" = None.
Proof.
  intros dir before after_embedding after_latents.
  assert (demo_embedded_over_stale =
            (Ok (ok_or demo_bucket_dataset demo_embedded_over_stale.1),
             demo_embedded_over_stale.2))
    as He by (vm_cast_no_check (eq_refl demo_embedded_over_stale)).
  assert (demo_latents_over_stale =
            (Ok (ok_or demo_bucket_dataset demo_latents_over_stale.1),
             demo_latents_over_stale.2))
    as Hv by (vm_cast_no_check (eq_refl demo_latents_over_stale)).
  pose proof (cache_kinds_are_separate demo_host demo_bucket_dataset get_vae 0
                demo_process_stale) as [Hemb Hlat].
  destruct (Hemb _ _ He) as [Hkeep_e _]. destruct (Hlat _ _ Hv) as [Hkeep_l _].
  fold dir before after_embedding in Hkeep_e. fold dir before after_latents in Hkeep_l.
  assert (Hl : before !! "latent_old.arrow" = Some []) by (vm_compute; reflexivity).
  assert (H1 : before !! "text_embedding_1_old.arrow" = Some []) by (vm_compute; reflexivity).
  assert (H2 : before !! "text_embedding_2_old.arrow" = Some []) by (vm_compute; reflexivity).
  split; [exact Hl|]. split; [exact H1|]. split; [exact H2|].
  split; [rewrite Hkeep_e; [exact Hl|left; vm_compute; reflexivity]|].
  split; [rewrite Hkeep_e; [exact H2|right; exists 1; split; [lia|vm_compute; reflexivity]]|].
  split; [vm_compute; reflexivity|].
  split; [rewrite (Hkeep_l _ 0); [exact H1|vm_compute; reflexivity]|].
  split; [rewrite (Hkeep_l _ 1); [exact H2|vm_compute; reflexivity]|].
  vm_compute; reflexivity.
Defined.

(* ===================================================================== *)
(** * The dataset manager *)

Section manager.
Context `{G : Generator} `{P : PIL} `{M : @Model P} `{D : Datasets}.

Lemma register_foldl (acc : list SizeBucketDataset.t) (bs : list ConcatenatedDataset.t) :
  foldl (fun acc bucket =>
           foldl (fun acc ds => acc ++ [ds]) acc (ConcatenatedDataset.datasets bucket))
        acc bs
  = acc ++ concat (map ConcatenatedDataset.datasets bs).
Proof.
  assert (Hin : ∀ (l acc : list SizeBucketDataset.t),
            foldl (fun acc ds => acc ++ [ds]) acc l = acc ++ l).
  { induction l as [|x l IH]; intros acc0; simpl; [by rewrite app_nil_r|].
    rewrite IH. by rewrite <- app_assoc. }
  revert acc. induction bs as [|b bs IH]; intros acc; simpl; [by rewrite app_nil_r|].
  rewrite Hin, IH. by rewrite <- app_assoc.
Qed.




End manager.

(** X14: [register] appends the member datasets of every bucket of the
    dataset to the manager's list, bucket by bucket and in the order of
    the members; what was registered before stays in front. *)
Theorem register_appends (dataset : Dataset.t) (self : DatasetManager.t) :
  DatasetManager.datasets (DatasetManager.register dataset self) =
    DatasetManager.datasets self
    ++ concat (map ConcatenatedDataset.datasets (Dataset.buckets dataset)).
Proof. apply register_foldl. Qed.



(* ===================================================================== *)
(** * The dataset before and at post_init *)

(** X16: the edges of [post_init].  With a global batch size of 0 and at
    least one bucket it raises ZeroDivisionError: by then it has assigned
    the rank, the world size and the two batch sizes to the object, whose
    buckets, order and [post_init_called] are as before, and the process
    is as before.  With no bucket at all it succeeds for every batch size,
    and the dataset then has length 0 and yields nothing.  A dataset fresh
    from its constructor refuses [__len__] and [__iter__] with
    AssertionError. *)
Theorem post_init_edges `{G : Generator} `{P : PIL} `{M : @Model P} `{D : Datasets}
    (h : host) (rank ws b g : nat) (d : Dataset.t) (p : process) :
  (ws * (b * g) = 0 → Dataset.buckets d ≠ [] →
     Dataset.post_init h rank ws b g d p = (Err ZeroDivisionError, p) ∧
     Dataset.post_init_raised h rank ws b g d p =
       {| Dataset.buckets := Dataset.buckets d;
          Dataset.post_init_called := Dataset.post_init_called d;
          Dataset.data_parallel_rank := rank;
          Dataset.data_parallel_world_size := ws;
          Dataset.batch_size := b * g;
          Dataset.global_batch_size := 0;
          Dataset.iteration_order := Dataset.iteration_order d |}) ∧
  (Dataset.buckets d = [] →
     ∃ d', Dataset.post_init h rank ws b g d p = (Ok d', p) ∧
           Dataset.__len__ d' = Ok 0 ∧ Dataset.__iter__ d' = Stop) ∧
  (∀ size_buckets directory d0 p0,
     Dataset.__init__ h size_buckets directory p = (Ok d0, p0) →
     Dataset.__len__ d0 = Err AssertionError ∧
     Dataset.__iter__ d0 = Raise AssertionError).
Proof.
  split; [|split].
  - intros Hn Hne.
    unfold Dataset.post_init, Dataset._make_divisible_by, Dataset.post_init_raised,
      Dataset._make_divisible_by_raised.
    cbn [Dataset.buckets]. rewrite Hn.
    destruct (Dataset.buckets d) as [|bk bs]; [done|]. split; reflexivity.
  - intros Hnil. unfold Dataset.post_init, Dataset._make_divisible_by.
    cbn [Dataset.buckets]. rewrite Hnil. cbn [Dataset.trim_buckets].
    rewrite shuffle_with_seed_eq.
    destruct (ws * (b * g)) as [|n]; cbn; rewrite set_rng_same;
      (eexists; split; [reflexivity|done]).
  - intros size_buckets directory d0 p0 Hinit. unfold Dataset.__init__ in Hinit.
    destruct (Dataset.scan_directories h size_buckets directory [] p) as [[m|e] q]; [|done].
    destruct (Dataset.make_buckets h (map snd m) q) as [bs q'].
    injection Hinit as <- _. done.
Qed.

Lemma post_init_edges_witness :
  Dataset.post_init toy_host 1 2 0 1 toy_dataset toy_process
    = (Err ZeroDivisionError, toy_process) ∧
  Dataset.data_parallel_rank
    (Dataset.post_init_raised toy_host 1 2 0 1 toy_dataset toy_process) = 1 ∧
  Dataset.data_parallel_world_size
    (Dataset.post_init_raised toy_host 1 2 0 1 toy_dataset toy_process) = 2 ∧
  Dataset.buckets (Dataset.post_init_raised toy_host 1 2 0 1 toy_dataset toy_process)
    = Dataset.buckets toy_dataset.
Proof.
  destruct (proj1 (post_init_edges toy_host 1 2 0 1 toy_dataset toy_process)) as [Hraise Hobj];
    [lia|done|].
  split; [exact Hraise|]. by rewrite Hobj.
Defined.

(* ===================================================================== *)
(** * Caching from scratch, and reading what was cached *)

Section from_scratch.
Context `{G : Generator} `{P : PIL} `{M : @Model P} `{D : Datasets}.

Lemma map_rows_image (h : host) v sb rs (p : process) :
  Forall (fun r : example => ∃ f img, r !! "image_file" = Some (VStr f) ∧
                                      image_files h !! f = Some img) rs →
  ∃ out, map_rows (process_image_fn h v sb) rs p = (Ok out, p) ∧
         Forall2 (fun (r r' : example) =>
                    ∃ f img, r !! "image_file" = Some (VStr f) ∧
                             image_files h !! f = Some img ∧
                             r' = <["latents" :=
                                      VTensor (squeeze0 (encode_pil_to_latents
                                                           (crop_and_resize img sb) v))]> r)
                 rs out.
Proof.
  induction 1 as [|r rs (f & img & Hf & Himg) _ (out & IH & Hout)].
  - exists []. by split; [|constructor].
  - eexists (_ :: out). cbn [map_rows]. unfold process_image_fn at 1, get_str.
    rewrite Hf, Himg, IH. split; [reflexivity|].
    constructor; [|done]. by exists f, img.
Qed.

Lemma map_rows_text_embedding self i rs (p : process) :
  Forall (fun r : example => ∃ c, r !! "caption" = Some (VStr c)) rs →
  ∃ out, map_rows (SizeBucketDataset._get_text_embedding_map_fn self i) rs p = (Ok out, p) ∧
         Forall2 (fun (r r' : example) =>
                    ∃ c, r !! "caption" = Some (VStr c) ∧
                         r' = <["text_embedding" :=
                                  VTensor (squeeze0 (get_text_embedding i c))]> r)
                 rs out.
Proof.
  induction 1 as [|r rs (c & Hc) _ (out & IH & Hout)].
  - exists []. by split; [|constructor].
  - eexists (_ :: out). cbn [map_rows].
    unfold SizeBucketDataset._get_text_embedding_map_fn at 1, get_str.
    rewrite Hc, IH. split; [reflexivity|].
    constructor; [|done]. by exists c.
Qed.

End from_scratch.

Lemma for_each_total {A B} (f : A → result B) (xs : list A) :
  Forall (fun x => ∃ y, f x = Ok y) xs →
  ∃ l, for_each f xs = Ok l ∧ length l = length xs.
Proof.
  induction 1 as [|x xs [y Hy] _ (l & Hl & Hlen)].
  - by exists [].
  - exists (y :: l). simpl. rewrite Hy, Hl. simpl. by rewrite Hlen.
Qed.

(** The rows of a bucket dataset fresh from its constructor name their
    image and have a caption. *)
Lemma init_rows_readable `{G : Generator} `{P : PIL} `{M : @Model P} `{D : Datasets}
    (h : host) filepaths cfg sb (p : process) ds p' :
  SizeBucketDataset.__init__ h filepaths cfg sb p = (Ok ds, p') →
  Forall (fun pr : string * string => is_Some (image_files h !! pr.1)) filepaths →
  Forall (fun r : example => ∃ f c img, r !! "image_file" = Some (VStr f) ∧
                                        r !! "caption" = Some (VStr c) ∧
                                        image_files h !! f = Some img)
         (rows (SizeBucketDataset.image_file_and_caption_dataset ds)).
Proof.
  intros Hinit Himg.
  pose proof (size_bucket_init_cases h filepaths cfg sb p) as (_ & _ & _ & _ & Hr).
  rewrite Hinit in Hr. cbn [fst] in Hr.
  destruct Hr as (_ & Hperm & _ & _ & _ & _ & _ & _ & Hrows).
  rewrite <- Hperm in Himg.
  apply Forall_lookup_2. intros k r Hk.
  destruct (Forall2_lookup_r _ _ _ _ _ Hrows Hk) as (pr & Hpr & text & caption & _ & _ & ->).
  destruct (Forall_lookup_1 _ _ _ _ Himg Hpr) as [img Hi].
  exists pr.1, caption, img. split; [|split; [|done]].
  - rewrite lookup_insert_ne by done. apply lookup_singleton_eq.
  - apply lookup_insert_eq.
Qed.

(** X17: caching a bucket dataset from scratch and reading it.  When the
    cache directory holds no file, every row names an image that can be
    opened and has a caption, and no text embeddings are cached yet, then
    [_cache_latents] followed by [_cache_text_embedding] succeeds, and
    [__getitem__] at a row gives the encoded fitted image and the
    embedding of the row's caption, both without their leading dimension
    of one; past the last row it raises IndexError, and iterating the
    dataset gives one sample per row. *)
Theorem cached_from_scratch `{G : Generator} `{P : PIL} `{M : @Model P} `{D : Datasets}
    (h : host) (self : SizeBucketDataset.t) (v : vae) (i : nat) (p : process) :
  dir_files (cache p) (SizeBucketDataset.cache_dir self) = ∅ →
  SizeBucketDataset.text_embedding_datasets self = [] →
  Forall (fun r : example => ∃ f c img, r !! "image_file" = Some (VStr f) ∧
                                        r !! "caption" = Some (VStr c) ∧
                                        image_files h !! f = Some img)
         (rows (SizeBucketDataset.image_file_and_caption_dataset self)) →
  ∃ self1 p1 self2 p2,
    SizeBucketDataset._cache_latents h self v p = (Ok self1, p1) ∧
    SizeBucketDataset._cache_text_embedding self1 i p1 = (Ok self2, p2) ∧
    (∀ k r f c img,
       rows (SizeBucketDataset.image_file_and_caption_dataset self) !! k = Some r →
       r !! "image_file" = Some (VStr f) → r !! "caption" = Some (VStr c) →
       image_files h !! f = Some img →
       SizeBucketDataset.__getitem__ self2 k =
         Ok [squeeze0 (encode_pil_to_latents
                         (crop_and_resize img (SizeBucketDataset.size_bucket self)) v);
             squeeze0 (get_text_embedding i c)]) ∧
    (∀ k, SizeBucketDataset.__len__ self2 ≤ k →
          SizeBucketDataset.__getitem__ self2 k = Err IndexError) ∧
    SizeBucketDataset.__len__ self2 = SizeBucketDataset.__len__ self ∧
    ∃ l, samples_of self2 l ∧ length l = SizeBucketDataset.__len__ self.
Proof.
  intros Hempty Hte Hrows.
  set (ds := SizeBucketDataset.image_file_and_caption_dataset self) in *.
  set (dir := SizeBucketDataset.cache_dir self) in *.
  (* the latents *)
  destruct (map_rows_image h v (SizeBucketDataset.size_bucket self) (rows ds)
              (after_unlink self ds "latent_" None p)) as (out1 & Hm1 & Hout1).
  { eapply Forall_impl; [exact Hrows|]. intros r (f & c & img & ? & ? & ?). by exists f, img. }
  set (l_ds := {| rows := out1;
                  _fingerprint := Hasher_hash (fingerprint_args None ds p) |}).
  assert (∃ p1, SizeBucketDataset._map_and_cache self ds
                  (process_image_fn h v (SizeBucketDataset.size_bucket self)) "latent_" None p
                = (Ok l_ds, p1)) as [p1 H1m].
  { rewrite map_and_cache_miss by (fold dir; by rewrite Hempty, lookup_empty).
    rewrite Hm1. by eexists. }
  set (self1 := SizeBucketDataset.set_latent_dataset l_ds self).
  assert (H1 : SizeBucketDataset._cache_latents h self v p = (Ok self1, p1)).
  { unfold SizeBucketDataset._cache_latents. fold ds. by rewrite H1m. }
  destruct (map_and_cache_keeps_others _ _ _ _ _ _ _ _
              (process_image_fn_keeps_cache h v (SizeBucketDataset.size_bucket self)) H1m)
    as [Hkeep _].
  (* the text embeddings *)
  destruct (map_rows_text_embedding self1 i (rows ds)
              (after_unlink self1 ds ("text_embedding_" +:+ pretty (i + 1) +:+ "_")
                 (Some [ArgInt (Z.of_nat i)]) p1)) as (out2 & Hm2 & Hout2).
  { eapply Forall_impl; [exact Hrows|]. intros r (f & c & img & ? & ? & ?). by exists c. }
  set (t_ds := {| rows := out2;
                  _fingerprint :=
                    Hasher_hash (fingerprint_args (Some [ArgInt (Z.of_nat i)]) ds p1) |}).
  assert (∃ p2, SizeBucketDataset._map_and_cache self1 ds
                  (SizeBucketDataset._get_text_embedding_map_fn self1 i)
                  ("text_embedding_" +:+ pretty (i + 1) +:+ "_")
                  (Some [ArgInt (Z.of_nat i)]) p1
                = (Ok t_ds, p2)) as [p2 H2m].
  { rewrite map_and_cache_miss.
    - rewrite Hm2. by eexists.
    - change (SizeBucketDataset.cache_dir self1) with dir. fold dir in Hkeep.
      rewrite Hkeep; [by rewrite Hempty, lookup_empty|].
      apply (latent_prefix_disjoint i). apply glob_match_cache_file. }
  set (self2 := SizeBucketDataset.append_text_embedding_dataset t_ds self1).
  assert (H2 : SizeBucketDataset._cache_text_embedding self1 i p1 = (Ok self2, p2)).
  { unfold SizeBucketDataset._cache_text_embedding.
    change (SizeBucketDataset.image_file_and_caption_dataset self1) with ds.
    by rewrite H2m. }
  exists self1, p1, self2, p2. split; [exact H1|]. split; [exact H2|].
  assert (Hget : ∀ k, SizeBucketDataset.__getitem__ self2 k
                      = (latents ←! (row ←! of_option (out1 !! k) IndexError;;
                                      get_tensor row "latents");;
                         te ←! (row ←! of_option (out2 !! k) IndexError;;
                                 get_tensor row "text_embedding");;
                         Ok [latents; te])).
  { intros k. unfold SizeBucketDataset.__getitem__, SizeBucketDataset.column.
    unfold self2, self1.
    cbn [SizeBucketDataset.latent_dataset SizeBucketDataset.append_text_embedding_dataset
           SizeBucketDataset.set_latent_dataset of_option bind
           SizeBucketDataset.text_embedding_datasets].
    rewrite Hte. cbn [app for_each]. unfold l_ds, t_ds. cbn [rows].
    destruct (out1 !! k) as [row1|]; [|done]. cbn [of_option bind].
    destruct (get_tensor row1 "latents") as [t1|e]; [|done]. cbn [bind].
    destruct (out2 !! k) as [row2|]; [|done]. cbn [of_option bind].
    by destruct (get_tensor row2 "text_embedding") as [t2|e]. }
  assert (Hrow : ∀ k r f c img, rows ds !! k = Some r →
            r !! "image_file" = Some (VStr f) → r !! "caption" = Some (VStr c) →
            image_files h !! f = Some img →
            SizeBucketDataset.__getitem__ self2 k =
              Ok [squeeze0 (encode_pil_to_latents
                              (crop_and_resize img (SizeBucketDataset.size_bucket self)) v);
                  squeeze0 (get_text_embedding i c)]).
  { intros k r f c img Hr Hf Hc Himg. rewrite Hget.
    destruct (Forall2_lookup_l _ _ _ _ _ Hout1 Hr) as (r1 & -> & f' & img' & Hf' & Himg' & ->).
    destruct (Forall2_lookup_l _ _ _ _ _ Hout2 Hr) as (r2 & -> & c' & Hc' & ->).
    assert (f' = f) as -> by congruence. assert (img' = img) as -> by congruence.
    assert (c' = c) as -> by congruence.
    cbn [of_option bind]. unfold get_tensor. by rewrite !lookup_insert_eq. }
  split; [exact Hrow|]. split; [|split; [done|]].
  - intros k Hk. rewrite Hget. unfold SizeBucketDataset.__len__ in Hk.
    change (SizeBucketDataset.image_file_and_caption_dataset _) with ds in Hk.
    rewrite (lookup_ge_None_2 out1); [done|].
    by rewrite <- (Forall2_length _ _ _ Hout1).
  - destruct (for_each_total (SizeBucketDataset.__getitem__ self2)
                (seq 0 (SizeBucketDataset.__len__ self2))) as (l & Hl & Hlen).
    + apply Forall_forall. intros k Hk. apply elem_of_seq in Hk as [_ Hk].
      change (SizeBucketDataset.__len__ self2) with (length (rows ds)) in Hk.
      destruct (lookup_lt_is_Some_2 (rows ds) k) as [r Hr]; [lia|].
      destruct (Forall_lookup_1 _ _ _ _ Hrows Hr) as (f & c & img & Hf & Hc & Himg).
      eexists. by apply (Hrow k r f c img).
    + exists l. split; [exact Hl|]. by rewrite Hlen, length_seq.
Qed.

Lemma cached_from_scratch_witness :
  ∃ self1 p1 self2 p2,
    SizeBucketDataset._cache_latents demo_host demo_bucket_dataset get_vae demo_process
      = (Ok self1, p1) ∧
    SizeBucketDataset._cache_text_embedding self1 0 p1 = (Ok self2, p2) ∧
    SizeBucketDataset.__getitem__ self2 2 = Err IndexError.
Proof.
  destruct (cached_from_scratch demo_host demo_bucket_dataset get_vae 0 demo_process)
    as (self1 & p1 & self2 & p2 & H1 & H2 & _ & Hpast & Hlen & _).
  - vm_compute. reflexivity.
  - vm_compute. reflexivity.
  - apply (init_rows_readable demo_host demo_filepaths demo_config (512, 512)%Z toy_process
             demo_bucket_dataset demo_process).
    + vm_cast_no_check (eq_refl (Ok demo_bucket_dataset, demo_process)).
    + repeat constructor; by eexists.
  - exists self1, p1, self2, p2. split; [exact H1|]. split; [exact H2|].
    apply Hpast. rewrite Hlen. vm_compute. lia.
Defined.

(* ===================================================================== *)
(** * What a scan of a directory lists *)

Lemma dict_append_concat {K V} `{EqDecision K} (k : K) (v : V) (d : list (K * list V)) :
  concat (map snd (dict_append k v d)) ≡ₚ v :: concat (map snd d).
Proof.
  induction d as [|[k' vs] d IH]; simpl; [done|].
  destruct (decide (k = k')) as [<-|Hk]; simpl.
  - rewrite <- app_assoc. simpl. symmetry. apply Permutation_middle.
  - rewrite IH. symmetry. apply Permutation_middle.
Qed.

(** A [defaultdict] keeps its keys in the order of their first use. *)
Lemma dict_append_keys {K V} `{EqDecision K} (k : K) (v : V) (d : list (K * list V)) :
  map fst (dict_append k v d) =
    if bool_decide (k ∈ map fst d) then map fst d else map fst d ++ [k].
Proof.
  induction d as [|[k' vs] d IH]; cbn [dict_append map fst].
  - case_bool_decide as Hin; [by apply elem_of_nil in Hin|done].
  - destruct (decide (k = k')) as [<-|Hk]; cbn [map fst].
    + rewrite bool_decide_eq_true_2; [done|]. left.
    + rewrite IH. destruct (bool_decide (k ∈ map fst d)) eqn:Hin.
      * apply bool_decide_eq_true_1 in Hin.
        rewrite bool_decide_eq_true_2; [done|]. by right.
      * apply bool_decide_eq_false_1 in Hin.
        rewrite bool_decide_eq_false_2; [done|].
        by intros [?|?]%elem_of_cons.
Qed.

Lemma dict_append_NoDup {K V} `{EqDecision K} (k : K) (v : V) (d : list (K * list V)) :
  NoDup (map fst d) → NoDup (map fst (dict_append k v d)).
Proof.
  intros Hd. rewrite dict_append_keys. case_bool_decide as Hin; [done|].
  apply NoDup_app. split; [done|]. split; [|apply NoDup_singleton].
  intros x Hx ->%list_elem_of_singleton. done.
Qed.

Lemma dict_append_Forall {K V} `{EqDecision K} (Q : K → list V → Prop) (k : K) (v : V)
    (d : list (K * list V)) :
  Forall (fun kv => Q kv.1 kv.2) d →
  Q k [v] → (∀ vs, Q k vs → Q k (vs ++ [v])) →
  Forall (fun kv => Q kv.1 kv.2) (dict_append k v d).
Proof.
  intros Hd H1 Hs. induction Hd as [|[k' vs] d Hkv Hd IH]; simpl.
  - by repeat constructor.
  - destruct (decide (k = k')) as [<-|Hk].
    + constructor; [by apply Hs|done].
    + by constructor.
Qed.

Section scan_results.
Context `{G : Generator} `{P : PIL}.

(** The closest bucket is one of the buckets; there is none only when
    there are no buckets; and the search fails only on a bucket of height
    0. *)
Lemma closest_from_member ar sbs best diff :
  (best = None → diff = None) →
  match Dataset.closest_from ar sbs best diff with
  | Ok (Some sb) => sb ∈ sbs ∨ best = Some sb
  | Ok None => sbs = [] ∧ best = None
  | Err e => e = ZeroDivisionError ∧ Exists (fun sb : Z * Z => sb.2 = 0%Z) sbs
  end.
Proof.
  revert best diff. induction sbs as [|sb sbs IH]; intros best diff Hbd.
  - simpl. destruct best; [by right|done].
  - cbn [Dataset.closest_from].
    destruct (sb.2 =? 0)%Z eqn:Hz.
    { apply Z.eqb_eq in Hz. split; [done|by left]. }
    destruct (match diff with Some d => _ | None => true end) eqn:Hcl.
    + specialize (IH (Some sb) (Some (Qabs (inject_Z sb.1 / inject_Z sb.2 - ar)))
                     ltac:(done)).
      destruct (Dataset.closest_from ar sbs _ _) as [[sb'|]|e].
      * left. destruct IH as [?|[= <-]]; [by right|left].
      * by destruct IH.
      * destruct IH as [-> ?]. split; [done|by right].
    + specialize (IH best diff Hbd).
      destruct (Dataset.closest_from ar sbs best diff) as [[sb'|]|e].
      * destruct IH as [?|?]; [left; by right|by right].
      * destruct IH as [_ Hb]. rewrite (Hbd Hb) in Hcl. done.
      * destruct IH as [-> ?]. split; [done|by right].
Qed.

Lemma acceptedb_true (h : host) path entries file :
  acceptedb h path entries file = true ↔
  is_file file = true ∧ suffix (entry_name file) ≠ ".txt" ∧
  with_suffix (entry_name file) ".txt" ∈ map entry_name entries ∧
  is_Some (image_files h !! (path +:+ "/" +:+ entry_name file)).
Proof.
  unfold acceptedb. rewrite !andb_true_iff, negb_true_iff.
  rewrite bool_decide_eq_false, !bool_decide_eq_true. tauto.
Qed.

Lemma scan_file_exact (h : host) path entries sbs file acc (p : process) acc' p' :
  Dataset.scan_file h path entries sbs file acc p = (Ok acc', p') →
  concat (map snd acc') ≡ₚ
    (if acceptedb h path entries file && negb (bool_decide (sbs = []))
     then [file_pair path file] else []) ++ concat (map snd acc) ∧
  (NoDup (map fst acc) → NoDup (map fst acc')) ∧
  (Forall (fun kv => kv.1 ∈ sbs ∧ kv.2 ≠ []) acc →
   Forall (fun kv => kv.1 ∈ sbs ∧ kv.2 ≠ []) acc') ∧
  rng p' = rng p ∧ cache p' = cache p ∧
  default_new_fingerprint_args p' = default_new_fingerprint_args p.
Proof.
  unfold Dataset.scan_file, acceptedb.
  destruct (is_file file) eqn:Hf; simpl; [|intros [= <- <-]; by repeat split].
  case_bool_decide as Hs; simpl; [intros [= <- <-]; by repeat split|].
  case_bool_decide as Hc; simpl; [|intros [= <- <-]; by repeat split].
  unfold Dataset._find_closest_size_bucket.
  destruct (image_files h !! _) as [img|] eqn:Hi.
  2:{ intros [= <- <-]. rewrite bool_decide_eq_false_2 by (by intros [? ?]).
      by repeat split. }
  rewrite bool_decide_eq_true_2 by (by eexists). simpl.
  destruct (img_size img) as [width height].
  destruct (height =? 0)%Z; [done|].
  pose proof (closest_from_member (inject_Z width / inject_Z height)%Q sbs None None
                ltac:(done)) as Hm.
  destruct (Dataset.closest_from _ _ _ _) as [[sb|]|e]; [| |done].
  - intros [= <- <-]. destruct Hm as [Hin|?]; [|done].
    rewrite bool_decide_eq_false_2 by (intros ->; by apply elem_of_nil in Hin). simpl.
    split; [apply dict_append_concat|]. split; [apply dict_append_NoDup|].
    split; [|done]. intros Hacc.
    apply (dict_append_Forall (fun k vs => k ∈ sbs ∧ vs ≠ [])); [done|done|].
    intros vs [? _]. split; [done|]. by destruct vs.
  - intros [= <- <-]. destruct Hm as [-> _].
    rewrite bool_decide_eq_true_2 by done. by repeat split.
Qed.

Lemma scan_files_exact (h : host) path entries sbs files acc (p : process) m p' :
  Dataset.scan_files h path entries sbs files acc p = (Ok m, p') →
  concat (map snd m) ≡ₚ
    concat (map snd acc) ++
    (if bool_decide (sbs = []) then []
     else map (file_pair path) (filter (fun f => Is_true (acceptedb h path entries f)) files)) ∧
  (NoDup (map fst acc) → NoDup (map fst m)) ∧
  (Forall (fun kv => kv.1 ∈ sbs ∧ kv.2 ≠ []) acc →
   Forall (fun kv => kv.1 ∈ sbs ∧ kv.2 ≠ []) m) ∧
  rng p' = rng p ∧ cache p' = cache p ∧
  default_new_fingerprint_args p' = default_new_fingerprint_args p.
Proof.
  revert acc p. induction files as [|f files IH]; intros acc p; simpl.
  - intros [= <- <-]. split; [|done]. case_bool_decide; by rewrite app_nil_r.
  - destruct (Dataset.scan_file h path entries sbs f acc p) as [[acc1|e] p1] eqn:Hf; [|done].
    intros Hrest.
    destruct (scan_file_exact _ _ _ _ _ _ _ _ _ Hf) as (Hc1 & Hn1 & Hq1 & Hr1 & Hk1 & Hd1).
    destruct (IH _ _ Hrest) as (Hc2 & Hn2 & Hq2 & Hr2 & Hk2 & Hd2).
    split; [|split; [auto|split; [auto|split; [congruence|split; congruence]]]].
    rewrite Hc2, Hc1.
    destruct (bool_decide (sbs = [])) eqn:Hsb; simpl.
    + rewrite andb_false_r. simpl. by rewrite app_nil_r.
    + rewrite andb_true_r. destruct (acceptedb h path entries f) eqn:Ha.
      * rewrite filter_cons_True by (by rewrite Ha). simpl.
        rewrite <- Permutation_middle. done.
      * rewrite filter_cons_False by (rewrite Ha; exact id). done.
Qed.

End scan_results.

(** X18: what [_split_into_size_buckets] lists.  When it returns, the
    pairs in its buckets are, each exactly once, the files of the
    directory that are regular files, do not end in [.txt], have their
    caption file in the directory and can be opened as an image; with an
    empty list of size buckets nothing is listed.  Every key is one of the
    size buckets, no key occurs twice, no bucket is empty, and of the
    process only the log can have changed. *)
Theorem scan_lists_accepted_once `{G : Generator} `{P : PIL} `{M : @Model P} `{D : Datasets}
    (h : host) (dir : string) (size_buckets : list (Z * Z)) (p : process) entries m p' :
  directories h !! dir = Some entries →
  Dataset._split_into_size_buckets h dir size_buckets p = (Ok m, p') →
  concat (map snd m) ≡ₚ
    (if bool_decide (size_buckets = []) then []
     else map (file_pair dir)
              (filter (fun f => Is_true (acceptedb h dir entries f)) entries)) ∧
  NoDup (map fst m) ∧
  Forall (fun kv => kv.1 ∈ size_buckets ∧ kv.2 ≠ []) m ∧
  rng p' = rng p ∧ cache p' = cache p ∧
  default_new_fingerprint_args p' = default_new_fingerprint_args p.
Proof.
  intros Hdir Hrun. unfold Dataset._split_into_size_buckets in Hrun. rewrite Hdir in Hrun.
  destruct (scan_files_exact _ _ _ _ _ _ _ _ _ Hrun) as (Hc & Hn & Hq & Hr & Hk & Hd).
  split; [|split; [apply Hn; constructor|split; [apply Hq; constructor|done]]].
  rewrite Hc. simpl. case_bool_decide; [done|].
  by rewrite (sort_entries_perm entries).
Qed.

Lemma scan_lists_accepted_once_witness :
  ∃ m p', demo_scan = (Ok m, p') ∧ NoDup (map fst m) ∧ rng p' = rng toy_process.
Proof.
  assert (demo_scan = (Ok (ok_or [] demo_scan.1), demo_scan.2)) as Hr
    by (vm_cast_no_check (eq_refl demo_scan)).
  assert (directories demo_host !! "d" = Some (default [] (directories demo_host !! "d")))
    as Hdir by (vm_compute; reflexivity).
  destruct (scan_lists_accepted_once demo_host "d" [(512, 512)%Z] toy_process
              (default [] (directories demo_host !! "d")) _ _ Hdir Hr)
    as (_ & Hn & _ & Hrng & _).
  eexists _, _. split; [exact Hr|]. split; [exact Hn|exact Hrng].
Defined.

(** X19: [_find_closest_size_bucket].  An image that cannot be opened
    gives [None] and one warning.  Otherwise the process is left alone and
    the answer is one of the size buckets, or [None] when there are none;
    ZeroDivisionError is raised exactly for an image of height 0 and for a
    size bucket of height 0. *)
Theorem find_closest_spec `{G : Generator} `{P : PIL} `{M : @Model P} `{D : Datasets}
    (h : host) (image_file : string) (size_buckets : list (Z * Z)) (p : process) :
  let r := Dataset._find_closest_size_bucket h image_file size_buckets p in
  match image_files h !! image_file with
  | None => ∃ m, r = (Ok None, warning m p)
  | Some img =>
      r.2 = p ∧
      match r.1 with
      | Ok (Some sb) =>
          sb ∈ size_buckets ∧ (img_size img).2 ≠ 0%Z ∧
          Forall (fun sb : Z * Z => sb.2 ≠ 0%Z) size_buckets
      | Ok None =>
          size_buckets = [] ∧ (img_size img).2 ≠ 0%Z
      | Err e =>
          e = ZeroDivisionError ∧
          ((img_size img).2 = 0%Z ∨ Exists (fun sb : Z * Z => sb.2 = 0%Z) size_buckets)
      end
  end.
Proof.
  intros r. unfold r, Dataset._find_closest_size_bucket.
  destruct (image_files h !! image_file) as [img|]; [|by eexists].
  destruct (img_size img) as [width height]. cbn [snd].
  destruct (height =? 0)%Z eqn:Hz.
  { apply Z.eqb_eq in Hz. split; [done|]. split; [done|by left]. }
  apply Z.eqb_neq in Hz. cbn [fst snd]. split; [done|].
  pose proof (closest_from_member (inject_Z width / inject_Z height)%Q size_buckets None None
                ltac:(done)) as Hm.
  destruct (Dataset.closest_from _ _ _ _) as [[sb|]|e] eqn:Hcl.
  - destruct Hm as [Hin|?]; [|done]. split; [done|]. split; [done|].
    apply Forall_forall. intros sb' Hsb' H0.
    assert (Hex : Exists (fun sb : Z * Z => sb.2 = 0%Z) size_buckets).
    { apply Exists_exists. by exists sb'. }
    clear Hin Hsb'. revert Hcl. generalize (@None (Z * Z)) (@None Q).
    induction Hex as [sb0 sbs H00|sb0 sbs _ IH]; intros best diff; cbn [Dataset.closest_from].
    + apply Z.eqb_eq in H00. by rewrite H00.
    + destruct (sb0.2 =? 0)%Z; [done|].
      destruct (match diff with Some d => _ | None => true end); apply IH.
  - by destruct Hm.
  - destruct Hm as [-> ?]. split; [done|by right].
Qed.

(* ===================================================================== *)
(** * The buckets the constructor of Dataset makes *)

Section dataset_init.
Context `{G : Generator} `{P : PIL} `{M : @Model P} `{D : Datasets}.

(** What holds of the datasets collected for one size bucket. *)
Local Abbreviation collected size_buckets :=
  (fun (kv : (Z * Z) * list SizeBucketDataset.t) =>
     kv.1 ∈ (size_buckets : list (Z * Z)) ∧ kv.2 ≠ [] ∧
     Forall (fun ds => SizeBucketDataset.size_bucket ds = kv.1 ∧
                       SizeBucketDataset.latent_dataset ds = None ∧
                       SizeBucketDataset.text_embedding_datasets ds = []) kv.2).

Lemma add_datasets_inv (h : host) cfg sbs items d (p : process) d' p' :
  Dataset.add_datasets h cfg items d p = (Ok d', p') →
  Forall (fun kv : (Z * Z) * list (string * string) => kv.1 ∈ sbs) items →
  NoDup (map fst d) → Forall (collected sbs) d →
  NoDup (map fst d') ∧ Forall (collected sbs) d' ∧
  default_new_fingerprint_args p' = default_new_fingerprint_args p.
Proof.
  revert d p. induction items as [|[sb fps] items IH]; intros d p Hrun Hitems Hn Hd.
  - simpl in Hrun. by injection Hrun as <- <-.
  - cbn [Dataset.add_datasets] in Hrun.
    pose proof (size_bucket_init_cases h fps cfg sb p) as (_ & Hdef & _ & _ & Hr).
    destruct (SizeBucketDataset.__init__ h fps cfg sb p) as [[ds|e] p1]; [|done].
    cbn [fst snd] in Hr, Hdef. destruct Hr as (_ & _ & _ & _ & Hsb & _ & Hlat & Hte & _).
    destruct (IH _ _ Hrun) as (Hn' & Hd' & Hdef').
    + by eapply Forall_inv_tail.
    + by apply dict_append_NoDup.
    + apply (dict_append_Forall
               (fun k dss => k ∈ sbs ∧ dss ≠ [] ∧
                             Forall (fun ds => SizeBucketDataset.size_bucket ds = k ∧
                                               SizeBucketDataset.latent_dataset ds = None ∧
                                               SizeBucketDataset.text_embedding_datasets ds = [])
                                    dss)); [done| |].
      * apply Forall_inv in Hitems. split; [done|]. split; [done|]. by repeat constructor.
      * intros vs (? & _ & Hvs). split; [done|]. split; [by destruct vs|].
        apply Forall_app. split; [done|]. by repeat constructor.
    + split; [done|]. split; [done|]. by rewrite Hdef', Hdef.
Qed.

Lemma scan_directories_inv (h : host) sbs directory d (p : process) d' p' :
  Dataset.scan_directories h sbs directory d p = (Ok d', p') →
  NoDup (map fst d) → Forall (collected sbs) d →
  NoDup (map fst d') ∧ Forall (collected sbs) d' ∧
  default_new_fingerprint_args p' = default_new_fingerprint_args p.
Proof.
  revert d p. induction directory as [|cfg directory IH]; intros d p Hrun Hn Hd.
  - simpl in Hrun. by injection Hrun as <- <-.
  - cbn [Dataset.scan_directories] in Hrun.
    destruct (Dataset._split_into_size_buckets h (path cfg) sbs p) as [[m|e] p1] eqn:Hscan;
      [|done].
    destruct (Dataset.add_datasets h cfg m d p1) as [[d1|e] p2] eqn:Hadd; [|done].
    unfold Dataset._split_into_size_buckets in Hscan.
    destruct (directories h !! path cfg) as [entries|]; [|done].
    destruct (scan_files_exact _ _ _ _ _ _ _ _ _ Hscan) as (_ & _ & Hq & _ & _ & Hdef1).
    destruct (add_datasets_inv _ _ sbs _ _ _ _ _ Hadd) as (Hn1 & Hd1 & Hdef2); [|done|done|].
    { eapply Forall_impl; [apply Hq; constructor|]. by intros kv [? _]. }
    destruct (IH _ _ Hrun Hn1 Hd1) as (Hn2 & Hd2 & Hdef3).
    split; [done|]. split; [done|]. by rewrite Hdef3, Hdef2, Hdef1.
Qed.

Lemma make_buckets_inv (h : host) values (p : process) :
  Forall2 (fun dss b =>
             ConcatenatedDataset.datasets b = dss ∧
             ConcatenatedDataset.iteration_order b ≡ₚ
               ConcatenatedDataset.indices_by_length dss)
          values (Dataset.make_buckets h values p).1 ∧
  (Dataset.make_buckets h values p).2 = p.
Proof.
  revert p. induction values as [|dss values IH]; intros p; simpl.
  - by split; [constructor|].
  - unfold ConcatenatedDataset.__init__. rewrite shuffle_with_seed_eq, set_rng_same.
    destruct (IH p) as [Hall Hp].
    destruct (Dataset.make_buckets h values p) as [bs q]. simpl in *.
    split; [|done]. constructor; [|done]. split; [done|]. apply shuffle_perm.
Qed.

End dataset_init.

(** X20: the buckets of a dataset fresh from its constructor.  Every
    bucket holds at least one bucket dataset, all of one size bucket that
    is among the configured ones, none of them cached yet; its order is a
    rearrangement of its members' indices; no two buckets have the same
    size bucket; and [post_init] has not been called.  The shared default
    list of [_map_and_cache] is as it was. *)
Theorem dataset_init_buckets `{G : Generator} `{P : PIL} `{M : @Model P} `{D : Datasets}
    (h : host) (size_buckets : list (Z * Z)) (directory : list directory_config)
    (p : process) d p' :
  Dataset.__init__ h size_buckets directory p = (Ok d, p') →
  Dataset.post_init_called d = false ∧
  Forall (fun b =>
            ∃ sb, sb ∈ size_buckets ∧
                  ConcatenatedDataset.datasets b ≠ [] ∧
                  Forall (fun ds => SizeBucketDataset.size_bucket ds = sb ∧
                                    SizeBucketDataset.latent_dataset ds = None ∧
                                    SizeBucketDataset.text_embedding_datasets ds = [])
                         (ConcatenatedDataset.datasets b) ∧
                  ConcatenatedDataset.iteration_order b ≡ₚ
                    ConcatenatedDataset.indices_by_length (ConcatenatedDataset.datasets b))
         (Dataset.buckets d) ∧
  NoDup (map (fun b => SizeBucketDataset.size_bucket <$> head (ConcatenatedDataset.datasets b))
             (Dataset.buckets d)) ∧
  default_new_fingerprint_args p' = default_new_fingerprint_args p.
Proof.
  intros Hinit. unfold Dataset.__init__ in Hinit.
  destruct (Dataset.scan_directories h size_buckets directory [] p) as [[m|e] q] eqn:Hscan;
    [|done].
  destruct (scan_directories_inv _ _ _ _ _ _ _ Hscan) as (Hn & Hm & Hdef);
    [constructor|constructor|].
  destruct (make_buckets_inv h (map snd m) q) as [Hbs Hq].
  destruct (Dataset.make_buckets h (map snd m) q) as [bs q']. simpl in Hbs, Hq.
  injection Hinit as <- <-. cbn [Dataset.buckets Dataset.post_init_called].
  apply Forall2_fmap_l in Hbs.
  split; [done|]. split; [|split; [|by rewrite Hq]].
  - apply Forall_lookup_2. intros k b Hb.
    destruct (Forall2_lookup_r _ _ _ _ _ Hbs Hb) as ([sb dss] & Hkv & Hds & Hord).
    pose proof (Forall_lookup_1 _ _ _ _ Hm Hkv) as (Hin & Hne & Hall). simpl in *.
    exists sb. by rewrite Hds.
  - assert (map (fun b => SizeBucketDataset.size_bucket <$> head (ConcatenatedDataset.datasets b)) bs
            = map Some (map fst m)) as ->.
    { revert Hm Hbs. clear. intros Hm Hbs.
      induction Hbs as [|[sb dss] b m' bs' [Hds _] _ IH]; [done|].
      apply Forall_cons in Hm as [(_ & Hne & Hall) Hm]. simpl in *.
      rewrite (IH Hm). f_equal. rewrite Hds.
      destruct dss as [|ds dss]; [done|]. simpl. f_equal. by apply Forall_inv in Hall as [? _]. }
    apply (NoDup_fmap_2 _). exact Hn.
Qed.

Lemma dataset_init_buckets_witness :
  ∃ d p', demo_dataset_init = (Ok d, p') ∧
          Dataset.post_init_called d = false ∧
          default_new_fingerprint_args p' = default_new_fingerprint_args toy_process.
Proof.
  assert (demo_dataset_init =
            (Ok (ok_or toy_dataset demo_dataset_init.1), demo_dataset_init.2)) as Hr
    by (vm_cast_no_check (eq_refl demo_dataset_init)).
  destruct (dataset_init_buckets demo_host [(512, 512)%Z] [demo_config] toy_process _ _ Hr)
    as (Hpi & _ & _ & Hdef).
  eexists _, _. split; [exact Hr|]. split; [exact Hpi|exact Hdef].
Defined.

(* ===================================================================== *)
(** * Collating examples *)

(** X21: [_collate] transposes.  For examples that all have the same
    tensor shapes it gives one tensor per position, and tensor [j] has as
    its rows the [j]-th tensors of the examples, in the order of the
    examples.  No examples give the empty tuple, and two examples whose
    tensors differ in shape make [torch.stack] raise RuntimeError. *)
Theorem collate_transposes (sig : list (list nat)) (examples : list (list tensor)) :
  (examples ≠ [] →
   Forall (fun s => map shape s = sig) examples →
   ∃ batch, Dataset._collate examples = Ok batch ∧
            length batch = length sig ∧
            ∀ j, j < length sig →
              ∃ col, batch !! j = Some (Rows col) ∧
                     Forall2 (fun (ex : list tensor) x => ex !! j = Some x) examples col) ∧
  Dataset._collate [] = Ok [] ∧
  (∀ t1 t2, shape t1 ≠ shape t2 → Dataset._collate [[t1]; [t2]] = Err RuntimeError).
Proof.
  split; [|split].
  - intros Hne Hex.
    destruct (collate_uniform sig examples Hne Hex) as [Hc Hcols].
    assert (Hlen : Forall (fun ex : list tensor => length ex = length sig) examples).
    { eapply Forall_impl; [exact Hex|]. intros s <-. by rewrite length_map. }
    assert (Hz : zip_star examples = zip_star_go (length sig) examples).
    { destruct examples as [|ex exs]; [done|]. unfold zip_star.
      by rewrite (Forall_inv Hlen). }
    eexists. split; [exact Hc|]. rewrite length_map, Hz. split.
    + by apply zip_star_go_length.
    + intros j Hj.
      destruct (zip_star_go_lookup (length sig) examples j Hlen Hj) as (col & Hcol & Hf).
      exists col. split; [|done]. by rewrite list_lookup_fmap, Hcol.
  - done.
  - intros t1 t2 Hsh. unfold Dataset._collate, zip_star. cbn.
    unfold shape_eqb. rewrite bool_decide_eq_false_2; [done|]. by intros ?.
Qed.

Lemma collate_transposes_witness :
  ∃ batch, Dataset._collate [[Rows [Scalar 1]; Scalar 2]; [Rows [Scalar 3]; Scalar 4]] = Ok batch ∧
           length batch = 2.
Proof.
  destruct (proj1 (collate_transposes [[1]; []]
                     [[Rows [Scalar 1]; Scalar 2]; [Rows [Scalar 3]; Scalar 4]]))
    as (batch & Hb & Hl & _); [done|by repeat constructor|].
  exists batch. split; [exact Hb|exact Hl].
Defined.

(* ===================================================================== *)
(** * The length of the loader and its epochs *)

Lemma pass_even b g batches :
  1 ≤ b → 1 ≤ g → Forall (even_batch b g) batches →
  ∃ micro, pass_rest g (trace_of_list batches) micro ∧ length micro = length batches * g.
Proof.
  intros Hb Hg. induction 1 as [|batch batches Hev _ (micro & Hpass & Hlen)].
  - exists []. split; [constructor|done].
  - destruct (split_batch_even b g batch Hb Hg Hev) as (ms & Hms & Hl).
    exists (ms ++ micro). split.
    + change (trace_of_list (batch :: batches)) with (Yield batch (trace_of_list batches)).
      by constructor.
    + rewrite length_app, Hl, Hlen. simpl. lia.
Qed.

(** X22: for a dataset whose length is the number of batches it yields,
    all of them with [b * g] rows per tensor, [len] of the loader is the
    number of microbatches of one pass: call number [k] of [__next__]
    (from 0) gives microbatch [k mod len] of the pass and leaves the
    loader in epoch [1 + k // len]. *)
Theorem loader_len_counts_microbatches {DS : Type} (iter : DS → trace (list tensor))
    (len : DS → result nat) (ds : DS) (b g : nat) (batches : list (list tensor)) :
  1 ≤ b → 1 ≤ g → batches ≠ [] →
  iter ds = trace_of_list batches →
  len ds = Ok (length batches) →
  Forall (even_batch b g) batches →
  ∃ n micro,
    PipelineDataLoader.__len__ len (PipelineDataLoader.__init__ iter ds g) = Ok n ∧
    n = length batches * g ∧
    pass_rest g (iter ds) micro ∧ length micro = n ∧
    ∀ calls, (PipelineDataLoader.next_many iter calls (PipelineDataLoader.__init__ iter ds g)).1 =
             map (fun k => (Ok (micro !!! (k mod n)), 1 + k / n)) (seq 0 calls).
Proof.
  intros Hb Hg Hne Hiter Hlen Hev.
  destruct (pass_even b g batches Hb Hg Hev) as (micro & Hpass & Hl).
  exists (length batches * g), micro.
  split; [unfold PipelineDataLoader.__len__; simpl; by rewrite Hlen|].
  split; [done|]. rewrite Hiter. split; [done|]. split; [done|].
  intros calls. rewrite <- Hl.
  apply (next_many_spec iter micro (PipelineDataLoader.__init__ iter ds g) calls 0).
  - simpl. by rewrite Hiter.
  - intros ->. simpl in Hl. destruct batches; [done|]. simpl in Hl. lia.
  - lia.
  - exists micro. simpl. rewrite Hiter. by split.
Qed.

Lemma loader_len_counts_microbatches_witness :
  PipelineDataLoader.__len__ list_len (PipelineDataLoader.__init__ trace_of_list demo_batches 2)
    = Ok 4.
Proof.
  destruct (loader_len_counts_microbatches trace_of_list list_len demo_batches 1 2 demo_batches)
    as (n & micro & Hn & -> & _); [lia|lia|done|done|done| |exact Hn].
  repeat constructor; try done; eexists; split; reflexivity.
Defined.

(** X23: [__next__] never rewinds.  Whatever the state of the loader,
    one call leaves the dataset and the number of accumulation steps as
    they are and the epoch where it was or one higher, and the epoch does
    not move when the call raises.  [reset] brings any loader to the state
    of a new loader over the same dataset. *)
Theorem next_never_rewinds {DS : Type} (iter : DS → trace (list tensor))
    (self : @PipelineDataLoader.t DS) :
  let r := PipelineDataLoader.__next__ iter self in
  same_loader self r.2 ∧
  PipelineDataLoader.epoch self ≤ PipelineDataLoader.epoch r.2 ≤ PipelineDataLoader.epoch self + 1 ∧
  (∀ e, r.1 = Err e → PipelineDataLoader.epoch r.2 = PipelineDataLoader.epoch self) ∧
  PipelineDataLoader.reset iter self =
    PipelineDataLoader.__init__ iter (PipelineDataLoader.dataset self)
      (PipelineDataLoader.gradient_accumulation_steps self).
Proof.
  assert (Hdata : ∀ s : @PipelineDataLoader.t DS,
            same_loader s (PipelineDataLoader.next_data s).2 ∧
            PipelineDataLoader.epoch (PipelineDataLoader.next_data s).2 =
              PipelineDataLoader.epoch s).
  { intros s. unfold PipelineDataLoader.next_data.
    destruct (PipelineDataLoader.pending s); [|done].
    by destruct (PipelineDataLoader.pull _ _ _) as [r [[rest more] pulled]]. }
  intros r. unfold r, PipelineDataLoader.__next__.
  destruct (Hdata self) as [[Hd1 Hg1] He1].
  destruct (PipelineDataLoader.next_data self) as [[m|e] s1] eqn:H1; simpl in *.
  { repeat split; try done; lia. }
  destruct e; cbn [fst snd]; try (repeat split; try done; lia).
  destruct (Hdata (PipelineDataLoader._create_dataloader iter s1)) as [[Hd2 Hg2] He2].
  destruct (PipelineDataLoader.next_data (PipelineDataLoader._create_dataloader iter s1))
    as [[m|e] s2]; simpl in *.
  - repeat split; simpl; try congruence; try lia; done.
  - repeat split; simpl; try congruence; try lia; done.
Qed.

Lemma next_never_rewinds_witness :
  PipelineDataLoader.epoch (PipelineDataLoader.__next__ (fun _ : unit => Stop) demo_loader).2 = 4.
Proof.
  refine (proj1 (proj2 (proj2 (next_never_rewinds (fun _ : unit => Stop) demo_loader)))
            StopIteration _).
  reflexivity.
Defined.

(* ===================================================================== *)
(** * The scan and the order of the directory listing *)

Lemma string_leb_trans (a b c : string) :
  String.leb a b = true → String.leb b c = true → String.leb a c = true.
Proof.
  unfold String.leb. revert b c.
  induction a as [|x a IH]; intros [|y b] [|z c]; simpl; try done.
  unfold Ascii.compare.
  destruct (N.compare_spec (N_of_ascii x) (N_of_ascii y)) as [Hxy|Hxy|Hxy];
    destruct (N.compare_spec (N_of_ascii y) (N_of_ascii z)) as [Hyz|Hyz|Hyz];
    destruct (N.compare_spec (N_of_ascii x) (N_of_ascii z)) as [Hxz|Hxz|Hxz];
    try done; try (exfalso; lia).
  apply IH.
Qed.

Lemma insert_sorted_comm (x y : dir_entry) (s : list dir_entry) :
  entry_name x ≠ entry_name y →
  insert_sorted x (insert_sorted y s) = insert_sorted y (insert_sorted x s).
Proof.
  intros Hne.
  assert (Hxy : String.leb (entry_name x) (entry_name y) =
                negb (String.leb (entry_name y) (entry_name x))).
  { destruct (String.leb (entry_name x) (entry_name y)) eqn:H1,
             (String.leb (entry_name y) (entry_name x)) eqn:H2; try done.
    - destruct Hne. by apply String.leb_antisym.
    - destruct (String.leb_total (entry_name x) (entry_name y)); congruence. }
  induction s as [|e s IH]; cbn [insert_sorted].
  - rewrite Hxy. by destruct (String.leb (entry_name y) (entry_name x)).
  - destruct (String.leb (entry_name y) (entry_name e)) eqn:Hye,
             (String.leb (entry_name x) (entry_name e)) eqn:Hxe; cbn [insert_sorted].
    + rewrite Hxy, Hye, Hxe. by destruct (String.leb (entry_name y) (entry_name x)).
    + rewrite Hye, Hxe.
      destruct (String.leb (entry_name x) (entry_name y)) eqn:H1; [|done].
      by rewrite (string_leb_trans _ _ _ H1 Hye) in Hxe.
    + rewrite Hye, Hxe.
      destruct (String.leb (entry_name y) (entry_name x)) eqn:H2; [|done].
      by rewrite (string_leb_trans _ _ _ H2 Hxe) in Hye.
    + by rewrite Hye, Hxe, IH.
Qed.

(** Sorting gives one result for all listings of the same entries, when
    no name occurs twice in the directory. *)
Lemma sort_entries_listing (l1 l2 : list dir_entry) :
  l1 ≡ₚ l2 → NoDup (map entry_name l1) → sort_entries l1 = sort_entries l2.
Proof.
  induction 1 as [|x l1 l2 Hp IH|x y l|l1 l2 l3 H12 IH12 H23 IH23]; intros Hn.
  - done.
  - simpl. rewrite IH; [done|]. by apply NoDup_cons in Hn as [_ ?].
  - simpl. apply insert_sorted_comm.
    simpl in Hn. apply NoDup_cons in Hn as [Hy _]. intros Heq. apply Hy. rewrite Heq. left.
  - rewrite IH12 by done. apply IH23. by rewrite <- H12.
Qed.

Section listing_order.
Context `{G : Generator} `{P : PIL}.

Lemma scan_files_listing (h h' : host) path entries entries' sbs files acc (p : process) :
  image_files h' = image_files h →
  (∀ x, x ∈ map entry_name entries' ↔ x ∈ map entry_name entries) →
  Dataset.scan_files h' path entries' sbs files acc p =
    Dataset.scan_files h path entries sbs files acc p.
Proof.
  intros Himg Hnames. revert acc p. induction files as [|f files IH]; intros acc p; [done|].
  cbn [Dataset.scan_files].
  assert (Dataset.scan_file h' path entries' sbs f acc p
          = Dataset.scan_file h path entries sbs f acc p) as ->.
  { unfold Dataset.scan_file, Dataset._find_closest_size_bucket. rewrite Himg.
    by rewrite (bool_decide_ext _ _ (Hnames (with_suffix (entry_name f) ".txt"))). }
  destruct (Dataset.scan_file h path entries sbs f acc p) as [[acc1|e] p1]; [|done].
  apply IH.
Qed.

End listing_order.

(** X24: the scan of a directory does not depend on the order in which
    the directory is listed: on a host that differs only in the order of
    the entries of that directory, whose names are all different,
    [_split_into_size_buckets] returns the same buckets with the same
    pairs in the same order, and leaves the same process state. *)
Theorem scan_ignores_listing_order `{G : Generator} `{P : PIL} `{M : @Model P} `{D : Datasets}
    (h : host) (dir : string) (entries entries' : list dir_entry)
    (size_buckets : list (Z * Z)) (p : process) :
  directories h !! dir = Some entries →
  entries' ≡ₚ entries →
  NoDup (map entry_name entries) →
  Dataset._split_into_size_buckets (with_listing h dir entries') dir size_buckets p =
    Dataset._split_into_size_buckets h dir size_buckets p.
Proof.
  intros Hdir Hperm Hn. unfold Dataset._split_into_size_buckets.
  rewrite Hdir. cbn [with_listing directories]. rewrite lookup_insert_eq.
  rewrite (sort_entries_listing entries' entries Hperm) by (by rewrite Hperm).
  apply scan_files_listing; [done|].
  intros x. by rewrite Hperm.
Qed.

Lemma scan_ignores_listing_order_witness :
  Dataset._split_into_size_buckets (with_listing demo_host "d" (reverse demo_entries)) "d"
    [(512, 512)%Z] toy_process =
  Dataset._split_into_size_buckets demo_host "d" [(512, 512)%Z] toy_process.
Proof.
  apply (scan_ignores_listing_order demo_host "d" demo_entries).
  - vm_compute. reflexivity.
  - apply reverse_Permutation.
  - apply (bool_decide_unpack _). vm_compute. exact I.
Defined.

(** X25: the edges of the bucket ladder.  Without [enable_bucket] the
    only size bucket is the square of the resolution, whatever the other
    keys say.  With it, a missing [max_bucket_reso] raises TypeError, and
    so does a missing [min_bucket_reso] or [bucket_reso_steps] once the
    loop gets to it; a resolution above the maximum or below the minimum
    gives no size bucket at all. *)
Theorem configured_size_buckets_edges (c : bucket_config) (fuel : nat) :
  (enable_bucket c = false →
     configured_size_buckets fuel c = Some (Ok {[ (resolution c, resolution c) ]})) ∧
  (enable_bucket c = true → max_bucket_reso c = None →
     configured_size_buckets fuel c = Some (Err TypeError)) ∧
  (∀ max, enable_bucket c = true → max_bucket_reso c = Some max →
     ((max < resolution c)%Z → configured_size_buckets fuel c = Some (Ok ∅)) ∧
     ((resolution c ≤ max)%Z → min_bucket_reso c = None →
        configured_size_buckets fuel c = Some (Err TypeError)) ∧
     (∀ min, (resolution c ≤ max)%Z → min_bucket_reso c = Some min →
        ((resolution c < min)%Z → configured_size_buckets fuel c = Some (Ok ∅)) ∧
        ((min ≤ resolution c)%Z → bucket_reso_steps c = None →
           configured_size_buckets fuel c = Some (Err TypeError)))).
Proof.
  unfold configured_size_buckets. split; [by intros ->|].
  split; [intros -> Hmax; destruct fuel; simpl; by rewrite Hmax|].
  intros max -> Hmax. split; [|split].
  - intros Hlt. apply Z.leb_gt in Hlt. destruct fuel; simpl; by rewrite Hmax, Hlt.
  - intros Hle Hmin. apply Z.leb_le in Hle. destruct fuel; simpl; by rewrite Hmax, Hle, Hmin.
  - intros min Hle Hmin. apply Z.leb_le in Hle. split.
    + intros Hlt. assert ((resolution c >=? min)%Z = false) as Hge.
      { destruct (Z.geb_spec (resolution c) min); [lia|done]. }
      destruct fuel; simpl; by rewrite Hmax, Hle, Hmin, Hge.
    + intros Hge Hstep. apply Z.geb_le in Hge.
      destruct fuel; simpl; by rewrite Hmax, Hle, Hmin, Hge, Hstep.
Qed.

Lemma configured_size_buckets_edges_witness :
  configured_size_buckets 0
    {| resolution := 1024; enable_bucket := true; min_bucket_reso := Some 256%Z;
       max_bucket_reso := Some 768%Z; bucket_reso_steps := Some 64%Z |} = Some (Ok ∅).
Proof.
  refine (proj1 (proj2 (proj2 (configured_size_buckets_edges
                                 {| resolution := 1024; enable_bucket := true;
                                    min_bucket_reso := Some 256%Z;
                                    max_bucket_reso := Some 768%Z;
                                    bucket_reso_steps := Some 64%Z |} 0))
                   768%Z eq_refl eq_refl) _).
  simpl. lia.
Defined.

(* ===================================================================== *)
(** * What a scan logs, and when it raises *)

Section scan_log.
Context `{G : Generator} `{P : PIL}.

Lemma scan_file_process (h : host) dir entries sbs file acc (p : process) :
  (Dataset.scan_file h dir entries sbs file acc p).2 =
    match skip_warning h dir entries file with
    | Some m => warning m p
    | None => p
    end.
Proof.
  unfold Dataset.scan_file, skip_warning.
  destruct (negb (is_file file) || bool_decide _); [done|].
  destruct (negb (bool_decide _)); [done|].
  unfold Dataset._find_closest_size_bucket.
  destruct (image_files h !! _) as [img|]; [|done].
  destruct (img_size img) as [w ht]. destruct (ht =? 0)%Z; [done|].
  by destruct (Dataset.closest_from _ _ _ _) as [[sb|]|e].
Qed.

Lemma scan_files_process (h : host) dir entries sbs files acc (p : process) m p' :
  Dataset.scan_files h dir entries sbs files acc p = (Ok m, p') →
  p' = foldl (fun q w => warning w q) p (omap (skip_warning h dir entries) files).
Proof.
  revert acc p. induction files as [|f files IH]; intros acc p; cbn [Dataset.scan_files].
  - by intros [= _ <-].
  - pose proof (scan_file_process h dir entries sbs f acc p) as Hp.
    destruct (Dataset.scan_file h dir entries sbs f acc p) as [[acc1|e] p1]; [|done].
    cbn [snd] in Hp. intros Hrest. rewrite (IH _ _ Hrest), Hp.
    cbn [omap list_omap]. by destruct (skip_warning h dir entries f).
Qed.

Lemma foldl_warning_frame (p : process) (ws : list string) :
  let p' := foldl (fun q w => warning w q) p ws in
  logged p' = logged p ++ map (fun m => {| lvl := WARNING; msg := m |}) ws ∧
  rng p' = rng p ∧ cache p' = cache p ∧
  default_new_fingerprint_args p' = default_new_fingerprint_args p.
Proof.
  revert p. induction ws as [|w ws IH]; intros p; cbn [foldl map].
  - by rewrite app_nil_r.
  - destruct (IH (warning w p)) as (Hl & Hr & Hc & Hd). cbv zeta.
    rewrite Hl, Hr, Hc, Hd. split; [|done].
    cbn [warning logged]. unfold logger_warning. by rewrite <- app_assoc.
Qed.

(** The scan raises only at a file it would have listed: one that has
    its caption and can be opened, when the image or a size bucket has
    height 0. *)
Lemma scan_file_raise (h : host) dir entries sbs file acc (p : process) e p' :
  Dataset.scan_file h dir entries sbs file acc p = (Err e, p') →
  e = ZeroDivisionError ∧
  ∃ img, acceptedb h dir entries file = true ∧
         image_files h !! (dir +:+ "/" +:+ entry_name file) = Some img ∧
         ((img_size img).2 = 0%Z ∨ Exists (fun sb : Z * Z => sb.2 = 0%Z) sbs).
Proof.
  unfold Dataset.scan_file, acceptedb.
  destruct (is_file file) eqn:Hf; simpl; [|done].
  case_bool_decide as Hs; simpl; [done|].
  case_bool_decide as Hc; simpl; [|done].
  unfold Dataset._find_closest_size_bucket.
  destruct (image_files h !! _) as [img|] eqn:Hi; [|done].
  rewrite bool_decide_eq_true_2 by (by eexists).
  destruct (img_size img) as [width height] eqn:Hsz.
  destruct (height =? 0)%Z eqn:Hz.
  { apply Z.eqb_eq in Hz. intros [= <- _]. split; [done|]. exists img.
    split; [done|]. split; [done|]. left. by rewrite Hsz. }
  pose proof (closest_from_member (inject_Z width / inject_Z height)%Q sbs None None
                ltac:(done)) as Hm.
  destruct (Dataset.closest_from _ _ _ _) as [[sb|]|e0]; [done|done|].
  intros [= <- _]. destruct Hm as [-> Hex]. split; [done|]. exists img.
  split; [done|]. split; [done|]. by right.
Qed.

Lemma scan_files_raise (h : host) dir entries sbs files acc (p : process) e p' :
  Dataset.scan_files h dir entries sbs files acc p = (Err e, p') →
  e = ZeroDivisionError ∧
  ∃ file img, file ∈ files ∧ acceptedb h dir entries file = true ∧
              image_files h !! (dir +:+ "/" +:+ entry_name file) = Some img ∧
              ((img_size img).2 = 0%Z ∨ Exists (fun sb : Z * Z => sb.2 = 0%Z) sbs).
Proof.
  revert acc p. induction files as [|f files IH]; intros acc p; cbn [Dataset.scan_files]; [done|].
  destruct (Dataset.scan_file h dir entries sbs f acc p) as [[acc1|e1] p1] eqn:Hf.
  - intros Hrest. destruct (IH _ _ Hrest) as (He & file & img & Hin & Hrest').
    split; [done|]. exists file, img. split; [by right|done].
  - intros [= <- <-]. destruct (scan_file_raise _ _ _ _ _ _ _ _ _ Hf) as (He & img & Hrest').
    split; [done|]. exists f, img. split; [left|done].
Qed.

Lemma listed_concat (m : list ((Z * Z) * list (string * string))) pr :
  listed m pr ↔ pr ∈ concat (map snd m).
Proof.
  unfold listed. induction m as [|[sb fps] m IH]; simpl.
  - split; [intros (? & ? & Hin & _); by apply elem_of_nil in Hin|by intros ?%elem_of_nil].
  - rewrite elem_of_app, <- IH. split.
    + intros (sb' & fps' & [Heq|Hin]%elem_of_cons & Hpr).
      * injection Heq as -> ->. by left.
      * right. by exists sb', fps'.
    + intros [Hpr|(sb' & fps' & Hin & Hpr)].
      * exists sb, fps. split; [left|done].
      * exists sb', fps'. split; [by right|done].
Qed.

Lemma accepted_file_pair (h : host) dir entries file pr :
  accepted h dir entries file pr ↔
  pr = file_pair dir file ∧ acceptedb h dir entries file = true.
Proof. unfold accepted, file_pair. rewrite acceptedb_true. tauto. Qed.

End scan_log.

Section scan_outcome.
Context `{G : Generator} `{P : PIL}.

Lemma skip_warnings_elem (h : host) dir entries files file w :
  file ∈ files → skip_warning h dir entries file = Some w →
  {| lvl := WARNING; msg := w |} ∈ skip_warnings h dir entries files.
Proof.
  intros Hin Hw. unfold skip_warnings.
  apply list_elem_of_In, in_map, list_elem_of_In, list_elem_of_omap. by exists file.
Qed.

(** What a scan that returns has done to the process: the warnings of the
    files it passed over, in their order, after what was logged before. *)
Lemma scan_files_log (h : host) dir entries sbs files acc (p : process) m p' :
  Dataset.scan_files h dir entries sbs files acc p = (Ok m, p') →
  logged p' = logged p ++ skip_warnings h dir entries files ∧
  rng p' = rng p ∧ cache p' = cache p ∧
  default_new_fingerprint_args p' = default_new_fingerprint_args p.
Proof.
  intros Hscan. rewrite (scan_files_process _ _ _ _ _ _ _ _ _ Hscan).
  apply foldl_warning_frame.
Qed.

(** The pairs a scan that returns has listed. *)
Lemma scan_files_listed_iff (h : host) dir entries sbs files (p : process) m p' pr :
  Dataset.scan_files h dir entries sbs files [] p = (Ok m, p') →
  listed m pr ↔ sbs ≠ [] ∧ ∃ file, file ∈ files ∧ accepted h dir entries file pr.
Proof.
  intros Hscan. rewrite listed_concat.
  destruct (scan_files_exact _ _ _ _ _ _ _ _ _ Hscan) as (Hperm & _).
  rewrite Hperm. simpl. case_bool_decide as Hsb.
  - split; [by intros ?%elem_of_nil|by intros [? _]].
  - split.
    + intros Hin. apply list_elem_of_In, in_map_iff in Hin as (file & <- & Hin).
      apply list_elem_of_In, list_elem_of_filter in Hin as [Ha Hin].
      split; [done|]. exists file. split; [done|].
      apply accepted_file_pair. split; [done|]. by apply Is_true_true.
    + intros [_ (file & Hin & Ha)]. apply accepted_file_pair in Ha as [-> Ha].
      apply list_elem_of_In, in_map, list_elem_of_In, list_elem_of_filter.
      split; [by rewrite Ha|done].
Qed.

End scan_outcome.

(** C9: scanning [dir] with [_split_into_size_buckets].  A path that is
    not a directory makes it raise [RuntimeError], and the constructor
    with it.  In a directory: the loop body passes over an image candidate
    that has no same-stem [.txt] file, or that [Image.open] refuses, with
    one warning and nothing raised.  When the scan returns, it has added
    to the log, in the sorted order of the files, one warning for each
    such file and nothing else, and has changed nothing else of the
    process; the warning of a file without its caption, and that of a file
    that cannot be opened, are in the log, each with the text of the
    source; such a file is in no bucket; and the pairs in the buckets are
    those of the files that have their caption and can be opened, none of
    them when there is no size bucket.  The scan raises nothing but
    [ZeroDivisionError], and this only at a file that has its caption and
    can be opened, when that image or a size bucket has height 0: where
    no such file is, it returns, whatever files it passes over. *)
Theorem scan_error_handling `{G : Generator} `{P : PIL} `{M : @Model P} `{D : Datasets}
    (h : host) (dir : string) (size_buckets : list (Z * Z)) (p : process) :
  (directories h !! dir = None →
     Dataset._split_into_size_buckets h dir size_buckets p = (Err RuntimeError, p) ∧
     ∀ cfg cfgs, path cfg = dir →
       Dataset.__init__ h size_buckets (cfg :: cfgs) p = (Err RuntimeError, p)) ∧
  (∀ entries, directories h !! dir = Some entries →
     (∀ file acc (q : process),
        is_file file = true → suffix (entry_name file) ≠ ".txt" →
        with_suffix (entry_name file) ".txt" ∉ map entry_name entries ∨
          image_files h !! (dir +:+ "/" +:+ entry_name file) = None →
        ∃ m, Dataset.scan_file h dir entries size_buckets file acc q = (Ok acc, warning m q)) ∧
     (∀ m p', Dataset._split_into_size_buckets h dir size_buckets p = (Ok m, p') →
        logged p' = logged p ++ skip_warnings h dir entries (sort_entries entries) ∧
        rng p' = rng p ∧ cache p' = cache p ∧
        default_new_fingerprint_args p' = default_new_fingerprint_args p ∧
        (∀ file, file ∈ entries →
           is_file file = true → suffix (entry_name file) ≠ ".txt" →
           (with_suffix (entry_name file) ".txt" ∉ map entry_name entries →
            {| lvl := WARNING;
               msg := "Image file " +:+ (dir +:+ "/" +:+ entry_name file)
                      +:+ " does not have corresponding caption file. Skipping." |}
              ∈ logged p') ∧
           (with_suffix (entry_name file) ".txt" ∈ map entry_name entries →
            image_files h !! (dir +:+ "/" +:+ entry_name file) = None →
            {| lvl := WARNING;
               msg := "Image file " +:+ (dir +:+ "/" +:+ entry_name file)
                      +:+ " could not be opened. Skipping." |}
              ∈ logged p')) ∧
        (∀ file,
           with_suffix (entry_name file) ".txt" ∉ map entry_name entries ∨
             image_files h !! (dir +:+ "/" +:+ entry_name file) = None →
           ∀ sb fps caption, (sb, fps) ∈ m →
             (dir +:+ "/" +:+ entry_name file, caption) ∉ fps) ∧
        (∀ pr, listed m pr ↔
               size_buckets ≠ [] ∧ ∃ file, file ∈ entries ∧ accepted h dir entries file pr)) ∧
     (∀ e p', Dataset._split_into_size_buckets h dir size_buckets p = (Err e, p') →
        e = ZeroDivisionError ∧
        ∃ file img,
          file ∈ entries ∧ is_file file = true ∧ suffix (entry_name file) ≠ ".txt" ∧
          with_suffix (entry_name file) ".txt" ∈ map entry_name entries ∧
          image_files h !! (dir +:+ "/" +:+ entry_name file) = Some img ∧
          ((img_size img).2 = 0%Z ∨ Exists (fun sb : Z * Z => sb.2 = 0%Z) size_buckets)) ∧
     ((∀ file img,
         file ∈ entries → is_file file = true → suffix (entry_name file) ≠ ".txt" →
         with_suffix (entry_name file) ".txt" ∈ map entry_name entries →
         image_files h !! (dir +:+ "/" +:+ entry_name file) = Some img →
         (img_size img).2 ≠ 0%Z ∧ Forall (fun sb : Z * Z => sb.2 ≠ 0%Z) size_buckets) →
      ∃ m p', Dataset._split_into_size_buckets h dir size_buckets p = (Ok m, p'))).
Proof.
  assert (Hraise : ∀ entries e p',
            Dataset.scan_files h dir entries size_buckets (sort_entries entries) [] p
              = (Err e, p') →
            e = ZeroDivisionError ∧
            ∃ file img,
              file ∈ entries ∧ is_file file = true ∧ suffix (entry_name file) ≠ ".txt" ∧
              with_suffix (entry_name file) ".txt" ∈ map entry_name entries ∧
              image_files h !! (dir +:+ "/" +:+ entry_name file) = Some img ∧
              ((img_size img).2 = 0%Z ∨ Exists (fun sb : Z * Z => sb.2 = 0%Z) size_buckets)).
  { intros entries e p' Hscan.
    destruct (scan_files_raise _ _ _ _ _ _ _ _ _ Hscan)
      as (He & file & img & Hin & Ha & Hi & Hz).
    split; [done|]. exists file, img. apply acceptedb_true in Ha as (Hf & Hs & Hc & _).
    split; [by rewrite <- (sort_entries_perm entries)|done]. }
  split.
  - intros Hdir. unfold Dataset.__init__, Dataset._split_into_size_buckets.
    rewrite Hdir. split; [done|].
    intros cfg cfgs Hcfg. simpl. rewrite Hcfg.
    unfold Dataset._split_into_size_buckets. by rewrite Hdir.
  - intros entries Hdir. split; [|split; [|split]].
    + intros file acc q Hf Hs Hbad. by apply scan_file_skips.
    + unfold Dataset._split_into_size_buckets. rewrite Hdir.
      intros m p' Hscan.
      destruct (scan_files_log _ _ _ _ _ _ _ _ _ Hscan) as (Hl & Hr & Hc & Hd).
      split; [done|]. split; [done|]. split; [done|]. split; [done|].
      split; [|split].
      * intros file Hin Hf Hs.
        assert (Hin' : file ∈ sort_entries entries) by (by rewrite (sort_entries_perm entries)).
        split.
        -- intros Hcap. rewrite Hl. apply elem_of_app. right.
           apply (skip_warnings_elem _ _ _ _ file); [done|].
           unfold skip_warning. rewrite Hf, bool_decide_eq_false_2 by done. simpl.
           by rewrite bool_decide_eq_false_2 by done.
        -- intros Hcap Himg. rewrite Hl. apply elem_of_app. right.
           apply (skip_warnings_elem _ _ _ _ file); [done|].
           unfold skip_warning. rewrite Hf, bool_decide_eq_false_2 by done. simpl.
           rewrite bool_decide_eq_true_2 by done. simpl. by rewrite Himg.
      * intros file Hbad sb fps caption Hin Hpr.
        destruct (scan_files_listed _ _ _ _ _ _ _ _ _
                    (dir +:+ "/" +:+ entry_name file, caption) Hscan)
          as [(sb' & fps' & Hnil & _)|(file' & _ & Hacc)].
        -- by exists sb, fps.
        -- by apply elem_of_nil in Hnil.
        -- destruct Hacc as (Heq & _ & _ & Hcap & Himg).
           injection Heq as Hname _.
           apply append_inj_r in Hname. apply (append_inj_r "/") in Hname.
           rewrite <- Hname in Hcap, Himg.
           destruct Hbad as [Hbad|Hbad]; [done|].
           rewrite Hbad in Himg. by destruct Himg.
      * intros pr. rewrite (scan_files_listed_iff _ _ _ _ _ _ _ _ _ Hscan).
        split; intros [Hsb (file & Hin & Ha)]; (split; [done|]); exists file;
          (split; [|done]).
        -- by rewrite <- (sort_entries_perm entries).
        -- by rewrite (sort_entries_perm entries).
    + unfold Dataset._split_into_size_buckets. rewrite Hdir. apply Hraise.
    + intros Hgood. unfold Dataset._split_into_size_buckets. rewrite Hdir.
      destruct (Dataset.scan_files h dir entries size_buckets (sort_entries entries) [] p)
        as [[m|e] p'] eqn:Hscan; [by eauto|].
      destruct (Hraise _ _ _ Hscan) as (_ & file & img & Hin & Hf & Hs & Hc & Hi & Hz).
      destruct (Hgood file img Hin Hf Hs Hc Hi) as [Hh Hsb]. exfalso.
      destruct Hz as [Hz|Hz]; [done|].
      apply Exists_exists in Hz as (sb & Hin' & Hz).
      by apply (proj1 (Forall_forall _ _) Hsb sb Hin').
Qed.

Lemma scan_error_handling_witness :
  ∃ m p',
    Dataset._split_into_size_buckets demo_host "d" [(512, 512)%Z; (768, 512)%Z] toy_process
      = (Ok m, p') ∧
    logged p' =
      [ {| lvl := WARNING;
           msg := "Image file d/c.png does not have corresponding caption file. Skipping." |};
        {| lvl := WARNING;
           msg := "Image file d/e.bin could not be opened. Skipping." |} ] ∧
    (∀ sb fps caption, (sb, fps) ∈ m → ("d/c.png", caption) ∉ fps) ∧
    (∀ sb fps caption, (sb, fps) ∈ m → ("d/e.bin", caption) ∉ fps) ∧
    listed m ("d/a.png", "d/a.txt") ∧
    listed m ("d/b.png", "d/b.txt") ∧
    Dataset._split_into_size_buckets demo_host "nowhere" [(512, 512)%Z; (768, 512)%Z] toy_process
      = (Err RuntimeError, toy_process).
Proof.
  destruct (scan_error_handling demo_host "d" [(512, 512)%Z; (768, 512)%Z] toy_process)
    as [_ Hd].
  assert (directories demo_host !! "d" = Some demo_entries) as Hentries
    by (vm_compute; reflexivity).
  destruct (Hd _ Hentries) as (_ & Hout & _ & Hok).
  destruct Hok as (m & p' & Hscan).
  { intros file img _ _ _ _ Hi. split.
    - eapply (map_Forall_lookup_1 (fun _ (i : Z * Z) => i.2 ≠ 0%Z)); [|exact Hi].
      apply (bool_decide_unpack _). vm_compute. exact I.
    - repeat constructor; done. }
  destruct (Hout m p' Hscan) as (Hlog & _ & _ & _ & _ & Hnone & Hlisted).
  exists m, p'. split; [exact Hscan|]. split; [|split; [|split; [|split; [|split]]]].
  - rewrite Hlog. vm_compute. reflexivity.
  - intros sb fps caption. apply (Hnone {| entry_name := "c.png"; is_file := true |}).
    left. apply (bool_decide_unpack _). vm_compute. exact I.
  - intros sb fps caption. apply (Hnone {| entry_name := "e.bin"; is_file := true |}).
    right. vm_compute. reflexivity.
  - apply Hlisted. split; [done|]. exists {| entry_name := "a.png"; is_file := true |}.
    split; [apply list_elem_of_In; vm_compute; tauto|].
    apply accepted_file_pair. split; vm_compute; reflexivity.
  - apply Hlisted. split; [done|]. exists {| entry_name := "b.png"; is_file := true |}.
    split; [apply list_elem_of_In; vm_compute; tauto|].
    apply accepted_file_pair. split; vm_compute; reflexivity.
  - destruct (scan_error_handling demo_host "nowhere" [(512, 512)%Z; (768, 512)%Z] toy_process)
      as [Hn _].
    apply Hn. vm_compute. reflexivity.
Defined.
